(** * Line-art conversion pipeline

    A shallow embedding of [src/lib/lineArt.ts] (the in-browser image to
    line-art pipeline), of the remote client [src/lib/lineArtAPI.ts] and of
    the [handleConvert] handler of the colouring editor, together with the
    properties the specification states about them.

    Conventions.
    - A [Uint8ClampedArray] is a [list Z] whose entries are bytes; reads use
      stdpp's lookup [!!] ([None] is JavaScript's [undefined]) and writes use
      stdpp's insert, which like a typed array ignores an index out of range.
    - A JavaScript [number] that holds a fraction is a primitive binary64
      [float]; pixel coordinates, widths and heights are [nat].
    - A counted [for] loop is [for_up lo hi body]. *)

From Stdlib Require Import ZArith Lia Reals Lra Floats Uint63 Bool String.
From stdpp Require Import base list numbers option.

Local Open Scope Z_scope.

(** ** Loops *)

(** [for (let i = lo; i < hi; i++) s = body i s]. *)
Definition for_up {S : Type} (lo hi : nat) (body : nat → S → S) (s : S) : S :=
  foldl (λ acc i, body i acc) s (seq lo (hi - lo)).

(** ** Pixel buffers *)

(** Offset of the red channel of pixel [(x, y)] in a row-major RGBA buffer:
    [(y * width + x) * 4]. *)
Definition px_index (width y x : nat) : nat := (y * width + x) * 4.

Definition is_byte (v : Z) : Prop := 0 ≤ v ≤ 255.

(** The RGBA pixels of a buffer, four entries at a time. *)
Fixpoint pixels (data : list Z) : list (Z * Z * Z * Z) :=
  match data with
  | r :: g :: b :: a :: rest => (r, g, b, a) :: pixels rest
  | _ => []
  end.

Definition black : Z * Z * Z * Z := (0, 0, 0, 255).
Definition white : Z * Z * Z * Z := (255, 255, 255, 255).

Definition is_bw_pixel (p : Z * Z * Z * Z) : bool :=
  match p with
  | (r, g, b, a) =>
      ((r =? 0) && (g =? 0) && (b =? 0) && (a =? 255))
      || ((r =? 255) && (g =? 255) && (b =? 255) && (a =? 255))
  end.

(** A buffer is pure black and white when it is a whole number of pixels,
    each of them [black] or [white]. *)
Definition is_bw (data : list Z) : Prop :=
  (∃ n : nat, length data = (4 * n)%nat) ∧
  Forall (λ p, is_bw_pixel p = true) (pixels data).

(** ** Dilation ([dilate], lineArt.ts 149-174) *)

(** The inner two loops: the running minimum of the red channel over the 3x3
    window.  [dy] and [dx] run over 0, 1, 2 and stand for the source's
    offsets -1, 0, 1, so the neighbour is [(y + dy - 1, x + dx - 1)].  A read
    past the end gives [undefined], and [undefined < minVal] is false. *)
Definition dilate_min (src : list Z) (width y x : nat) : Z :=
  for_up 0 3 (λ dy,
    for_up 0 3 (λ dx minVal,
      match src !! px_index width (y + dy - 1) (x + dx - 1) with
      | Some val => if val <? minVal then val else minVal
      | None => minVal
      end)) 255.

Definition dilate (data : list Z) (width height : nat) : list Z :=
  let src := data in
  for_up 1 (height - 1) (λ y,
    for_up 1 (width - 1) (λ x dst,
      let minVal := dilate_min src width y x in
      let idx := px_index width y x in
      <[(idx + 2)%nat := minVal]>
        (<[(idx + 1)%nat := minVal]> (<[idx := minVal]> dst)))) data.

(** [for (let i = 0; i < thickness; i++) output = dilate(output, ...)]. *)
Definition dilate_passes (thickness : nat) (output : list Z)
    (width height : nat) : list Z :=
  for_up 0 thickness (λ _ out, dilate out width height) output.

(** The 3x3 neighbourhood of [(y, x)], row by row, and the red-channel values
    a buffer holds there. *)
Definition neighbourhood (y x : nat) : list (nat * nat) :=
  [ (y - 1, x - 1); (y - 1, x); (y - 1, x + 1);
    (y, x - 1);     (y, x);     (y, x + 1);
    (y + 1, x - 1); (y + 1, x); (y + 1, x + 1) ]%nat.

Definition chan_at (data : list Z) (width c : nat) (k : nat * nat) : option Z :=
  data !! (px_index width k.1 k.2 + c)%nat.

Definition neighbourhood_chan (data : list Z) (width c y x : nat) : list Z :=
  omap (chan_at data width c) (neighbourhood y x).

Definition neighbourhood_reds (data : list Z) (width y x : nat) : list Z :=
  neighbourhood_chan data width 0 y x.

Definition is_min_of (m : Z) (l : list Z) : Prop :=
  m ∈ l ∧ ∀ v, v ∈ l → m ≤ v.

(** ** Auxiliary definitions for the proofs *)

(** The interior pixel coordinates, in the order the double loop visits them. *)
Definition interior (width height : nat) : list (nat * nat) :=
  y ← seq 1 (height - 2); x ← seq 1 (width - 2); [(y, x)].

(** One iteration of a neighbourhood pass: pixel [(y, x)] gets [val y x c] in
    channel [c] for the three colour channels. *)
Definition write_rgb (width : nat) (val : nat → nat → nat → Z)
    (dst : list Z) (k : nat * nat) : list Z :=
  let idx := px_index width k.1 k.2 in
  <[(idx + 2)%nat := val k.1 k.2 2%nat]>
    (<[(idx + 1)%nat := val k.1 k.2 1%nat]>
       (<[idx := val k.1 k.2 0%nat]> dst)).

Definition pixel_pass (val : nat → nat → nat → Z) (width height : nat)
    (data : list Z) : list Z :=
  foldl (write_rgb width val) data (interior width height).

Definition min_step (minVal : Z) (o : option Z) : Z :=
  match o with
  | Some val => if val <? minVal then val else minVal
  | None => minVal
  end.


(** ** JavaScript numbers *)

(** A non-negative integer below 2^63 as a binary64 number (exact below
    2^53). *)
Definition Z2float (n : Z) : float := of_uint63 (Uint63.of_Z n).

(** [Math.floor] of a finite number, as an integer; 0 stands for the
    non-finite cases, which a canvas dimension turns into 0 as well. *)
Definition floorZ (x : float) : Z :=
  match Prim2SF x with
  | S754_finite s m e =>
      let v := if s then Z.neg m else Z.pos m in
      if 0 <=? e then v * 2 ^ e else v / 2 ^ (- e)
  | _ => 0
  end.

(** The conversion a [Uint8ClampedArray] applies to a stored number
    (ToUint8Clamp): NaN is 0, the value is clamped to 0..255 and rounded to
    the nearest integer, a tie going to the even one. *)
Definition toUint8Clamp (x : float) : Z :=
  match Prim2SF x with
  | S754_nan => 0
  | S754_zero _ => 0
  | S754_infinity s => if s then 0 else 255
  | S754_finite true _ _ => 0
  | S754_finite false m e =>
      if 0 <=? e then Z.min 255 (Z.pos m * 2 ^ e)
      else
        let d := 2 ^ (- e) in
        let f := Z.pos m / d in
        let r := Z.pos m mod d in
        Z.min 255 (match 2 * r ?= d with
                   | Lt => f
                   | Gt => f + 1
                   | Eq => if Z.even f then f else f + 1
                   end)
  end.

(** The conversion a [Float32Array] applies to a stored number
    ([Math.fround]): rounding to the nearest binary32 number. *)
Definition fround (x : float) : float :=
  match Prim2SF x with
  | S754_finite s m e => SF2Prim (binary_round 24 128 s m e)
  | _ => x
  end.

(** ** Resizing (convertToLineArt, lineArt.ts 186-193) *)

Definition resize (width height maxDim : Z) : Z * Z :=
  if (maxDim <? width) || (maxDim <? height) then
    let scale := (Z2float maxDim / Z2float (Z.max width height))%float in
    (floorZ (Z2float width * scale), floorZ (Z2float height * scale))
  else (width, height).

(** ** Box blur ([boxBlur], lineArt.ts 61-79) *)

(** The inner two loops: [sum += src[...]] over the 3x3 window of channel
    [c].  [None] is NaN, which a read past the end ([undefined]) produces. *)
Definition blur_sum (src : list Z) (width y x c : nat) : option Z :=
  for_up 0 3 (λ dy,
    for_up 0 3 (λ dx sum,
      match sum, src !! (px_index width (y + dy - 1) (x + dx - 1) + c)%nat with
      | Some s, Some v => Some (s + v)
      | _, _ => None
      end)) (Some 0).

(** [dst[...] = sum / 9], stored in a [Uint8ClampedArray]. *)
Definition blur_store (sum : option Z) : Z :=
  match sum with
  | Some s => toUint8Clamp (Z2float s / Z2float 9)
  | None => 0
  end.

Definition boxBlur (data : list Z) (width height : nat) : list Z :=
  let src := data in
  for_up 1 (height - 1) (λ y,
    for_up 1 (width - 1) (λ x,
      for_up 0 3 (λ c dst,
        <[(px_index width y x + c)%nat := blur_store (blur_sum src width y x c)]>
          dst))) data.

(** [for (let i = 0; i < blurPasses; i++) imageData = boxBlur(imageData, ...)]. *)
Definition blur_passes (blurPasses : nat) (imageData : list Z)
    (width height : nat) : list Z :=
  for_up 0 blurPasses (λ _ img, boxBlur img width height) imageData.

(** ** Sobel edge detection ([sobelEdge], lineArt.ts 84-112) *)

Definition sobelX : list Z := [-1; 0; 1; -2; 0; 2; -1; 0; 1].
Definition sobelY : list Z := [-1; -2; -1; 0; 0; 0; 1; 2; 1].

(** The inner two loops.  The state is [(gx, gy, k)]; the gradients are
    integers, exact in binary64, and the pair is [None] once a read past the
    end has made them NaN. *)
Definition sobel_window (data : list Z) (width y x : nat)
    : option (Z * Z) * nat :=
  for_up 0 3 (λ dy,
    for_up 0 3 (λ dx st,
      let '(g, k) := st in
      let pixel := data !! px_index width (y + dy - 1) (x + dx - 1) in
      (match g, pixel with
       | Some (gx, gy), Some p =>
           Some (gx + p * (sobelX !!! k), gy + p * (sobelY !!! k))
       | _, _ => None
       end, S k))) (Some (0, 0), 0%nat).

(** [Math.sqrt(gx * gx + gy * gy)], stored in a [Float32Array]. *)
Definition sobel_magnitude (g : option (Z * Z)) : float :=
  match g with
  | Some (gx, gy) => fround (PrimFloat.sqrt (Z2float (gx * gx + gy * gy)))
  | None => nan
  end.

Definition sobelEdge (data : list Z) (width height : nat) : list float :=
  let magnitude := replicate (width * height) 0%float in
  for_up 1 (height - 1) (λ y,
    for_up 1 (width - 1) (λ x magnitude,
      <[(y * width + x)%nat := sobel_magnitude (sobel_window data width y x).1]>
        magnitude)) magnitude.

(** ** Thresholding ([thresholdEdges], lineArt.ts 117-144) *)

(** The first loop: the largest magnitude, starting from 0. *)
Definition max_magnitude (magnitude : list float) : float :=
  for_up 0 (length magnitude) (λ i maxMag,
    match magnitude !! i with
    | Some m => if (maxMag <? m)%float then m else maxMag
    | None => maxMag
    end) 0%float.

(** [(threshold / 255) * maxMag]. *)
Definition normalized_threshold (threshold : Z) (maxMag : float) : float :=
  (Z2float threshold / Z2float 255 * maxMag)%float.

Definition is_edge (cutoff m : float) : bool := (cutoff <? m)%float.

(** [new ImageData(width, height)] is a zero-filled buffer and throws when a
    dimension is 0 ([None]).  The second loop writes the four channels of
    pixel [i]. *)
Definition thresholdEdges (magnitude : list float) (width height : nat)
    (threshold : Z) : option (list Z) :=
  if decide (width = 0 ∨ height = 0)%nat then None
  else
    let data := replicate (width * height * 4) 0 in
    let normalizedThreshold :=
      normalized_threshold threshold (max_magnitude magnitude) in
    Some (for_up 0 (length magnitude) (λ i data,
      match magnitude !! i with
      | Some m =>
          let color := if is_edge normalizedThreshold m then 0 else 255 in
          <[(i * 4 + 3)%nat := 255]>
            (<[(i * 4 + 2)%nat := color]>
               (<[(i * 4 + 1)%nat := color]> (<[(i * 4)%nat := color]> data)))
      | None => data
      end) data).

(** Number of black pixels of a buffer. *)
Definition count_black (data : list Z) : nat :=
  length (filter (λ p, p = black) (pixels data)).

(** ** Specification-side definitions *)

Definition sum_list_Z (l : list Z) : Z := foldr Z.add 0 l.

(** [v] is the mean of [l] rounded to the nearest integer. *)
Definition is_rounded_mean (v : Z) (l : list Z) : Prop :=
  2 * Z.abs (Z.of_nat (length l) * v - sum_list_Z l) ≤ Z.of_nat (length l).

(** The red channel at [(y, x)], and the convolution of the red channel with
    a 3x3 kernel given row by row. *)
Definition red (data : list Z) (width y x : nat) : Z :=
  data !!! px_index width y x.

Definition kernelX : list (list Z) := [[-1; 0; 1]; [-2; 0; 2]; [-1; 0; 1]].
Definition kernelY : list (list Z) := [[-1; -2; -1]; [0; 0; 0]; [1; 2; 1]].

Definition convolve (kernel : list (list Z)) (data : list Z)
    (width y x : nat) : Z :=
  sum_list_Z (i ← seq 0 3; j ← seq 0 3;
              [((kernel !!! i) !!! j) * red data width (y + i - 1) (x + j - 1)]).

(** A pixel of the outermost ring of a [width] x [height] image. *)
Definition on_border (width height y x : nat) : Prop :=
  (y = 0 ∨ y + 1 = height ∨ x = 0 ∨ x + 1 = width)%nat.

Definition sum_step (sum : option Z) (o : option Z) : option Z :=
  match sum, o with
  | Some s, Some v => Some (s + v)
  | _, _ => None
  end.

(** One iteration of the Sobel loop: cell [(y, x)] of the map gets [f y x]. *)
Definition write_mag (width : nat) (f : nat → nat → float)
    (magnitude : list float) (k : nat * nat) : list float :=
  <[(k.1 * width + k.2)%nat := f k.1 k.2]> magnitude.

(** A 3x3 opaque image used as a running example: grey levels rising from
    left to right, the bottom-right pixel black. *)
Definition example_image : list Z :=
  [ 10; 10; 10; 255;   20; 20; 20; 255;   30; 30; 30; 255;
    10; 10; 10; 255;   20; 20; 20; 255;   30; 30; 30; 255;
    10; 10; 10; 255;   20; 20; 20; 255;    0;  0;  0; 255 ].

(** ** Remote conversion ([convertWithAPI], lineArtAPI.ts 47-76) *)

Inductive error :=
  | ReadError                    (* the FileReader failed *)
  | NetworkError                 (* [fetch] rejected: unreachable, aborted *)
  | ApiDetail (detail : string)  (* the error body's [detail] *)
  | ApiStatus (status : nat)     (* [`API error: ${response.status}`] *)
  | ParseError                   (* [response.json()] rejected *)
  | PipelineError.               (* the local pipeline threw *)

Inductive result (A : Type) :=
  | Ok (a : A)
  | Err (e : error).
Arguments Ok {A} a.
Arguments Err {A} e.

(** The parsed body of a response, for a body that is a JSON object whose
    [detail] and [image] are strings; an absent field is the empty string.
    Other bodies ([null], on which the field access throws, or fields that
    are not strings) are not modelled. *)
Record json := { json_detail : string; json_image : string }.

Record response := {
  resp_ok : bool;
  resp_status : nat;
  resp_json : option json  (* [None]: the body is not JSON *)
}.

Definition convertWithAPI (base64Image : result string)
    (fetched : result response) : result string :=
  match base64Image with
  | Err e => Err e
  | Ok _ =>
      match fetched with
      | Err e => Err e
      | Ok resp =>
          if negb (resp_ok resp) then
            (* [response.json().catch(() => ({ detail: 'Unknown error' }))] *)
            let detail :=
              match resp_json resp with
              | Some j => json_detail j
              | None => "Unknown error"%string
              end in
            (* [error.detail || `API error: ${response.status}`] *)
            if String.eqb detail "" then Err (ApiStatus (resp_status resp))
            else Err (ApiDetail detail)
          else
            match resp_json resp with
            | Some j => Ok (json_image j)
            | None => Err ParseError
            end
      end
  end.

(** ** The editor's conversion handler ([handleConvert], editor 250-285) *)

Inductive quality := Quick | HQ.

Record editor := {
  lineArtSrc : option string;   (* the line art on display *)
  drawing : list Z;             (* the colouring layer *)
  isConverting : bool;
  alerts : list string          (* the [alert]s shown, oldest first *)
}.

Definition setLineArtSrc (dataUrl : string) (st : editor) : editor :=
  {| lineArtSrc := Some dataUrl; drawing := drawing st;
     isConverting := isConverting st; alerts := alerts st |}.

Definition handleClear (st : editor) : editor :=
  {| lineArtSrc := lineArtSrc st; drawing := [];
     isConverting := isConverting st; alerts := alerts st |}.

Definition setIsConverting (b : bool) (st : editor) : editor :=
  {| lineArtSrc := lineArtSrc st; drawing := drawing st;
     isConverting := b; alerts := alerts st |}.

Definition alert (msg : string) (st : editor) : editor :=
  {| lineArtSrc := lineArtSrc st; drawing := drawing st;
     isConverting := isConverting st; alerts := alerts st ++ [msg] |}.

Definition notice_fallback : string :=
  "HQ server unavailable, used quick conversion instead.".
Definition notice_failure : string :=
  "Failed to convert image. Please try again.".

(** [remote] is the outcome of [convertWithAPI(selectedFile, options)] and
    [local n] the outcome of the [n]-th call of
    [fileToLineArt(selectedFile, options)] made by the handler.
    [apiAvailable] is [boolean | null]. *)
Definition handleConvert (selectedFile : option string) (qualityMode : quality)
    (apiAvailable : option bool) (remote : result string)
    (local : nat → result string) (st : editor) : editor :=
  match selectedFile with
  | None => st
  | Some _ =>
      let st := setIsConverting true st in
      let remote_selected :=
        match qualityMode, apiAvailable with
        | HQ, Some true => true
        | _, _ => false
        end in
      let attempt := if remote_selected then remote else local 0%nat in
      let st :=
        match attempt with
        | Ok dataUrl => handleClear (setLineArtSrc dataUrl st)
        | Err _ =>
            match qualityMode with
            | HQ =>
                match local (if remote_selected then 0 else 1)%nat with
                | Ok dataUrl =>
                    alert notice_fallback
                      (handleClear (setLineArtSrc dataUrl st))
                | Err _ => alert notice_failure st
                end
            | Quick => alert notice_failure st
            end
        end in
      setIsConverting false st
  end.

(** ** Binary64 arithmetic: values and rounding *)

(** [2^e] for an integer exponent. *)
Definition bpow (e : Z) : R := powerRZ 2 e.

(** The real value of a finite number, 0 otherwise. *)
Definition SF2R (f : spec_float) : R :=
  match f with
  | S754_finite s m e =>
      ((if s then - IZR (Z.pos m) else IZR (Z.pos m)) * bpow e)%R
  | _ => 0%R
  end.

Definition F2R (x : float) : R := SF2R (Prim2SF x).

(** Zero or a positive finite number. *)
Definition SFnn (f : spec_float) : bool :=
  match f with
  | S754_zero _ => true
  | S754_finite s _ _ => negb s
  | _ => false
  end.

Definition nonneg_finiteb (x : float) : bool := SFnn (Prim2SF x).

Definition nonneg_finite (x : float) : Prop := nonneg_finiteb x = true.

(** The exponent of the binary64 numbers of magnitude [k]. *)
Definition fexp64 (k : Z) : Z := fexp prec emax k.

(** [z] is the integer nearest to [y], the even one on a tie. *)
Definition is_rne (y : R) (z : Z) : Prop :=
  (Rabs (IZR z - y) <= / 2)%R ∧
  (Rabs (IZR z - y) = (/ 2)%R → Z.even z = true).

(** [v] is the non-negative real [x] rounded to nearest even in binary64,
    overflow apart. *)
Definition rounds_to (x v : R) : Prop :=
  (x = 0%R ∧ v = 0%R) ∨
  ∃ k z, (bpow (k - 1) <= x < bpow k)%R ∧
         is_rne (x / bpow (fexp64 k)) z ∧
         v = (IZR z * bpow (fexp64 k))%R.

(** A non-negative real that binary64 represents, overflow apart. *)
Definition representable (v : R) : Prop :=
  ∃ m e, v = (IZR m * bpow e)%R ∧ 0 ≤ m < 2 ^ 53 ∧ -1074 ≤ e.

(** The real [y] lies at the place the shift record [(m, r, s)] says. *)
Definition inbetween (m : Z) (r s : bool) (y : R) : Prop :=
  match r, s with
  | false, false => y = IZR m
  | false, true => (IZR m < y < IZR m + / 2)%R
  | true, false => y = (IZR m + / 2)%R
  | true, true => (IZR m + / 2 < y < IZR m + 1)%R
  end.

Definition inb (mrs : shr_record) (y : R) : Prop :=
  inbetween (shr_m mrs) (shr_r mrs) (shr_s mrs) y.

(** The last step of [binary_round_aux]: the rounded mantissa is renormalized
    and checked against overflow. *)
Definition finish (z E : Z) : spec_float :=
  let '(mrs, e) := shr_fexp prec emax z E loc_Exact in
  match shr_m mrs with
  | Z0 => S754_zero false
  | Z.pos m => if e <=? emax - prec then S754_finite false m e
               else S754_infinity false
  | Z.neg _ => S754_nan
  end.

(** ** Auxiliary definitions for the binarizer *)

(** One step of the maximum scan. *)
Definition max_step (maxMag m : float) : float :=
  if (maxMag <? m)%float then m else maxMag.

(** [threshold / 255]. *)
Definition threshold_ratio (threshold : Z) : float :=
  (Z2float threshold / Z2float 255)%float.

(** The four channels the second loop writes for one magnitude. *)
Definition render (cutoff m : float) : list Z :=
  let color := if is_edge cutoff m then 0 else 255 in
  [color; color; color; 255].

Definition render_pixel (cutoff m : float) : Z * Z * Z * Z :=
  if is_edge cutoff m then black else white.

(** [m] is a largest magnitude of the map: an entry that no entry exceeds. *)
Definition is_global_max (magnitude : list float) (m : float) : Prop :=
  m ∈ magnitude ∧ ∀ m', m' ∈ magnitude → (m <? m')%float = false.

(** A small map used as a running example: a 2x2 map whose largest
    magnitude, 5, occurs twice. *)
Definition example_map : list float := [0; 5; 3; 5]%float.

(** ** Loops that step by four *)

(** [for (let i = 0; i < hi; i += 4) s = body i s]: the counter takes the
    values 0, 4, 8, ... below [hi]. *)
Definition for_step4 {S : Type} (hi : nat) (body : nat → S → S) (s : S) : S :=
  foldl (λ acc p, body (4 * p)%nat acc) s (seq 0 ((hi + 3) / 4)%nat).

(** ** Grey levels ([grayscale], lineArt.ts 47-56) *)

(** [0.299 * data[i] + 0.587 * data[i + 1] + 0.114 * data[i + 2]] as the
    [Uint8ClampedArray] stores it.  The three literals are the binary64
    numbers nearest to 0.299, 0.587 and 0.114.  A read past the end gives
    [undefined], the sum is then NaN and is stored as 0. *)
Definition gray_value (r g b : option Z) : Z :=
  match r, g, b with
  | Some r, Some g, Some b =>
      toUint8Clamp (0x1.322d0e5604189p-2 * Z2float r
                    + 0x1.2c8b439581062p-1 * Z2float g
                    + 0x1.d2f1a9fbe76c9p-4 * Z2float b)%float
  | _, _, _ => 0
  end.

Definition grayscale (data : list Z) : list Z :=
  for_step4 (length data) (λ i data,
    let gray :=
      gray_value (data !! i) (data !! (i + 1)%nat) (data !! (i + 2)%nat) in
    <[(i + 2)%nat := gray]> (<[(i + 1)%nat := gray]> (<[i := gray]> data)))
    data.

(** What [grayscale] makes of one pixel. *)
Definition gray_pixel (px : Z * Z * Z * Z) : Z * Z * Z * Z :=
  match px with
  | (r, g, b, a) =>
      let gray := gray_value (Some r) (Some g) (Some b) in
      (gray, gray, gray, a)
  end.

(** ** The conversion pipeline ([convertToLineArt], lineArt.ts 179-230) *)

Record LineArtOptions := {
  threshold : Z;      (* 0-255: edge sensitivity *)
  blurPasses : nat;   (* 0-3: noise reduction *)
  thickness : nat;    (* 0-2: line dilation passes *)
  maxDim : Z          (* 600-2000: max dimension *)
}.

Definition defaultOptions : LineArtOptions :=
  {| threshold := 50; blurPasses := 1; thickness := 1; maxDim := 1200 |}.

(** [ctx.getImageData(0, 0, width, height)] throws when a dimension is 0. *)
Definition getImageData (canvas : list Z) (width height : nat)
    : option (list Z) :=
  if decide (width = 0 ∨ height = 0)%nat then None else Some canvas.

(** The pixel stages (lines 207-224): grey levels, blur passes, Sobel
    magnitudes, binarization, dilation passes. *)
Definition line_art_pixels (imageData : list Z) (width height : nat)
    (options : LineArtOptions) : option (list Z) :=
  let imageData := grayscale imageData in
  let imageData := blur_passes (blurPasses options) imageData width height in
  let magnitude := sobelEdge imageData width height in
  output ← thresholdEdges magnitude width height (threshold options);
  Some (dilate_passes (thickness options) output width height).

(** [drawImage width height] is the content of the [width] x [height] canvas
    after [ctx.drawImage(img, 0, 0, width, height)].  The result is the size
    of the canvas and the pixels put back on it, which [toDataURL] encodes;
    [None] stands for an exception. *)
Definition convertToLineArt (naturalWidth naturalHeight : Z)
    (drawImage : nat → nat → list Z) (options : LineArtOptions)
    : option (nat * nat * list Z) :=
  let '(width, height) := resize naturalWidth naturalHeight (maxDim options) in
  let width := Z.to_nat width in
  let height := Z.to_nat height in
  imageData ← getImageData (drawImage width height) width height;
  output ← line_art_pixels imageData width height options;
  Some (width, height, output).

(** A buffer whose pixels all have the colour [(r, g, b)]. *)
Definition has_colour (r g b : Z) (px : Z * Z * Z * Z) : Prop :=
  px.1.1.1 = r ∧ px.1.1.2 = g ∧ px.1.2 = b.

Definition uniform (r g b : Z) (data : list Z) : Prop :=
  Forall (has_colour r g b) (pixels data).

(** The colour channel [c] of the colour [(r, g, b)]. *)
Definition chan_of (r g b : Z) (c : nat) : Z :=
  match c with 0%nat => r | 1%nat => g | _ => b end.

(** The channels of a pixel and of a list of pixels, in buffer order. *)
Definition channels (px : Z * Z * Z * Z) : list Z :=
  match px with (r, g, b, a) => [r; g; b; a] end.

Definition unpixels (ps : list (Z * Z * Z * Z)) : list Z := ps ≫= channels.

(** Signs a magnitude the maximum scan can reach may have: a zero, a positive
    number or positive infinity. *)
Definition SFnot_below (f : spec_float) : bool :=
  match f with
  | S754_zero _ => true
  | S754_finite s _ _ => negb s
  | S754_infinity s => negb s
  | S754_nan => false
  end.

(** ** The health check ([checkAPIHealth], lineArtAPI.ts 32-42) *)

(** [fetched] is the outcome of the [fetch] of the health endpoint; a
    rejected fetch (unreachable server, timeout) is caught. *)
Definition checkAPIHealth (fetched : result response) : bool :=
  match fetched with
  | Ok resp => resp_ok resp
  | Err _ => false
  end.

(** ** PDF export (exportPdf) *)

(** [makeWhiteTransparent], exportPdf 93-118: the loop over the image data of
    the converted line art.  A comparison with [undefined] is false. *)
Definition makeWhiteTransparent (data : list Z) : list Z :=
  for_step4 (length data) (λ i data,
    match data !! i, data !! (i + 1)%nat, data !! (i + 2)%nat with
    | Some r, Some g, Some b =>
        if (240 <? r) && (240 <? g) && (240 <? b)
        then <[(i + 3)%nat := 0]> data
        else data
    | _, _, _ => data
    end) data.

(** What [makeWhiteTransparent] makes of one pixel. *)
Definition transparent_pixel (px : Z * Z * Z * Z) : Z * Z * Z * Z :=
  match px with
  | (r, g, b, a) =>
      if (240 <? r) && (240 <? g) && (240 <? b) then (r, g, b, 0)
      else (r, g, b, a)
  end.

(** [Math.min] of two numbers: NaN when one of them is NaN, and -0 is below
    +0. *)
Definition Math_min (a b : float) : float :=
  if is_nan a || is_nan b then nan
  else if (a <? b)%float then a
  else if (b <? a)%float then b
  else if get_sign a then a else b.

(** The page size [exportToPdf] chooses for an image of [width] x [height]
    pixels (exportPdf 215-226): the image size in points, scaled down to fit
    a letter page. *)
Definition pageSize (width height : Z) : float * float :=
  let maxPageWidth := 612%float in
  let maxPageHeight := 792%float in
  let pageWidth := Z2float width in
  let pageHeight := Z2float height in
  if (maxPageWidth <? pageWidth)%float || (maxPageHeight <? pageHeight)%float
  then
    let scale :=
      Math_min (maxPageWidth / pageWidth)%float
               (maxPageHeight / pageHeight)%float in
    ((pageWidth * scale)%float, (pageHeight * scale)%float)
  else (pageWidth, pageHeight).

(** ** Running examples *)

(** A 3x3 line art: a black pixel in a white frame. *)
Definition example_line_art : list Z :=
  unpixels [white; white; white; white; black; white; white; white; white].

(** A 3x3 opaque image of the colour (10, 20, 30). *)
Definition example_flat : list Z := unpixels (replicate 9 (10, 20, 30, 255)).

(** A canvas filled with one grey level, whatever its size. *)
Definition example_canvas (width height : nat) : list Z :=
  replicate (4 * (width * height)) 7.

(** An editor with nothing on display. *)
Definition example_editor : editor :=
  {| lineArtSrc := None; drawing := []; isConverting := false; alerts := [] |}.

(** Local conversions that fail once and then succeed. *)
Definition example_local (n : nat) : result string :=
  match n with
  | 0%nat => Err PipelineError
  | _ => Ok "data:image/png;base64,quick"%string
  end.

(** ** Checking a property of the Sobel magnitudes by enumeration *)

(** [f 0 && f 1 && ... && f (n - 1)], by binary iteration. *)
Definition forall_below (f : Z → bool) (n : N) : bool :=
  (N.iter n (λ st : Z * bool, (st.1 + 1, st.2 && f st.1)) (0, true)).2.

(** What is checked of the magnitude stored for a squared gradient norm [n]:
    it is finite and not negative, and it is positive unless [n] is 0. *)
Definition magnitude_ok (n : Z) : bool :=
  let m := fround (PrimFloat.sqrt (Z2float n)) in
  nonneg_finiteb m && ((n =? 0) || (0 <? m)%float).

(** ** Drawing with the pointer (editor 132-224) *)

(** Canvas coordinates, as [getCanvasCoords] returns them. *)
Record point := { x_coord : float; y_coord : float }.

(** The brush settings the handlers read. *)
Record brush := { color : string; brushSize : float; isEraser : bool }.

(** What a handler paints: the disc of [handlePointerDown] and the segment of
    [drawLine], each with its style and whether it erases
    ([globalCompositeOperation] is ['destination-out']). *)
Inductive mark :=
  | Dot (centre : point) (radius : float) (style : string) (erase : bool)
  | Segment (from to : point) (lineWidth : float) (style : string)
            (erase : bool).

(** The state the handlers share: the [isDrawing] flag, [lastPosRef] and the
    marks painted on the canvas so far, oldest first.  A handler sees the
    flag as the previous handler set it. *)
Record pen := {
  isDrawing : bool;
  lastPos : option point;
  marks : list mark
}.

(** [e.pressure > 0 ? e.pressure : 1]. *)
Definition effective_pressure (pressure : float) : float :=
  if (0 <? pressure)%float then pressure else 1%float.

(** [isEraser ? 'rgba(0,0,0,1)' : color]. *)
Definition paint_style (b : brush) : string :=
  if isEraser b then "rgba(0,0,0,1)"%string else color b.

Definition handlePointerDown (b : brush) (coords : point) (pressure : float)
    (st : pen) : pen :=
  let pressure := effective_pressure pressure in
  {| isDrawing := true;
     lastPos := Some coords;
     marks := marks st ++ [Dot coords (brushSize b * pressure / 2)%float
                               (paint_style b) (isEraser b)] |}.

Definition handlePointerMove (b : brush) (coords : point) (pressure : float)
    (st : pen) : pen :=
  if negb (isDrawing st) then st
  else
    match lastPos st with
    | None => st
    | Some last =>
        let pressure := effective_pressure pressure in
        {| isDrawing := isDrawing st;
           lastPos := Some coords;
           marks := marks st ++ [Segment last coords
                                   (brushSize b * pressure)%float
                                   (paint_style b) (isEraser b)] |}
    end.

Definition handlePointerUp (st : pen) : pen :=
  {| isDrawing := false; lastPos := None; marks := marks st |}.

Definition handlePointerLeave (st : pen) : pen :=
  if isDrawing st
  then {| isDrawing := false; lastPos := None; marks := marks st |}
  else st.

Inductive pointer_event :=
  | PointerDown (coords : point) (pressure : float)
  | PointerMove (coords : point) (pressure : float)
  | PointerUp
  | PointerLeave.

(** The handler React calls for an event, with the brush of that moment. *)
Definition handle_pointer (st : pen) (be : brush * pointer_event) : pen :=
  match be.2 with
  | PointerDown coords pressure => handlePointerDown be.1 coords pressure st
  | PointerMove coords pressure => handlePointerMove be.1 coords pressure st
  | PointerUp => handlePointerUp st
  | PointerLeave => handlePointerLeave st
  end.

Definition pen_start : pen :=
  {| isDrawing := false; lastPos := None; marks := [] |}.

(** Where a mark ends, and the marks that continue the one before them: a
    segment starts where the mark before it ended. *)
Definition mark_end (m : mark) : point :=
  match m with
  | Dot centre _ _ _ => centre
  | Segment _ to _ _ _ => to
  end.

Fixpoint connected_from (prev : option point) (ms : list mark) : Prop :=
  match ms with
  | [] => True
  | Dot centre _ _ _ :: ms => connected_from (Some centre) ms
  | Segment from to _ _ _ :: ms =>
      prev = Some from ∧ connected_from (Some to) ms
  end.

Definition is_down (be : brush * pointer_event) : bool :=
  match be.2 with PointerDown _ _ => true | _ => false end.

(** The end of the last mark of [ms], [prev] when there is none. *)
Definition stroke_end (prev : option point) (ms : list mark) : option point :=
  match list.last ms with
  | Some m => Some (mark_end m)
  | None => prev
  end.

(** Two buffers of the same length that agree on the colour channels (they
    may differ in alpha). *)
Definition same_colours (data data' : list Z) : Prop :=
  length data = length data' ∧
  ∀ p c, (c < 3)%nat → data !! (4 * p + c)%nat = data' !! (4 * p + c)%nat.
(** * Generic facts about loops and buffer writes *)

Lemma for_up_nil {S : Type} lo hi (body : nat → S → S) s :
  (hi ≤ lo)%nat → for_up lo hi body s = s.
Proof.
  intros Hle. unfold for_up. replace (hi - lo)%nat with 0%nat by lia. done.
Qed.

Lemma for_up_succ {S : Type} lo hi (body : nat → S → S) s :
  (lo ≤ hi)%nat →
  for_up lo (Datatypes.S hi) body s = body hi (for_up lo hi body s).
Proof.
  intros Hle. unfold for_up.
  replace (Datatypes.S hi - lo)%nat with (Datatypes.S (hi - lo)) by lia.
  rewrite seq_S, foldl_app. simpl. f_equal. lia.
Qed.

Lemma foldl_bind_nested {A B C : Type} (f : A → C → A) (g : B → list C)
    (l : list B) (a : A) :
  foldl f a (l ≫= g) = foldl (λ acc b, foldl f acc (g b)) a l.
Proof.
  revert a. induction l as [|b l IH]; intros a; simpl; [done|].
  by rewrite foldl_app, IH.
Qed.

Lemma length_write_rgb width val dst k :
  length (write_rgb width val dst k) = length dst.
Proof. unfold write_rgb. by rewrite !length_insert. Qed.

Lemma length_pixel_pass val width height data :
  length (pixel_pass val width height data) = length data.
Proof.
  unfold pixel_pass. generalize (interior width height). intros ks.
  revert data. induction ks as [|k ks IH]; intros data; simpl; [done|].
  by rewrite IH, length_write_rgb.
Qed.

Lemma elem_of_interior width height y x :
  (y, x) ∈ interior width height ↔
  (1 ≤ y ∧ y + 1 < height ∧ 1 ≤ x ∧ x + 1 < width)%nat.
Proof.
  unfold interior. rewrite list_elem_of_bind. split.
  - intros (y' & Hin & Hy). apply list_elem_of_bind in Hin.
    destruct Hin as (x' & Hin & Hx).
    apply list_elem_of_singleton in Hin. inversion Hin; subst.
    apply elem_of_seq in Hy, Hx. lia.
  - intros (? & ? & ? & ?). exists y. split.
    + apply list_elem_of_bind. exists x. split; [by apply list_elem_of_singleton|].
      apply elem_of_seq. lia.
    + apply elem_of_seq. lia.
Qed.

Lemma px_index_inj width y x c y' x' c' :
  (x < width)%nat → (x' < width)%nat → (c < 4)%nat → (c' < 4)%nat →
  (px_index width y x + c = px_index width y' x' + c')%nat →
  y = y' ∧ x = x' ∧ c = c'.
Proof.
  unfold px_index. intros Hx Hx' Hc Hc' Heq.
  assert (y * width + x = y' * width + x')%nat as Hp by lia.
  assert (c = c') by lia.
  assert (y = y') by nia.
  subst. split; [done|]. split; [lia|done].
Qed.

(** A cell no iteration writes keeps its value. *)
Lemma foldl_write_rgb_other width val ks data i :
  (∀ y x c, (y, x) ∈ ks → (c < 3)%nat → i ≠ (px_index width y x + c)%nat) →
  foldl (write_rgb width val) data ks !! i = data !! i.
Proof.
  revert data. induction ks as [|[y x] ks IH]; intros data Hno; simpl; [done|].
  rewrite IH.
  - unfold write_rgb. simpl.
    pose proof (Hno y x 0%nat ltac:(left) ltac:(lia)).
    pose proof (Hno y x 1%nat ltac:(left) ltac:(lia)).
    pose proof (Hno y x 2%nat ltac:(left) ltac:(lia)).
    rewrite !list_lookup_insert_ne by lia. done.
  - intros y' x' c Hin. apply Hno. by right.
Qed.

(** A colour cell of a visited pixel ends up with that pixel's value. *)
Lemma foldl_write_rgb_hit width val ks data y x c :
  (∀ y' x', (y', x') ∈ ks → (x' < width)%nat) →
  (x < width)%nat → (c < 3)%nat →
  (px_index width y x + c < length data)%nat →
  data !! (px_index width y x + c)%nat = Some (val y x c) ∨ (y, x) ∈ ks →
  foldl (write_rgb width val) data ks !! (px_index width y x + c)%nat
  = Some (val y x c).
Proof.
  intros Hks Hx Hc. revert data.
  induction ks as [|[y' x'] ks IH]; intros data Hlen Hor; simpl.
  - destruct Hor as [?|Hin]; [done|]. by apply elem_of_nil in Hin.
  - apply IH.
    + intros y'' x'' Hin. apply (Hks y''). by right.
    + by rewrite length_write_rgb.
    + assert ((y', x') = (y, x) ∨
              (y', x') ≠ (y, x) ∧
              (data !! (px_index width y x + c)%nat = Some (val y x c)
               ∨ (y, x) ∈ ks)) as [Heq|[Hne Hor']].
      { destruct (decide ((y', x') = (y, x))) as [?|Hne]; [by left|right].
        split; [done|]. destruct Hor as [?|Hin]; [by left|].
        apply elem_of_cons in Hin. destruct Hin as [?|?]; [congruence|by right]. }
      * inversion Heq; subst. left. unfold write_rgb. simpl.
        assert (c = 0 ∨ c = 1 ∨ c = 2)%nat as [-> | [-> | ->]] by lia.
        -- rewrite Nat.add_0_r in *. rewrite !list_lookup_insert_ne by lia.
           apply list_lookup_insert_eq. lia.
        -- rewrite list_lookup_insert_ne by lia.
           apply list_lookup_insert_eq. rewrite length_insert. lia.
        -- apply list_lookup_insert_eq. rewrite !length_insert. lia.
      * destruct Hor' as [Hold|Hin]; [left|by right].
        unfold write_rgb. simpl.
        assert (x' < width)%nat as Hx' by (apply (Hks y'); by left).
        assert (∀ c', (c' < 3)%nat →
                  (px_index width y' x' + c')%nat ≠ (px_index width y x + c)%nat)
          as Hd.
        { intros c' Hc' Heq.
          apply px_index_inj in Heq; [|lia..]. 
          destruct Heq as (-> & -> & _). done. }
        pose proof (Hd 0%nat ltac:(lia)). pose proof (Hd 1%nat ltac:(lia)).
        pose proof (Hd 2%nat ltac:(lia)).
        rewrite !list_lookup_insert_ne by lia. done.
Qed.

Lemma pixel_pass_interior val width height data y x c :
  (1 ≤ y ∧ y + 1 < height ∧ 1 ≤ x ∧ x + 1 < width)%nat → (c < 3)%nat →
  (px_index width y x + c < length data)%nat →
  pixel_pass val width height data !! (px_index width y x + c)%nat
  = Some (val y x c).
Proof.
  intros Hint Hc Hlen. unfold pixel_pass.
  apply foldl_write_rgb_hit; [|lia|done|done|].
  - intros y' x' Hin. apply elem_of_interior in Hin. lia.
  - right. by apply elem_of_interior.
Qed.

Lemma pixel_pass_other val width height data i :
  (∀ y x c, (1 ≤ y ∧ y + 1 < height ∧ 1 ≤ x ∧ x + 1 < width)%nat →
            (c < 3)%nat → i ≠ (px_index width y x + c)%nat) →
  pixel_pass val width height data !! i = data !! i.
Proof.
  intros Hno. unfold pixel_pass. apply foldl_write_rgb_other.
  intros y x c Hin. apply Hno. by apply elem_of_interior.
Qed.

Lemma foldl_ext_eq {A B : Type} (f g : A → B → A) (l : list B) (a : A) :
  (∀ a b, f a b = g a b) → foldl f a l = foldl g a l.
Proof.
  intros Hfg. revert a. induction l as [|b l IH]; intros a; simpl; [done|].
  by rewrite Hfg, IH.
Qed.

(** The double loop of a neighbourhood pass is a [pixel_pass]. *)
Lemma for_up_pixel_pass val width height data :
  for_up 1 (height - 1) (λ y,
    for_up 1 (width - 1) (λ x dst, write_rgb width val dst (y, x))) data
  = pixel_pass val width height data.
Proof.
  unfold pixel_pass, interior, for_up. rewrite foldl_bind_nested.
  replace (height - 1 - 1)%nat with (height - 2)%nat by lia.
  replace (width - 1 - 1)%nat with (width - 2)%nat by lia.
  apply foldl_ext_eq. intros acc y. rewrite foldl_bind_nested.
  apply foldl_ext_eq. intros acc' x. done.
Qed.

Lemma dilate_pixel_pass data width height :
  dilate data width height
  = pixel_pass (λ y x _, dilate_min data width y x) width height data.
Proof. unfold dilate. by rewrite <- for_up_pixel_pass. Qed.


Lemma px_index_lt (data : list Z) width height y x c :
  length data = (4 * (width * height))%nat →
  (y < height)%nat → (x < width)%nat → (c < 4)%nat →
  (px_index width y x + c < length data)%nat.
Proof.
  intros Hlen Hy Hx Hc. rewrite Hlen. unfold px_index.
  assert (y * width + x < width * height)%nat; [|lia].
  assert (y * width ≤ (height - 1) * width)%nat
    by (apply Nat.mul_le_mono_r; lia).
  assert ((height - 1) * width + width = width * height)%nat by nia.
  lia.
Qed.

Lemma neighbourhood_in_range data width height y x c k :
  length data = (4 * (width * height))%nat →
  (1 ≤ y ∧ y + 1 < height ∧ 1 ≤ x ∧ x + 1 < width)%nat → (c < 4)%nat →
  k ∈ neighbourhood y x → is_Some (chan_at data width c k).
Proof.
  intros Hlen Hint Hc Hk. unfold chan_at. apply lookup_lt_is_Some_2.
  assert (k.1 ≤ y + 1 ∧ k.2 ≤ x + 1)%nat as [Hy Hx].
  { unfold neighbourhood in Hk.
    repeat (apply elem_of_cons in Hk; destruct Hk as [->|Hk]; [simpl; lia|]).
    by apply elem_of_nil in Hk. }
  unfold px_index. rewrite Hlen.
  assert (k.1 * width + k.2 < width * height)%nat; [|lia].
  assert (k.1 * width ≤ (height - 1) * width)%nat by (apply Nat.mul_le_mono_r; lia).
  assert ((height - 1) * width + width = width * height)%nat by nia.
  lia.
Qed.

Lemma length_omap_all_Some {A B : Type} (f : A → option B) (l : list A) :
  (∀ k, k ∈ l → is_Some (f k)) → length (omap f l) = length l.
Proof.
  induction l as [|a l IH]; intros Hall; simpl; [done|].
  destruct (Hall a ltac:(left)) as [b Hb]. rewrite Hb. simpl.
  f_equal. apply IH. intros k Hk. apply Hall. by right.
Qed.

Lemma length_neighbourhood_chan data width height y x c :
  length data = (4 * (width * height))%nat →
  (1 ≤ y ∧ y + 1 < height ∧ 1 ≤ x ∧ x + 1 < width)%nat → (c < 4)%nat →
  length (neighbourhood_chan data width c y x) = 9%nat.
Proof.
  intros Hlen Hint Hc. unfold neighbourhood_chan.
  rewrite length_omap_all_Some; [done|].
  intros k Hk. by eapply neighbourhood_in_range.
Qed.

(** A cell outside the colour channels of the interior is not written by a
    neighbourhood pass. *)
Lemma pixel_pass_untouched val width height data y x c :
  (x < width)%nat → (c < 4)%nat →
  (on_border width height y x ∨ c = 3%nat) →
  pixel_pass val width height data !! (px_index width y x + c)%nat
  = data !! (px_index width y x + c)%nat.
Proof.
  intros Hx Hc Hb. apply pixel_pass_other. intros y' x' c' Hint Hc' Heq.
  apply px_index_inj in Heq; [|lia..]. destruct Heq as (-> & -> & ->).
  unfold on_border in Hb. lia.
Qed.

Lemma neighbourhood_chan_bytes data width c y x :
  Forall is_byte data → Forall is_byte (neighbourhood_chan data width c y x).
Proof.
  intros Hb. apply Forall_forall. intros v Hv.
  apply list_elem_of_In, list_elem_of_omap in Hv. destruct Hv as (k & _ & Hk).
  unfold chan_at in Hk. by apply (Forall_lookup_1 _ _ _ _ Hb) in Hk.
Qed.


(** * Binary64 arithmetic *)

(** ** Powers of two *)

Lemma bpow_pos e : (0 < bpow e)%R.
Proof. apply powerRZ_lt. lra. Qed.

Lemma bpow_add a b : bpow (a + b) = (bpow a * bpow b)%R.
Proof. apply powerRZ_add. lra. Qed.

Lemma bpow_0 : bpow 0 = 1%R.
Proof. reflexivity. Qed.

Lemma bpow_1 : bpow 1 = 2%R.
Proof. unfold bpow. simpl. lra. Qed.

Lemma bpow_opp e : bpow (- e) = (/ bpow e)%R.
Proof. apply powerRZ_neg'. Qed.

Lemma bpow_sub a b : bpow (a - b) = (bpow a / bpow b)%R.
Proof.
  replace (a - b) with (a + - b) by lia. rewrite bpow_add, bpow_opp. reflexivity.
Qed.

Lemma bpow_IZR n : 0 ≤ n → bpow n = IZR (2 ^ n).
Proof.
  intros Hn. destruct n as [|p|p]; [reflexivity| |lia].
  unfold bpow. rewrite <- Zpower_pos_powerRZ. reflexivity.
Qed.

Lemma bpow_ge_1 n : 0 ≤ n → (1 <= bpow n)%R.
Proof.
  intros Hn. rewrite bpow_IZR by done. apply IZR_le.
  pose proof (Z.pow_pos_nonneg 2 n ltac:(lia) Hn). lia.
Qed.

Lemma bpow_gt_1 n : 0 < n → (1 < bpow n)%R.
Proof.
  intros Hn. rewrite bpow_IZR by lia. apply IZR_lt.
  apply Z.pow_gt_1; lia.
Qed.

Lemma bpow_lt a b : a < b → (bpow a < bpow b)%R.
Proof.
  intros Hab. replace b with (a + (b - a)) by lia. rewrite bpow_add.
  pose proof (bpow_pos a). pose proof (bpow_gt_1 (b - a) ltac:(lia)). nra.
Qed.

Lemma bpow_le a b : a ≤ b → (bpow a <= bpow b)%R.
Proof.
  intros Hab. destruct (decide (a = b)) as [->|Hne]; [lra|].
  apply Rlt_le, bpow_lt. lia.
Qed.

Lemma bpow_lt_inv a b : (bpow a < bpow b)%R → a < b.
Proof.
  intros Hlt. destruct (Z_lt_le_dec a b) as [?|Hle]; [done|].
  apply bpow_le in Hle. lra.
Qed.

Lemma bpow_succ a : bpow (a + 1) = (2 * bpow a)%R.
Proof. rewrite bpow_add, bpow_1. lra. Qed.

(** The magnitude of a positive real is unique and monotone. *)
Lemma mag_mono x1 x2 k1 k2 :
  (bpow (k1 - 1) <= x1 < bpow k1)%R → (bpow (k2 - 1) <= x2 < bpow k2)%R →
  (x1 <= x2)%R → k1 ≤ k2.
Proof.
  intros H1 H2 Hle.
  assert (bpow (k1 - 1) < bpow k2)%R as Hlt by lra.
  apply bpow_lt_inv in Hlt. lia.
Qed.

(** ** Rounding to the nearest integer *)

Lemma Rabs_le_iff x a : (Rabs x <= a)%R ↔ (- a <= x <= a)%R.
Proof. unfold Rabs. destruct (Rcase_abs x); split; intros; lra. Qed.

Lemma Rabs_eq_iff x a : Rabs x = a ↔ (x = a ∧ 0 <= x)%R ∨ (x = (- a)%R ∧ x < 0)%R.
Proof. unfold Rabs. destruct (Rcase_abs x); split; intros; lra. Qed.

Lemma is_rne_IZR n : is_rne (IZR n) n.
Proof.
  unfold is_rne. replace (IZR n - IZR n)%R with 0%R by lra.
  rewrite Rabs_R0. split; [lra|]. intros H. lra.
Qed.

Lemma is_rne_mono y1 y2 z1 z2 :
  (y1 <= y2)%R → is_rne y1 z1 → is_rne y2 z2 → z1 ≤ z2.
Proof.
  intros Hle [H1 E1] [H2 E2].
  destruct (Z_le_gt_dec z1 z2) as [?|Hgt]; [done|exfalso].
  assert (IZR z2 + 1 <= IZR z1)%R as Hz.
  { rewrite <- plus_IZR. apply IZR_le. lia. }
  apply Rabs_le_iff in H1. apply Rabs_le_iff in H2.
  assert (IZR z1 - y1 = / 2)%R as T1 by lra.
  assert (y2 - IZR z2 = / 2)%R as T2 by lra.
  assert (z1 = z2 + 1) as ->.
  { apply eq_IZR. rewrite plus_IZR. lra. }
  rewrite Z.even_add in E1.
  rewrite E2 in E1.
  - simpl in E1. assert (false = true); [|discriminate].
    apply E1. apply Rabs_eq_iff. left. lra.
  - apply Rabs_eq_iff. right. lra.
Qed.

Lemma is_rne_fun y z1 z2 : is_rne y z1 → is_rne y z2 → z1 = z2.
Proof.
  intros H1 H2.
  pose proof (is_rne_mono y y z1 z2 ltac:(lra) H1 H2).
  pose proof (is_rne_mono y y z2 z1 ltac:(lra) H2 H1). lia.
Qed.

Lemma is_rne_ge_int n y z : (IZR n <= y)%R → is_rne y z → n ≤ z.
Proof. intros Hle Hz. exact (is_rne_mono _ _ _ _ Hle (is_rne_IZR n) Hz). Qed.

Lemma is_rne_le_int n y z : (y <= IZR n)%R → is_rne y z → z ≤ n.
Proof. intros Hle Hz. exact (is_rne_mono _ _ _ _ Hle Hz (is_rne_IZR n)). Qed.

(** ** Number of binary digits *)

Lemma digits2_pos_bounds p :
  2 ^ (Z.pos (digits2_pos p) - 1) ≤ Z.pos p < 2 ^ Z.pos (digits2_pos p).
Proof.
  induction p as [p IH|p IH|]; simpl digits2_pos.
  - rewrite Pos2Z.inj_succ.
    replace (Z.succ (Z.pos (digits2_pos p)) - 1) with (Z.succ (Z.pos (digits2_pos p) - 1)) by lia.
    rewrite !Z.pow_succ_r by lia. lia.
  - rewrite Pos2Z.inj_succ.
    replace (Z.succ (Z.pos (digits2_pos p)) - 1) with (Z.succ (Z.pos (digits2_pos p) - 1)) by lia.
    rewrite !Z.pow_succ_r by lia. lia.
  - simpl. lia.
Qed.

Lemma Zdigits2_bounds m :
  0 < m → 2 ^ (Zdigits2 m - 1) ≤ m < 2 ^ Zdigits2 m.
Proof.
  destruct m as [|p|p]; intros Hm; try lia. apply digits2_pos_bounds.
Qed.

Lemma Zdigits2_pos m : 0 < m → 0 < Zdigits2 m.
Proof. destruct m; simpl; lia. Qed.

Lemma Zdigits2_unique m d :
  0 < d → 2 ^ (d - 1) ≤ m < 2 ^ d → Zdigits2 m = d.
Proof.
  intros Hd Hm.
  assert (0 < m) as Hpos.
  { pose proof (Z.pow_pos_nonneg 2 (d - 1) ltac:(lia) ltac:(lia)). lia. }
  pose proof (Zdigits2_bounds m Hpos) as Hb.
  pose proof (Zdigits2_pos m Hpos).
  destruct (Z.lt_trichotomy (Zdigits2 m) d) as [Hlt|[?|Hgt]]; [exfalso|done|exfalso].
  - assert (2 ^ Zdigits2 m ≤ 2 ^ (d - 1)) by (apply Z.pow_le_mono_r; lia). lia.
  - assert (2 ^ d ≤ 2 ^ (Zdigits2 m - 1)) by (apply Z.pow_le_mono_r; lia). lia.
Qed.

(** A positive integer as a real lies in the binade its digits give. *)
Lemma Zdigits2_bpow m :
  0 < m → (bpow (Zdigits2 m - 1) <= IZR m < bpow (Zdigits2 m))%R.
Proof.
  intros Hm. pose proof (Zdigits2_bounds m Hm) as [Hl Hu].
  pose proof (Zdigits2_pos m Hm).
  rewrite !bpow_IZR by lia. split; [by apply IZR_le|by apply IZR_lt].
Qed.

(** ** Shifting a mantissa to the right *)

Lemma IZR_xO p : IZR (Z.pos p~0) = (2 * IZR (Z.pos p))%R.
Proof. rewrite Pos2Z.inj_xO, mult_IZR. reflexivity. Qed.

Lemma IZR_xI p : IZR (Z.pos p~1) = (2 * IZR (Z.pos p) + 1)%R.
Proof. rewrite Pos2Z.inj_xI, plus_IZR, mult_IZR. reflexivity. Qed.

Lemma shr_1_inb mrs y :
  0 ≤ shr_m mrs → inb mrs y →
  inb (shr_1 mrs) (y / 2) ∧ 0 ≤ shr_m (shr_1 mrs).
Proof.
  destruct mrs as [m r s]. unfold inb.
  cbn [shr_m shr_r shr_s]. intros Hm Hy.
  destruct m as [|[p|p|]|p]; [| | | |lia];
    destruct r, s;
    cbn [shr_1 shr_m shr_r shr_s orb inbetween] in *;
    try rewrite (IZR_xO p) in Hy; try rewrite (IZR_xI p) in Hy;
    (split; [lra|lia]).
Qed.

Lemma iter_pos_shr_1_inb n mrs y :
  0 ≤ shr_m mrs → inb mrs y →
  inb (SpecFloat.iter_pos shr_1 n mrs) (y / bpow (Z.pos n)) ∧
  0 ≤ shr_m (SpecFloat.iter_pos shr_1 n mrs).
Proof.
  revert mrs y. induction n as [n IH|n IH|]; intros mrs y Hm Hy;
    cbn [SpecFloat.iter_pos].
  - destruct (shr_1_inb mrs y Hm Hy) as [H1 M1].
    destruct (IH _ _ M1 H1) as [H2 M2].
    destruct (IH _ _ M2 H2) as [H3 M3].
    split; [|done].
    replace (y / bpow (Z.pos n~1))%R with (y / 2 / bpow (Z.pos n) / bpow (Z.pos n))%R;
      [done|].
    rewrite Pos2Z.inj_xI.
    replace (2 * Z.pos n + 1) with (Z.pos n + Z.pos n + 1) by lia.
    rewrite !bpow_add, bpow_1. pose proof (bpow_pos (Z.pos n)). field. lra.
  - destruct (IH _ _ Hm Hy) as [H2 M2].
    destruct (IH _ _ M2 H2) as [H3 M3].
    split; [|done].
    replace (y / bpow (Z.pos n~0))%R with (y / bpow (Z.pos n) / bpow (Z.pos n))%R;
      [done|].
    rewrite Pos2Z.inj_xO.
    replace (2 * Z.pos n) with (Z.pos n + Z.pos n) by lia.
    rewrite !bpow_add. pose proof (bpow_pos (Z.pos n)). field. lra.
  - rewrite bpow_1. by apply shr_1_inb.
Qed.

Lemma shr_inb mrs e n y :
  0 ≤ n → 0 ≤ shr_m mrs → inb mrs y →
  (shr mrs e n).2 = e + n ∧
  inb (shr mrs e n).1 (y / bpow n) ∧ 0 ≤ shr_m (shr mrs e n).1.
Proof.
  intros Hn Hm Hy. destruct n as [|p|p]; cbn [shr fst snd];
    [|by (split; [|apply iter_pos_shr_1_inb])|lia].
  split; [lia|]. split; [|done]. rewrite bpow_0. by rewrite Rdiv_1_r.
Qed.

Lemma round_nearest_even_is_rne mrs y :
  inb mrs y →
  is_rne y (round_nearest_even (shr_m mrs) (loc_of_shr_record mrs)).
Proof.
  destruct mrs as [m r s]. unfold inb, is_rne. simpl.
  destruct r, s; simpl; intros Hy.
  - rewrite plus_IZR. split.
    + apply Rabs_le_iff. lra.
    + intros H. apply Rabs_eq_iff in H. lra.
  - destruct (Z.even m) eqn:E.
    + subst y. split; [apply Rabs_le_iff; lra|done].
    + subst y. rewrite plus_IZR. split; [apply Rabs_le_iff; lra|].
      intros _. rewrite Z.even_add, E. reflexivity.
  - split.
    + apply Rabs_le_iff. lra.
    + intros H. apply Rabs_eq_iff in H. lra.
  - subst y. split.
    + apply Rabs_le_iff. lra.
    + intros H. apply Rabs_eq_iff in H. lra.
Qed.

(** ** Rounding a mantissa to binary64 *)

Lemma fexp64_eq k : fexp64 k = Z.max (k - 53) (-1074).
Proof. reflexivity. Qed.

Lemma shr_m_of_loc m loc : shr_m (shr_record_of_loc m loc) = m.
Proof. destruct loc as [|[| |]]; reflexivity. Qed.

Lemma inb_bounds mrs y :
  inb mrs y → (IZR (shr_m mrs) <= y < IZR (shr_m mrs) + 1)%R.
Proof.
  destruct mrs as [m r s]. unfold inb. cbn [shr_m shr_r shr_s].
  destruct r, s; cbn [inbetween]; lra.
Qed.

Lemma shr_fexp_inb m e loc y :
  0 ≤ m → inb (shr_record_of_loc m loc) y →
  e ≤ fexp64 (Zdigits2 m + e) →
  (shr_fexp prec emax m e loc).2 = fexp64 (Zdigits2 m + e) ∧
  inb (shr_fexp prec emax m e loc).1 (y / bpow (fexp64 (Zdigits2 m + e) - e)) ∧
  0 ≤ shr_m (shr_fexp prec emax m e loc).1.
Proof.
  intros Hm Hy He. unfold shr_fexp. fold (fexp64 (Zdigits2 m + e)).
  destruct (shr_inb (shr_record_of_loc m loc) e
              (fexp64 (Zdigits2 m + e) - e) y) as (H1 & H2 & H3);
    [lia|by rewrite shr_m_of_loc|done|].
  split; [rewrite H1; lia|done].
Qed.

Lemma binary_round_aux_finish m e loc :
  binary_round_aux prec emax false m e loc
  = finish (round_nearest_even (shr_m (shr_fexp prec emax m e loc).1)
              (loc_of_shr_record (shr_fexp prec emax m e loc).1))
           (shr_fexp prec emax m e loc).2.
Proof.
  unfold binary_round_aux, finish.
  destruct (shr_fexp prec emax m e loc) as [mrs' e']. reflexivity.
Qed.

Lemma bpow_lt_1024 z E d :
  0 < z → 2 ^ (d - 1) ≤ z → 0 < d →
  (IZR z * bpow E < bpow 1024)%R → d - 1 + E < 1024.
Proof.
  intros Hz Hd Hd0 Hlt. apply bpow_lt_inv. rewrite bpow_add.
  rewrite (bpow_IZR (d - 1)) by lia.
  apply IZR_le in Hd. pose proof (bpow_pos E). nra.
Qed.

Lemma finish_spec z E :
  (z = 0 ∧ -1074 ≤ E) ∨ (E = -1074 ∧ 0 < z < 2 ^ 53) ∨
  (-1074 ≤ E ∧ 2 ^ 52 ≤ z ≤ 2 ^ 53) →
  (IZR z * bpow E < bpow 1024)%R →
  valid_binary (finish z E) = true ∧
  SF2R (finish z E) = (IZR z * bpow E)%R ∧
  (finish z E = S754_zero false ∨ ∃ m' e', finish z E = S754_finite false m' e').
Proof.
  intros Hcase Hov. unfold finish, shr_fexp.
  fold (fexp64 (Zdigits2 z + E)). rewrite fexp64_eq.
  destruct Hcase as [[-> HE] | [[-> Hz] | [HE Hz]]].
  - (* the mantissa is zero *)
    cbn [Zdigits2 shr_record_of_loc].
    replace (Z.max (0 + E - 53) (-1074) - E) with (Z.max (- 53) (- 1074 - E)) by lia.
    assert (shr {| shr_m := 0; shr_r := false; shr_s := false |} E
                (Z.max (-53) (-1074 - E))
            = ({| shr_m := 0; shr_r := false; shr_s := false |}, E)) as ->.
    { destruct (Z.max (-53) (-1074 - E)) as [|p|p] eqn:Hn; try reflexivity. lia. }
    cbn [shr_m]. split; [reflexivity|]. split; [|by left].
    simpl SF2R. lra.
  - (* a subnormal result *)
    pose proof (Zdigits2_bounds z ltac:(lia)) as Hd.
    pose proof (Zdigits2_pos z ltac:(lia)) as Hd0.
    assert (Zdigits2 z ≤ 53) as Hd53.
    { destruct (Z_le_gt_dec (Zdigits2 z) 53) as [?|Hgt]; [done|].
      assert (2 ^ 53 ≤ 2 ^ (Zdigits2 z - 1)) by (apply Z.pow_le_mono_r; lia). lia. }
    replace (Z.max (Zdigits2 z + -1074 - 53) (-1074) - -1074) with 0 by lia.
    cbn [shr shr_record_of_loc shr_m].
    destruct z as [|p|p]; try lia. cbn [shr_m].
    change (-1074 <=? emax - prec) with true. cbn iota.
    split; [|split; [reflexivity|right; eauto]].
    unfold valid_binary, bounded, canonical_mantissa.
    apply andb_true_iff. split; [|reflexivity].
    apply Z.eqb_eq. fold (fexp64 (Z.pos (digits2_pos p) + -1074)).
    rewrite fexp64_eq. cbn [Zdigits2] in Hd53. lia.
  - destruct (decide (z = 2 ^ 53)) as [->|Hne].
    + (* the rounding carried into the next binade *)
      change (Zdigits2 (2 ^ 53)) with 54.
      replace (Z.max (54 + E - 53) (-1074) - E) with 1 by lia.
      cbn [shr shr_record_of_loc SpecFloat.iter_pos].
      change (shr_1 {| shr_m := 2 ^ 53; shr_r := false; shr_s := false |})
        with {| shr_m := 2 ^ 52; shr_r := false; shr_s := false |}.
      cbn [shr_m].
      pose proof (bpow_lt_1024 (2 ^ 53) E 54 ltac:(lia) ltac:(lia) ltac:(lia) Hov).
      change (2 ^ 52) with (Z.pos (2 ^ 52)).
      assert ((E + 1 <=? emax - prec) = true) as ->.
      { apply Z.leb_le. change (emax - prec) with 971. lia. }
      split; [|split; [|right; eauto]].
      * unfold valid_binary, bounded, canonical_mantissa.
        apply andb_true_iff. split.
        -- apply Z.eqb_eq. fold (fexp64 (Z.pos (digits2_pos (2 ^ 52)) + (E + 1))).
           rewrite fexp64_eq. change (Z.pos (digits2_pos (2 ^ 52))) with 53. lia.
        -- apply Z.leb_le. change (emax - prec) with 971. lia.
      * cbn [SF2R]. rewrite bpow_succ.
        change (Z.pos (2 ^ 52)) with (2 ^ 52). change (2 ^ 53) with (2 * 2 ^ 52).
        rewrite mult_IZR. lra.
    + (* a normal result *)
      assert (Zdigits2 z = 53) as Hd by (apply Zdigits2_unique; lia).
      rewrite Hd. replace (Z.max (53 + E - 53) (-1074) - E) with 0 by lia.
      cbn [shr shr_record_of_loc shr_m].
      pose proof (bpow_lt_1024 z E 53 ltac:(lia) ltac:(lia) ltac:(lia) Hov).
      destruct z as [|p|p]; try lia. cbn [shr_m].
      assert ((E <=? emax - prec) = true) as HE'.
      { apply Z.leb_le. change (emax - prec) with 971. lia. }
      rewrite HE'.
      split; [|split; [reflexivity|right; eauto]].
      unfold valid_binary, bounded, canonical_mantissa.
      apply andb_true_iff. split; [|done].
      apply Z.eqb_eq. fold (fexp64 (Z.pos (digits2_pos p) + E)).
      rewrite fexp64_eq. cbn [Zdigits2] in Hd. lia.
Qed.

(** [binary_round_aux] rounds the real its arguments stand for to nearest
    even, at the exponent of that real's binade, overflow apart. *)
Lemma binary_round_aux_correct m e loc x :
  0 < m → inb (shr_record_of_loc m loc) (x / bpow e) →
  e ≤ fexp64 (Zdigits2 m + e) →
  ∃ z, (bpow (Zdigits2 m + e - 1) <= x < bpow (Zdigits2 m + e))%R ∧
       is_rne (x / bpow (fexp64 (Zdigits2 m + e))) z ∧
       ((IZR z * bpow (fexp64 (Zdigits2 m + e)) < bpow 1024)%R →
        let f := binary_round_aux prec emax false m e loc in
        valid_binary f = true ∧
        SF2R f = (IZR z * bpow (fexp64 (Zdigits2 m + e)))%R ∧
        (f = S754_zero false ∨ ∃ m' e', f = S754_finite false m' e')).
Proof.
  intros Hm Hy He.
  set (k := Zdigits2 m + e) in *. set (E := fexp64 k) in *.
  pose proof (bpow_pos e) as Hpe. pose proof (bpow_pos E) as HpE.
  (* the binade of [x] *)
  assert (bpow (k - 1) <= x < bpow k)%R as Hx.
  { pose proof (inb_bounds _ _ Hy) as Hb. rewrite shr_m_of_loc in Hb.
    pose proof (Zdigits2_bounds m Hm) as [Hl Hu].
    pose proof (Zdigits2_pos m Hm).
    assert (bpow (Zdigits2 m - 1) <= x / bpow e)%R as H1.
    { rewrite (bpow_IZR (Zdigits2 m - 1)) by lia. apply IZR_le in Hl. lra. }
    assert (x / bpow e < bpow (Zdigits2 m))%R as H2.
    { rewrite (bpow_IZR (Zdigits2 m)) by lia.
      assert (IZR m + 1 <= IZR (2 ^ Zdigits2 m))%R; [|lra].
      rewrite <- plus_IZR. apply IZR_le. lia. }
    unfold k. replace (Zdigits2 m + e - 1) with (Zdigits2 m - 1 + e) by lia.
    rewrite !bpow_add.
    replace x with (x / bpow e * bpow e)%R by (field; lra).
    split; [apply Rmult_le_compat_r; lra|apply Rmult_lt_compat_r; lra]. }
  destruct (shr_fexp_inb m e loc (x / bpow e) ltac:(lia) Hy He)
    as (He' & Hinb & Hm').
  fold k in He', Hinb. fold E in He', Hinb.
  replace (x / bpow e / bpow (E - e))%R with (x / bpow E)%R in Hinb.
  2:{ rewrite bpow_sub. field. lra. }
  pose proof (round_nearest_even_is_rne _ _ Hinb) as Hz.
  set (z := round_nearest_even (shr_m (shr_fexp prec emax m e loc).1)
              (loc_of_shr_record (shr_fexp prec emax m e loc).1)) in *.
  exists z. split; [done|]. split; [done|]. intros Hov.
  cbn zeta. rewrite binary_round_aux_finish, He'. fold z.
  apply finish_spec; [|done].
  assert (-1074 ≤ E) as HE by (unfold E; rewrite fexp64_eq; lia).
  assert (0 <= x / bpow E)%R as Hy0.
  { apply Rmult_le_pos; [pose proof (bpow_pos (k - 1)); lra|].
    apply Rlt_le, Rinv_0_lt_compat. lra. }
  assert (0 ≤ z) as Hz0 by (apply (is_rne_ge_int 0 _ _ Hy0 Hz)).
  destruct (decide (z = 0)) as [?|Hnz]; [by left|right].
  (* the scaled real lies in [2^(k-1-E), 2^(k-E)) *)
  assert (x / bpow E < bpow (k - E))%R as Hyu.
  { rewrite bpow_sub. apply Rmult_lt_compat_r; [apply Rinv_0_lt_compat|]; lra. }
  assert (bpow (k - 1 - E) <= x / bpow E)%R as Hyl.
  { rewrite bpow_sub. apply Rmult_le_compat_r; [apply Rlt_le, Rinv_0_lt_compat|]; lra. }
  assert (E ≤ k) as HEk.
  { destruct (Z_le_gt_dec E k) as [?|Hgt]; [done|exfalso].
    assert (bpow (k - E) <= bpow (-1))%R by (apply bpow_le; lia).
    assert (bpow (-1) = / 2)%R as Hh by (unfold bpow; simpl; lra).
    assert (z ≤ 0); [|lia].
    apply (is_rne_le_int 0 (x / bpow E)); [|done].
    destruct Hz as [Hz _]. apply Rabs_le_iff in Hz.
    assert (IZR z < 1)%R as Hz1 by lra.
    apply lt_IZR in Hz1. assert (z = 0) by lia. subst z. lia. }
  assert (z ≤ 2 ^ (k - E)) as Hzu.
  { apply (is_rne_le_int _ (x / bpow E)); [|done].
    rewrite <- bpow_IZR by lia. lra. }
  destruct (decide (k - 53 < -1074)) as [Hsub|Hnorm].
  - left. unfold E in *. rewrite fexp64_eq in *.
    split; [lia|]. split; [lia|].
    assert (2 ^ (k - Z.max (k - 53) (-1074)) < 2 ^ 53); [|lia].
    apply Z.pow_lt_mono_r; lia.
  - right. split; [done|].
    assert (E = k - 53) as HEq by (unfold E; rewrite fexp64_eq; lia).
    split.
    + apply (is_rne_ge_int _ (x / bpow E)); [|done].
      rewrite <- bpow_IZR by lia.
      replace (k - 1 - E) with 52 in Hyl by lia. done.
    + replace (k - E) with 53 in Hzu by lia. done.
Qed.

(** ** Rounding a real to binary64 *)

Lemma fexp64_mono k1 k2 : k1 ≤ k2 → fexp64 k1 ≤ fexp64 k2.
Proof. rewrite !fexp64_eq. lia. Qed.

Lemma Rdiv_bpow_le x1 x2 E : (x1 <= x2)%R → (x1 / bpow E <= x2 / bpow E)%R.
Proof.
  intros H. pose proof (bpow_pos E).
  apply Rmult_le_compat_r; [apply Rlt_le, Rinv_0_lt_compat|]; lra.
Qed.

Lemma Rdiv_bpow_lt x1 x2 E : (x1 < x2)%R → (x1 / bpow E < x2 / bpow E)%R.
Proof.
  intros H. pose proof (bpow_pos E).
  apply Rmult_lt_compat_r; [apply Rinv_0_lt_compat|]; lra.
Qed.

(** The rounded value stays in the closed binade of the real. *)
Lemma round_upper x k z :
  (bpow (k - 1) <= x < bpow k)%R → is_rne (x / bpow (fexp64 k)) z →
  (IZR z * bpow (fexp64 k) <= bpow k)%R.
Proof.
  intros [Hl Hu] Hz. set (E := fexp64 k) in *. pose proof (bpow_pos E).
  pose proof (Rdiv_bpow_lt _ _ E Hu) as Hy. rewrite <- bpow_sub in Hy.
  destruct (Z_le_gt_dec E k) as [Hle|Hgt].
  - assert (z ≤ 2 ^ (k - E)) as Hzu.
    { apply (is_rne_le_int _ (x / bpow E)); [|done].
      rewrite <- bpow_IZR by lia. lra. }
    apply IZR_le in Hzu. rewrite <- bpow_IZR in Hzu by lia.
    assert (bpow k = bpow (k - E) * bpow E)%R as ->
      by (rewrite <- bpow_add; f_equal; lia).
    nra.
  - assert (bpow (k - E) <= bpow (-1))%R by (apply bpow_le; lia).
    assert (bpow (-1) = / 2)%R as Hh by (unfold bpow; simpl; lra).
    assert (z ≤ 0) as Hz0.
    { destruct Hz as [Hz _]. apply Rabs_le_iff in Hz.
      assert (IZR z < 1)%R as Hz1 by lra. apply lt_IZR in Hz1. lia. }
    apply IZR_le in Hz0. pose proof (bpow_pos k). nra.
Qed.

Lemma round_lower x k z :
  (bpow (k - 1) <= x < bpow k)%R → is_rne (x / bpow (fexp64 k)) z →
  -1074 ≤ k - 53 →
  (bpow (k - 1) <= IZR z * bpow (fexp64 k))%R.
Proof.
  intros [Hl Hu] Hz Hk.
  assert (fexp64 k = k - 53) as HE by (rewrite fexp64_eq; lia).
  rewrite HE in *. pose proof (bpow_pos (k - 53)).
  pose proof (Rdiv_bpow_le _ _ (k - 53) Hl) as Hy. rewrite <- bpow_sub in Hy.
  replace (k - 1 - (k - 53)) with 52 in Hy by lia.
  assert (2 ^ 52 ≤ z) as Hzl.
  { apply (is_rne_ge_int _ (x / bpow (k - 53))); [|done].
    rewrite <- bpow_IZR by lia. done. }
  apply IZR_le in Hzl. rewrite <- bpow_IZR in Hzl by lia.
  assert (bpow (k - 1) = bpow 52 * bpow (k - 53))%R as ->
    by (rewrite <- bpow_add; f_equal; lia).
  nra.
Qed.

Lemma round_nonneg x E z : (0 <= x)%R → is_rne (x / bpow E) z → 0 ≤ z.
Proof.
  intros Hx Hz. apply (is_rne_ge_int 0 (x / bpow E)); [|done].
  pose proof (bpow_pos E).
  apply Rmult_le_pos; [done|]. apply Rlt_le, Rinv_0_lt_compat. done.
Qed.

Lemma rounds_to_nonneg x v : (0 <= x)%R → rounds_to x v → (0 <= v)%R.
Proof.
  intros Hx [[_ ->]|(k & z & _ & Hz & ->)]; [lra|].
  pose proof (round_nonneg _ _ _ Hx Hz) as Hz0. apply IZR_le in Hz0.
  pose proof (bpow_pos (fexp64 k)). nra.
Qed.

(** Rounding is monotone. *)
Lemma rounds_to_mono x1 x2 v1 v2 :
  (0 <= x1 <= x2)%R → rounds_to x1 v1 → rounds_to x2 v2 → (v1 <= v2)%R.
Proof.
  intros [H0 Hle] [[-> ->]|(k1 & z1 & Hk1 & Hz1 & ->)] R2.
  - by apply (rounds_to_nonneg x2).
  - destruct R2 as [[-> ->]|(k2 & z2 & Hk2 & Hz2 & ->)].
    + pose proof (bpow_pos (k1 - 1)). lra.
    + pose proof (mag_mono _ _ _ _ Hk1 Hk2 Hle) as Hk.
      pose proof (fexp64_mono _ _ Hk) as HE.
      destruct (decide (fexp64 k1 = fexp64 k2)) as [Heq|Hne].
      * rewrite Heq in *. pose proof (bpow_pos (fexp64 k2)).
        pose proof (is_rne_mono _ _ _ _ (Rdiv_bpow_le _ _ (fexp64 k2) Hle) Hz1 Hz2)
          as Hz.
        apply IZR_le in Hz. nra.
      * pose proof (round_upper _ _ _ Hk1 Hz1) as Hu.
        assert (-1074 ≤ k2 - 53 ∧ k1 < k2) as [Hn Hlt].
        { rewrite !fexp64_eq in *. lia. }
        pose proof (round_lower _ _ _ Hk2 Hz2 Hn) as Hl.
        assert (bpow k1 <= bpow (k2 - 1))%R by (apply bpow_le; lia). lra.
Qed.

Lemma rounds_to_fun x v1 v2 :
  (0 <= x)%R → rounds_to x v1 → rounds_to x v2 → v1 = v2.
Proof.
  intros Hx R1 R2.
  pose proof (rounds_to_mono x x v1 v2 ltac:(lra) R1 R2).
  pose proof (rounds_to_mono x x v2 v1 ltac:(lra) R2 R1). lra.
Qed.

(** A representable real rounds to itself. *)
Lemma rounds_to_self c : representable c → rounds_to c c.
Proof.
  intros (m & e & -> & [Hm0 Hm] & He).
  destruct (decide (m = 0)) as [->|Hnz]; [left; lra|right].
  assert (0 < m) as Hpos by lia.
  pose proof (Zdigits2_bounds m Hpos) as [Hl Hu].
  pose proof (Zdigits2_pos m Hpos) as Hd0.
  pose proof (Zdigits2_bpow m Hpos) as [Bl Bu].
  assert (Zdigits2 m ≤ 53) as Hd.
  { destruct (Z_le_gt_dec (Zdigits2 m) 53) as [?|Hgt]; [done|].
    assert (2 ^ 53 ≤ 2 ^ (Zdigits2 m - 1)) by (apply Z.pow_le_mono_r; lia). lia. }
  set (k := Zdigits2 m + e).
  assert (fexp64 k ≤ e) as HE by (unfold k; rewrite fexp64_eq; lia).
  pose proof (bpow_pos e). pose proof (bpow_pos (fexp64 k)).
  exists k, (m * 2 ^ (e - fexp64 k)). split; [|split].
  - unfold k. replace (Zdigits2 m + e - 1) with (Zdigits2 m - 1 + e) by lia.
    rewrite !bpow_add. split; [apply Rmult_le_compat_r; lra|apply Rmult_lt_compat_r; lra].
  - replace (IZR m * bpow e / bpow (fexp64 k))%R
      with (IZR (m * 2 ^ (e - fexp64 k))); [apply is_rne_IZR|].
    rewrite mult_IZR, <- bpow_IZR by lia. rewrite bpow_sub. field. lra.
  - rewrite mult_IZR, <- bpow_IZR by lia. rewrite bpow_sub. field. lra.
Qed.

Lemma rounds_to_representable c v :
  representable c → rounds_to c v → v = c.
Proof.
  intros Hc Hv. apply (rounds_to_fun c); [|done|by apply rounds_to_self].
  destruct Hc as (m & e & -> & [Hm0 _] & _).
  apply IZR_le in Hm0. pose proof (bpow_pos e). nra.
Qed.

Lemma representable_nonneg c : representable c → (0 <= c)%R.
Proof.
  intros (m & e & -> & [Hm0 _] & _).
  apply IZR_le in Hm0. pose proof (bpow_pos e). nra.
Qed.

(** Rounding does not cross a representable real. *)
Lemma rounds_to_le c x v :
  representable c → (0 <= x <= c)%R → rounds_to x v → (v <= c)%R.
Proof.
  intros Hc Hx Hv. apply (rounds_to_mono x c); [done|done|by apply rounds_to_self].
Qed.

Lemma rounds_to_ge c x v :
  representable c → (c <= x)%R → rounds_to x v → (c <= v)%R.
Proof.
  intros Hc Hx Hv. pose proof (representable_nonneg c Hc).
  apply (rounds_to_mono c x); [lra|by apply rounds_to_self|done].
Qed.

Lemma representable_Z n : 0 ≤ n < 2 ^ 53 → representable (IZR n).
Proof.
  intros Hn. exists n, 0. rewrite bpow_0. split; [lra|]. split; [done|lia].
Qed.

(** ** The operations of [SpecFloat] on non-negative numbers *)

Lemma bounded_facts m e :
  bounded prec emax m e = true →
  Z.pos (digits2_pos m) ≤ 53 ∧ -1074 ≤ e ≤ 971 ∧
  (e = -1074 ∨ Z.pos (digits2_pos m) = 53).
Proof.
  unfold bounded, canonical_mantissa. intros H.
  apply andb_true_iff in H. destruct H as [Hc Hb].
  apply Z.eqb_eq in Hc. apply Z.leb_le in Hb.
  fold (fexp64 (Z.pos (digits2_pos m) + e)) in Hc. rewrite fexp64_eq in Hc.
  change (emax - prec) with 971 in Hb. lia.
Qed.

Lemma SFnn_cases f :
  SFnn f = true →
  (∃ s, f = S754_zero s) ∨ (∃ m e, f = S754_finite false m e).
Proof.
  destruct f as [s|s| |[|] m e]; simpl; intros H; try discriminate; eauto.
Qed.

Lemma SF2R_nonneg f : SFnn f = true → (0 <= SF2R f)%R.
Proof.
  intros H. destruct (SFnn_cases f H) as [[s ->]|(m & e & ->)]; cbn [SF2R]; [lra|].
  pose proof (bpow_pos e). pose proof (IZR_lt 0 (Z.pos m) ltac:(lia)). nra.
Qed.

(** A valid non-negative number is representable. *)
Lemma SF2R_representable f :
  valid_binary f = true → SFnn f = true → representable (SF2R f).
Proof.
  intros Hv H. destruct (SFnn_cases f H) as [[s ->]|(m & e & ->)].
  - exists 0, 0. cbn [SF2R]. split; [lra|lia].
  - cbn [valid_binary] in Hv. apply bounded_facts in Hv. destruct Hv as (Hd & He & _).
    exists (Z.pos m), e. split; [reflexivity|]. split; [|lia].
    pose proof (digits2_pos_bounds m) as [_ Hu]. split; [lia|].
    assert (2 ^ Z.pos (digits2_pos m) ≤ 2 ^ 53) by (apply Z.pow_le_mono_r; lia).
    lia.
Qed.

Lemma SF2R_lt_1024 f :
  valid_binary f = true → SFnn f = true → (SF2R f < bpow 1024)%R.
Proof.
  intros Hv H. destruct (SFnn_cases f H) as [[s ->]|(m & e & ->)]; cbn [SF2R].
  - apply bpow_pos.
  - cbn [valid_binary] in Hv. apply bounded_facts in Hv. destruct Hv as (Hd & He & _).
    pose proof (digits2_pos_bounds m) as [_ Hu].
    assert (2 ^ Z.pos (digits2_pos m) ≤ 2 ^ 53) by (apply Z.pow_le_mono_r; lia).
    assert (IZR (Z.pos m) < bpow 53)%R.
    { rewrite bpow_IZR by lia. apply IZR_lt. lia. }
    assert (bpow 53 * bpow e <= bpow 1024)%R.
    { rewrite <- bpow_add. apply bpow_le. lia. }
    pose proof (bpow_pos e). nra.
Qed.

(** The product of two valid non-negative numbers is their real product
    rounded to nearest even. *)
Lemma SFmul_rounds x y :
  valid_binary x = true → valid_binary y = true →
  SFnn x = true → SFnn y = true →
  ∃ v, rounds_to (SF2R x * SF2R y) v ∧
       ((v < bpow 1024)%R →
        valid_binary (SFmul prec emax x y) = true ∧
        SFnn (SFmul prec emax x y) = true ∧
        SF2R (SFmul prec emax x y) = v).
Proof.
  intros Vx Vy Nx Ny.
  destruct (SFnn_cases x Nx) as [[sx ->]|(mx & ex & ->)];
    destruct (SFnn_cases y Ny) as [[sy ->]|(my & ey & ->)].
  1-3: (exists 0%R; split; [left; cbn [SF2R]; lra|]; intros _;
        cbn [SFmul valid_binary SFnn SF2R]; done).
  cbn [valid_binary] in Vx, Vy.
  apply bounded_facts in Vx. apply bounded_facts in Vy.
  pose proof (digits2_pos_bounds mx) as [Lx Ux].
  pose proof (digits2_pos_bounds my) as [Ly Uy].
  set (dx := Z.pos (digits2_pos mx)) in *.
  set (dy := Z.pos (digits2_pos my)) in *.
  assert (0 < dx ∧ 0 < dy) as [Hdx Hdy] by (unfold dx, dy; lia).
  assert (dx + dy - 1 ≤ Zdigits2 (Z.pos (mx * my))) as Hd.
  { pose proof (Zdigits2_bounds (Z.pos (mx * my)) ltac:(lia)) as [_ Hu].
    destruct (Z_le_gt_dec (dx + dy - 1) (Zdigits2 (Z.pos (mx * my))))
      as [?|Hgt]; [done|exfalso].
    assert (2 ^ Zdigits2 (Z.pos (mx * my)) ≤ 2 ^ (dx - 1 + (dy - 1))) as Hp
      by (apply Z.pow_le_mono_r; lia).
    rewrite Z.pow_add_r in Hp by lia. rewrite Pos2Z.inj_mul in Hu, Hp.
    pose proof (Z.pow_nonneg 2 (dx - 1) ltac:(lia)).
    pose proof (Z.pow_nonneg 2 (dy - 1) ltac:(lia)).
    assert (2 ^ (dx - 1) * 2 ^ (dy - 1) ≤ Z.pos mx * Z.pos my)
      by (apply Z.mul_le_mono_nonneg; lia).
    lia. }
  destruct (binary_round_aux_correct (Z.pos (mx * my)) (ex + ey) loc_Exact
              (IZR (Z.pos mx) * bpow ex * (IZR (Z.pos my) * bpow ey)))
    as (z & Hk & Hz & Hres).
  - lia.
  - unfold inb. cbn [shr_record_of_loc shr_m shr_r shr_s inbetween].
    rewrite Pos2Z.inj_mul, mult_IZR, bpow_add.
    pose proof (bpow_pos ex). pose proof (bpow_pos ey). field. lra.
  - rewrite fexp64_eq. lia.
  - exists (IZR z * bpow (fexp64 (Zdigits2 (Z.pos (mx * my)) + (ex + ey))))%R.
    split.
    + right. eexists _, z. split; [exact Hk|]. split; [exact Hz|reflexivity].
    + intros Hov. destruct (Hres Hov) as (Hv & Hval & Hform).
      cbn [SFmul xorb]. split; [done|]. split; [|done].
      destruct Hform as [->|(m' & e' & ->)]; reflexivity.
Qed.

Lemma canonical_lt m1 e1 m2 e2 :
  bounded prec emax m1 e1 = true → bounded prec emax m2 e2 = true →
  e1 < e2 → (IZR (Z.pos m1) * bpow e1 < IZR (Z.pos m2) * bpow e2)%R.
Proof.
  intros B1 B2 Hlt. apply bounded_facts in B1, B2.
  pose proof (digits2_pos_bounds m1) as [_ U1].
  pose proof (digits2_pos_bounds m2) as [L2 _].
  assert (Z.pos (digits2_pos m2) = 53) as Hd2 by lia. rewrite Hd2 in L2.
  assert (2 ^ Z.pos (digits2_pos m1) ≤ 2 ^ 53) by (apply Z.pow_le_mono_r; lia).
  assert (IZR (Z.pos m1) < bpow 53)%R.
  { rewrite bpow_IZR by lia. apply IZR_lt. lia. }
  assert (bpow 52 <= IZR (Z.pos m2))%R.
  { rewrite bpow_IZR by lia. apply IZR_le. lia. }
  assert (bpow (e1 + 1) <= bpow e2)%R by (apply bpow_le; lia).
  rewrite bpow_succ in *. pose proof (bpow_pos e1).
  assert (bpow 53 = 2 * bpow 52)%R as E53
    by (rewrite <- bpow_succ; reflexivity).
  pose proof (bpow_pos 52). nra.
Qed.

(** On valid non-negative numbers [SFltb] is the order of the reals. *)
Lemma SFltb_correct x y :
  valid_binary x = true → valid_binary y = true →
  SFnn x = true → SFnn y = true →
  SFltb x y = true ↔ (SF2R x < SF2R y)%R.
Proof.
  intros Vx Vy Nx Ny.
  destruct (SFnn_cases x Nx) as [[sx ->]|(mx & ex & ->)];
    destruct (SFnn_cases y Ny) as [[sy ->]|(my & ey & ->)];
    unfold SFltb; cbn [SFcompare SF2R].
  - split; [discriminate|lra].
  - pose proof (bpow_pos ey). pose proof (IZR_lt 0 (Z.pos my) ltac:(lia)).
    split; [intros _; nra|done].
  - pose proof (bpow_pos ex). pose proof (IZR_lt 0 (Z.pos mx) ltac:(lia)).
    split; [discriminate|nra].
  - cbn [valid_binary] in Vx, Vy.
    destruct (Z.compare_spec ex ey) as [->|Hlt|Hgt].
    + rewrite Pos.compare_cont_spec. cbn [Pos.switch_Eq].
      pose proof (bpow_pos ey).
      destruct (Pos.compare_spec mx my) as [->|Hm|Hm].
      * split; [discriminate|lra].
      * split; [intros _|done].
        apply Rmult_lt_compat_r; [done|]. apply IZR_lt. lia.
      * split; [discriminate|]. intros Hc.
        assert (IZR (Z.pos my) < IZR (Z.pos mx))%R by (apply IZR_lt; lia). nra.
    + split; [intros _|done]. by apply canonical_lt.
    + split; [discriminate|]. intros Hc.
      pose proof (canonical_lt my ey mx ex Vy Vx ltac:(lia)). lra.
Qed.

(** ** Division *)

Lemma new_location_inb b q r :
  0 < b → 0 ≤ r < b →
  inb (shr_record_of_loc q (new_location b r)) (IZR q + IZR r / IZR b).
Proof.
  intros Hb Hr.
  assert (0 < IZR b)%R as Hb' by (apply (IZR_lt 0); lia).
  assert (IZR r / IZR b * IZR b = IZR r)%R as Ht by (field; lra).
  set (t := (IZR r / IZR b)%R) in *.
  assert (0 <= IZR r < IZR b)%R as Hr'
    by (split; [apply (IZR_le 0)|apply IZR_lt]; lia).
  assert (2 * r < b → (2 * t < 1)%R) as Hlt.
  { intros H. apply IZR_lt in H. rewrite mult_IZR in H. nra. }
  assert (b < 2 * r → (1 < 2 * t)%R) as Hgt.
  { intros H. apply IZR_lt in H. rewrite mult_IZR in H. nra. }
  assert (2 * r = b → (2 * t = 1)%R) as Heq.
  { intros H. apply (f_equal IZR) in H. rewrite mult_IZR in H. nra. }
  assert (r ≠ 0 → (0 < t)%R) as Hpos.
  { intros H. assert (0 < IZR r)%R by (apply (IZR_lt 0); lia). nra. }
  assert (t < 1)%R as Hlt1 by nra.
  unfold inb, new_location, new_location_even, new_location_odd.
  destruct (Z.even b) eqn:Ev; destruct (Z.eqb_spec r 0) as [->|Hnz].
  - cbn [shr_record_of_loc shr_m shr_r shr_s inbetween].
    unfold t in *. replace (IZR 0 / IZR b)%R with 0%R by (field; lra). lra.
  - specialize (Hpos Hnz).
    destruct (Z.compare_spec (2 * r) b) as [H|H|H];
      cbn [shr_record_of_loc shr_m shr_r shr_s inbetween].
    + specialize (Heq H). lra.
    + specialize (Hlt H). lra.
    + specialize (Hgt H). lra.
  - cbn [shr_record_of_loc shr_m shr_r shr_s inbetween].
    unfold t in *. replace (IZR 0 / IZR b)%R with 0%R by (field; lra). lra.
  - specialize (Hpos Hnz).
    assert (2 * r ≠ b) as Hodd.
    { intros <-. rewrite Z.even_mul in Ev. discriminate. }
    destruct (Z.compare_spec (2 * r + 1) b) as [H|H|H];
      cbn [shr_record_of_loc shr_m shr_r shr_s inbetween].
    + specialize (Hlt ltac:(lia)). lra.
    + specialize (Hlt ltac:(lia)). lra.
    + specialize (Hgt ltac:(lia)). lra.
Qed.

Lemma Zdigits2_ge m d : 0 ≤ d → 2 ^ d ≤ m → d + 1 ≤ Zdigits2 m.
Proof.
  intros Hd Hm.
  assert (0 < m) as Hpos by (pose proof (Z.pow_pos_nonneg 2 d ltac:(lia) Hd); lia).
  pose proof (Zdigits2_bounds m Hpos) as [_ Hu].
  pose proof (Zdigits2_pos m Hpos).
  destruct (Z_le_gt_dec (d + 1) (Zdigits2 m)) as [?|Hgt]; [done|exfalso].
  assert (2 ^ Zdigits2 m ≤ 2 ^ d) by (apply Z.pow_le_mono_r; lia). lia.
Qed.

(** The quotient of two normal numbers is their real quotient rounded to
    nearest even, as long as it stays in the normal range. *)
Lemma SFdiv_rounds mx ex my ey :
  Z.pos (digits2_pos mx) = 53 → Z.pos (digits2_pos my) = 53 →
  -1074 ≤ ex - ey - 53 →
  ∃ v, rounds_to (IZR (Z.pos mx) * bpow ex / (IZR (Z.pos my) * bpow ey)) v ∧
       ((v < bpow 1024)%R →
        let f := SFdiv prec emax (S754_finite false mx ex)
                   (S754_finite false my ey) in
        valid_binary f = true ∧ SFnn f = true ∧ SF2R f = v).
Proof.
  intros Hdx Hdy He.
  pose proof (digits2_pos_bounds mx) as [Lx Ux]. rewrite Hdx in Lx, Ux.
  pose proof (digits2_pos_bounds my) as [Ly Uy]. rewrite Hdy in Ly, Uy.
  set (m' := Z.pos mx * 2 ^ 53).
  assert (SFdiv_core_binary prec emax (Z.pos mx) ex (Z.pos my) ey
          = (m' / Z.pos my, ex - ey - 53,
             new_location (Z.pos my) (m' mod Z.pos my))) as Hcore.
  { unfold SFdiv_core_binary. cbn [Zdigits2]. rewrite Hdx, Hdy.
    fold (fexp64 (53 + ex - (53 + ey))). rewrite fexp64_eq.
    replace (Z.min (Z.max (53 + ex - (53 + ey) - 53) (-1074)) (ex - ey))
      with (ex - ey - 53) by lia.
    replace (ex - ey - (ex - ey - 53)) with 53 by lia.
    cbv zeta iota beta. rewrite Z.shiftl_mul_pow2 by lia. fold m'.
    unfold Z.div, Z.modulo.
    destruct (Z.div_eucl m' (Z.pos my)) as [q r]. reflexivity. }
  pose proof (Z_div_mod m' (Z.pos my) ltac:(lia)) as Hqr.
  unfold Z.div, Z.modulo in Hcore.
  destruct (Z.div_eucl m' (Z.pos my)) as [q r]. destruct Hqr as [Hq Hr].
  assert (2 ^ 52 ≤ q) as Hq52.
  { assert (2 ^ 105 ≤ m') by (unfold m'; change (2 ^ 105) with (2 ^ 52 * 2 ^ 53); lia).
    assert (2 ^ 105 = 2 ^ 53 * 2 ^ 52) by reflexivity. nia. }
  pose proof (Zdigits2_ge q 52 ltac:(lia) Hq52) as Hdq.
  pose proof (bpow_pos ex). pose proof (bpow_pos ey).
  assert (0 < IZR (Z.pos my))%R as Hmy by (apply (IZR_lt 0); lia).
  destruct (binary_round_aux_correct q (ex - ey - 53)
              (new_location (Z.pos my) r)
              (IZR (Z.pos mx) * bpow ex / (IZR (Z.pos my) * bpow ey)))
    as (z & Hk & Hz & Hres).
  - lia.
  - replace (IZR (Z.pos mx) * bpow ex / (IZR (Z.pos my) * bpow ey)
             / bpow (ex - ey - 53))%R
      with (IZR q + IZR r / IZR (Z.pos my))%R.
    + apply new_location_inb; lia.
    + assert (IZR m' = IZR (Z.pos my) * IZR q + IZR r)%R as Hm'
        by (rewrite Hq, plus_IZR, mult_IZR; reflexivity).
      unfold m' in Hm'. rewrite mult_IZR, <- bpow_IZR in Hm' by lia.
      replace (ex - ey - 53) with (ex + (- ey + - (53))) by lia.
      rewrite !bpow_add, !bpow_opp. pose proof (bpow_pos 53).
      field_simplify_eq; [|lra]. nra.
  - rewrite fexp64_eq. lia.
  - eexists. split.
    + right. eexists _, z. split; [exact Hk|]. split; [exact Hz|reflexivity].
    + intros Hov. destruct (Hres Hov) as (Hv & Hval & Hform).
      cbn [SFdiv xorb]. rewrite Hcore. cbv zeta. split; [done|]. split; [|done].
      destruct Hform as [->|(m'' & e'' & ->)]; reflexivity.
Qed.

(** ** Integers as binary64 numbers *)

Lemma Pos_iter_xO p n : Z.pos (Pos.iter xO p n) = Z.pos p * 2 ^ Z.pos n.
Proof.
  induction n as [|n IH] using Pos.peano_ind.
  - simpl. lia.
  - rewrite Pos.iter_succ, Pos2Z.inj_xO, IH, Pos2Z.inj_succ, Z.pow_succ_r by lia.
    lia.
Qed.

Lemma Zdigits2_shift m s :
  0 < m → 0 ≤ s → Zdigits2 (m * 2 ^ s) = Zdigits2 m + s.
Proof.
  intros Hm Hs. pose proof (Zdigits2_bounds m Hm) as [Hl Hu].
  pose proof (Zdigits2_pos m Hm).
  pose proof (Z.pow_pos_nonneg 2 s ltac:(lia) Hs).
  apply Zdigits2_unique; [lia|].
  replace (Zdigits2 m + s - 1) with (Zdigits2 m - 1 + s) by lia.
  rewrite !Z.pow_add_r by lia. split; [nia|].
  apply Z.mul_lt_mono_pos_r; lia.
Qed.

Lemma binary_round_rounds p e :
  ∃ v, rounds_to (IZR (Z.pos p) * bpow e) v ∧
       ((v < bpow 1024)%R →
        valid_binary (binary_round prec emax false p e) = true ∧
        SFnn (binary_round prec emax false p e) = true ∧
        SF2R (binary_round prec emax false p e) = v).
Proof.
  unfold binary_round.
  fold (fexp64 (Z.pos (digits2_pos p) + e)).
  set (E := fexp64 (Z.pos (digits2_pos p) + e)).
  assert (∃ mz ez, shl_align p e E = (mz, ez) ∧ ez ≤ e ∧
                   Z.pos mz = Z.pos p * 2 ^ (e - ez) ∧
                   ez ≤ fexp64 (Zdigits2 (Z.pos mz) + ez))
    as (mz & ez & -> & Hez & Hmz & Hfe).
  { unfold shl_align. destruct (E - e) as [|d|d] eqn:Hd.
    - exists p, e. split; [done|]. split; [lia|]. split.
      + replace (e - e) with 0 by lia. lia.
      + cbn [Zdigits2]. fold E. lia.
    - exists p, e. split; [done|]. split; [lia|]. split.
      + replace (e - e) with 0 by lia. lia.
      + cbn [Zdigits2]. fold E. lia.
    - exists (Pos.iter xO p d), E. split; [done|]. split; [lia|]. split.
      + rewrite Pos_iter_xO. f_equal. f_equal. lia.
      + rewrite Pos_iter_xO, Zdigits2_shift by lia. cbn [Zdigits2].
        replace (Z.pos (digits2_pos p) + Z.pos d + E)
          with (Z.pos (digits2_pos p) + e) by lia.
        fold E. lia. }
  destruct (binary_round_aux_correct (Z.pos mz) ez loc_Exact
              (IZR (Z.pos p) * bpow e)) as (z & Hk & Hz & Hres).
  - lia.
  - unfold inb. cbn [shr_record_of_loc shr_m shr_r shr_s inbetween].
    rewrite Hmz, mult_IZR, <- bpow_IZR by lia. rewrite bpow_sub.
    pose proof (bpow_pos e). pose proof (bpow_pos ez). field. lra.
  - done.
  - eexists. split.
    + right. eexists _, z. split; [exact Hk|]. split; [exact Hz|reflexivity].
    + intros Hov. destruct (Hres Hov) as (Hv & Hval & Hform).
      split; [done|]. split; [|done].
      destruct Hform as [->|(m'' & e'' & ->)]; reflexivity.
Qed.

Lemma bpow_53_lt_1024 : (bpow 53 < bpow 1024)%R.
Proof. apply bpow_lt. lia. Qed.

Lemma Z2float_spec n :
  0 ≤ n < 2 ^ 53 →
  nonneg_finite (Z2float n) ∧ F2R (Z2float n) = IZR n.
Proof.
  intros Hn. unfold nonneg_finite, nonneg_finiteb, F2R, Z2float.
  rewrite FloatAxioms.of_uint63_spec, Uint63.of_Z_spec.
  rewrite Z.mod_small by (change wB with (2 ^ 63); lia).
  destruct n as [|p|p]; [cbn [binary_normalize SFnn SF2R]; done| |lia].
  cbn [binary_normalize].
  destruct (binary_round_rounds p 0) as (v & Hv & Hres).
  rewrite bpow_0, Rmult_1_r in Hv.
  apply rounds_to_representable in Hv; [|by apply representable_Z].
  subst v. destruct Hres as (_ & Hnn & Hval).
  - pose proof bpow_53_lt_1024.
    assert (IZR (Z.pos p) < bpow 53)%R; [|lra].
    rewrite bpow_IZR by lia. apply IZR_lt. lia.
  - done.
Qed.

(** ** The primitive operations on non-negative numbers *)

Lemma nonneg_finite_valid x :
  nonneg_finite x → valid_binary (Prim2SF x) = true ∧ SFnn (Prim2SF x) = true.
Proof. intros H. split; [apply Prim2SF_valid|done]. Qed.

Lemma F2R_nonneg x : nonneg_finite x → (0 <= F2R x)%R.
Proof. intros H. by apply SF2R_nonneg. Qed.

Lemma F2R_representable x : nonneg_finite x → representable (F2R x).
Proof. intros H. apply SF2R_representable; [apply Prim2SF_valid|done]. Qed.

Lemma F2R_lt_1024 x : nonneg_finite x → (F2R x < bpow 1024)%R.
Proof. intros H. apply SF2R_lt_1024; [apply Prim2SF_valid|done]. Qed.

Lemma ltb_correct x y :
  nonneg_finite x → nonneg_finite y →
  (x <? y)%float = true ↔ (F2R x < F2R y)%R.
Proof.
  intros Hx Hy. rewrite FloatAxioms.ltb_spec.
  apply SFltb_correct; (apply Prim2SF_valid || done).
Qed.

Lemma mul_rounds x y :
  nonneg_finite x → nonneg_finite y →
  ∃ v, rounds_to (F2R x * F2R y) v ∧
       ((v < bpow 1024)%R → nonneg_finite (x * y) ∧ F2R (x * y) = v).
Proof.
  intros Hx Hy.
  destruct (SFmul_rounds (Prim2SF x) (Prim2SF y)
              (Prim2SF_valid x) (Prim2SF_valid y) Hx Hy) as (v & Hv & Hres).
  exists v. split; [done|]. intros Hov. destruct (Hres Hov) as (_ & Hnn & Hval).
  unfold nonneg_finite, nonneg_finiteb, F2R. rewrite FloatAxioms.mul_spec. done.
Qed.

(** A product that does not exceed a finite number does not overflow. *)
Lemma mul_rounds_le x y c :
  nonneg_finite x → nonneg_finite y → nonneg_finite c →
  (F2R x * F2R y <= F2R c)%R →
  nonneg_finite (x * y) ∧ rounds_to (F2R x * F2R y) (F2R (x * y)) ∧
  (F2R (x * y) <= F2R c)%R.
Proof.
  intros Hx Hy Hc Hle. destruct (mul_rounds x y Hx Hy) as (v & Hv & Hres).
  pose proof (F2R_nonneg x Hx). pose proof (F2R_nonneg y Hy).
  assert (v <= F2R c)%R as Hvc.
  { apply (rounds_to_le _ (F2R x * F2R y)); [by apply F2R_representable| |done].
    split; [nra|done]. }
  pose proof (F2R_lt_1024 c Hc).
  destruct (Hres ltac:(lra)) as [Hnn Hval]. rewrite Hval. done.
Qed.

Lemma normal_of_value m e :
  bounded prec emax m e = true →
  (1 <= IZR (Z.pos m) * bpow e < bpow 53)%R →
  Z.pos (digits2_pos m) = 53 ∧ -52 ≤ e ≤ 0.
Proof.
  intros Hb [Hl Hu]. apply bounded_facts in Hb. destruct Hb as (Hd & He & Hc).
  pose proof (digits2_pos_bounds m) as [Lm Um].
  assert (2 ^ Z.pos (digits2_pos m) ≤ 2 ^ 53) by (apply Z.pow_le_mono_r; lia).
  assert (IZR (Z.pos m) < bpow 53)%R as Hm53.
  { rewrite bpow_IZR by lia. apply IZR_lt. lia. }
  assert (-53 < e) as He1.
  { apply bpow_lt_inv.
    assert (bpow 53 * bpow (-53) = 1)%R as H1
      by (rewrite <- bpow_add; reflexivity).
    pose proof (bpow_pos e). pose proof (bpow_pos (-53)). nra. }
  assert (Z.pos (digits2_pos m) = 53) as Hd53 by lia.
  split; [done|]. split; [lia|].
  rewrite Hd53 in Lm.
  assert (bpow 52 <= IZR (Z.pos m))%R as Hm52.
  { rewrite bpow_IZR by lia. apply IZR_le. lia. }
  assert (e < 1); [|lia].
  apply bpow_lt_inv.
  assert (bpow 52 * bpow 1 = bpow 53)%R as H1
    by (rewrite <- bpow_add; reflexivity).
  pose proof (bpow_pos e). pose proof (bpow_pos 52). nra.
Qed.

Lemma div_rounds x y :
  nonneg_finite x → nonneg_finite y →
  (1 <= F2R x < bpow 53)%R → (1 <= F2R y < bpow 53)%R →
  nonneg_finite (x / y) ∧ rounds_to (F2R x / F2R y) (F2R (x / y)).
Proof.
  intros Hx Hy Bx By.
  unfold nonneg_finite, nonneg_finiteb, F2R in *. rewrite FloatAxioms.div_spec.
  pose proof (Prim2SF_valid x) as Vx. pose proof (Prim2SF_valid y) as Vy.
  destruct (SFnn_cases _ Hx) as [[sx Ex]|(mx & ex & Ex)]; rewrite Ex in *;
    [cbn [SF2R] in Bx; lra|].
  destruct (SFnn_cases _ Hy) as [[sy Ey]|(my & ey & Ey)]; rewrite Ey in *;
    [cbn [SF2R] in By; lra|].
  cbn [SF2R valid_binary] in *.
  destruct (normal_of_value mx ex Vx Bx) as [Hdx Hex].
  destruct (normal_of_value my ey Vy By) as [Hdy Hey].
  destruct (SFdiv_rounds mx ex my ey Hdx Hdy ltac:(lia)) as (v & Hv & Hres).
  assert (v <= bpow 53)%R as Hv53.
  { apply (rounds_to_le (bpow 53) _ _) in Hv; [done| |].
    - exists (2 ^ 52), 1. split; [|lia].
      rewrite <- bpow_IZR, <- bpow_add by lia. reflexivity.
    - split.
      + apply Rmult_le_pos; [lra|]. apply Rlt_le, Rinv_0_lt_compat. lra.
      + apply Rle_trans with (IZR (Z.pos mx) * bpow ex / 1)%R; [|lra].
        unfold Rdiv. apply Rmult_le_compat_l; [lra|].
        apply Rinv_le_contravar; lra. }
  pose proof bpow_53_lt_1024.
  destruct (Hres ltac:(lra)) as (_ & Hnn & Hval).
  unfold SF64div. rewrite Hval. done.
Qed.

(** ** [Math.floor] *)

Lemma floorZ_spec x :
  nonneg_finite x → (IZR (floorZ x) <= F2R x < IZR (floorZ x) + 1)%R.
Proof.
  unfold nonneg_finite, nonneg_finiteb, floorZ, F2R. intros Hx.
  destruct (SFnn_cases _ Hx) as [[s ->]|(m & e & ->)]; cbn [SF2R]; [lra|].
  destruct (Z.leb_spec 0 e) as [He|He].
  - rewrite mult_IZR, <- bpow_IZR by lia. lra.
  - assert (bpow e = / IZR (2 ^ (- e)))%R as ->.
    { rewrite <- bpow_IZR by lia. rewrite <- bpow_opp. f_equal. lia. }
    pose proof (Z.pow_pos_nonneg 2 (- e) ltac:(lia) ltac:(lia)) as Hd.
    pose proof (Z.div_mod (Z.pos m) (2 ^ (- e)) ltac:(lia)) as Hdm.
    pose proof (Z.mod_pos_bound (Z.pos m) (2 ^ (- e)) Hd) as Hr.
    set (d := 2 ^ (- e)) in *. set (q := Z.pos m / d) in *.
    set (r := Z.pos m mod d) in *.
    assert (0 < IZR d)%R as Hd' by (apply (IZR_lt 0); lia).
    assert (IZR (Z.pos m) = IZR d * IZR q + IZR r)%R as HR
      by (rewrite Hdm, plus_IZR, mult_IZR; reflexivity).
    assert (0 <= IZR r < IZR d)%R as Hr'
      by (split; [apply (IZR_le 0)|apply IZR_lt]; lia).
    rewrite HR. split.
    + apply Rmult_le_reg_r with (IZR d); [done|]. field_simplify; [|lra]. nra.
    + apply Rmult_lt_reg_r with (IZR d); [done|]. field_simplify; [|lra]. nra.
Qed.
(** * Dilation *)

Lemma dilate_min_foldl src width y x :
  dilate_min src width y x
  = foldl min_step 255 (chan_at src width 0 <$> neighbourhood y x).
Proof.
  unfold dilate_min, for_up, neighbourhood, chan_at. simpl.
  rewrite !Nat.add_0_r.
  replace (y + 1 - 1)%nat with y by lia.
  replace (x + 1 - 1)%nat with x by lia.
  replace (y + 2 - 1)%nat with (y + 1)%nat by lia.
  replace (x + 2 - 1)%nat with (x + 1)%nat by lia.
  replace (y + 0 - 1)%nat with (y - 1)%nat by lia.
  replace (x + 0 - 1)%nat with (x - 1)%nat by lia.
  reflexivity.
Qed.

Lemma foldl_min_step_le init os :
  foldl min_step init os ≤ init ∧
  (∀ v, Some v ∈ os → foldl min_step init os ≤ v) ∧
  (foldl min_step init os = init ∨ Some (foldl min_step init os) ∈ os).
Proof.
  revert init. induction os as [|o os IH]; intros init; simpl.
  - split; [lia|]. split; [|by left]. intros v Hin. by apply elem_of_nil in Hin.
  - destruct (IH (min_step init o)) as (Hle & Hall & Hor).
    assert (min_step init o ≤ init) as Hstep.
    { destruct o as [v|]; simpl; [|lia]. destruct (Z.ltb_spec v init); lia. }
    split; [lia|]. split.
    + intros v Hin. apply elem_of_cons in Hin. destruct Hin as [<-|Hin].
      * assert (min_step init (Some v) ≤ v); [|lia].
        unfold min_step. destruct (Z.ltb_spec v init); lia.
      * by apply Hall.
    + destruct Hor as [Heq|Hin]; [|right; by right].
      rewrite Heq. destruct o as [v|]; simpl; [|by left].
      destruct (Z.ltb_spec v init); [right; by left|by left].
Qed.

Lemma elem_of_omap_Some {A B : Type} (f : A → option B) (l : list A) (v : B) :
  v ∈ omap f l ↔ Some v ∈ f <$> l.
Proof.
  rewrite list_elem_of_omap, list_elem_of_fmap. split.
  - intros (a & Hin & Hf). exists a. by split.
  - intros (a & Hf & Hin). exists a. by split.
Qed.

(** Over bytes, the loop returns the least red value of a non-empty window. *)
Lemma dilate_min_is_min src width y x :
  Forall is_byte src → neighbourhood_reds src width y x ≠ [] →
  is_min_of (dilate_min src width y x) (neighbourhood_reds src width y x).
Proof.
  intros Hbytes Hne. rewrite dilate_min_foldl.
  unfold neighbourhood_reds, neighbourhood_chan in *.
  destruct (foldl_min_step_le 255 (chan_at src width 0 <$> neighbourhood y x))
    as (Hle & Hall & Hor).
  assert (∀ v, v ∈ omap (chan_at src width 0) (neighbourhood y x) → v ≤ 255)
    as Hb.
  { intros v Hin. apply list_elem_of_omap in Hin.
    destruct Hin as (k & _ & Hk). unfold chan_at in Hk.
    apply (Forall_lookup_1 _ _ _ _ Hbytes) in Hk. unfold is_byte in Hk. lia. }
  split.
  - destruct Hor as [Heq|Hin]; [|by apply elem_of_omap_Some].
    destruct (omap (chan_at src width 0) (neighbourhood y x)) as [|v l] eqn:E;
      [done|].
    assert (v ∈ v :: l) as Hv by left.
    pose proof (Hb v Hv). rewrite <- E in Hv.
    apply elem_of_omap_Some in Hv. apply Hall in Hv.
    replace (foldl min_step 255 (chan_at src width 0 <$> neighbourhood y x))
      with v by lia.
    left.
  - intros v Hin. apply Hall. by apply elem_of_omap_Some.
Qed.

(** *** Pixels of a buffer *)

Lemma pixels_short data : (length data < 4)%nat → pixels data = [].
Proof.
  destruct data as [|r [|g [|b [|a rest]]]]; simpl; intros; (done || lia).
Qed.

Lemma pixels_lookup data p r g b a :
  pixels data !! p = Some (r, g, b, a) ↔
  data !! (4 * p)%nat = Some r ∧ data !! (4 * p + 1)%nat = Some g ∧
  data !! (4 * p + 2)%nat = Some b ∧ data !! (4 * p + 3)%nat = Some a.
Proof.
  revert data. induction p as [|p IH]; intros data.
  - destruct (decide (length data < 4)%nat) as [Hs|Hl].
    + rewrite pixels_short by done. split; [done|].
      intros (_ & _ & _ & H). apply lookup_lt_Some in H. lia.
    + destruct data as [|r' [|g' [|b' [|a' rest]]]]; simpl in Hl; try lia.
      simpl. split.
      * intros [= -> -> -> ->]. done.
      * intros ([= ->] & [= ->] & [= ->] & [= ->]). done.
  - destruct (decide (length data < 4)%nat) as [Hs|Hl].
    + rewrite pixels_short by done. split; [done|].
      intros (_ & _ & _ & H). apply lookup_lt_Some in H. lia.
    + destruct data as [|r' [|g' [|b' [|a' rest]]]]; simpl in Hl; try lia.
      change (pixels (r' :: g' :: b' :: a' :: rest) !! S p) with (pixels rest !! p).
      rewrite IH.
      replace (4 * S p)%nat with (S (S (S (S (4 * p))))) by lia.
      replace (S (S (S (S (4 * p)))) + 1)%nat with (S (S (S (S (4 * p + 1))))) by lia.
      replace (S (S (S (S (4 * p)))) + 2)%nat with (S (S (S (S (4 * p + 2))))) by lia.
      replace (S (S (S (S (4 * p)))) + 3)%nat with (S (S (S (S (4 * p + 3))))) by lia.
      done.
Qed.

Lemma is_bw_pixel_spec px :
  is_bw_pixel px = true ↔ px = black ∨ px = white.
Proof.
  destruct px as [[[r g] b] a]. unfold is_bw_pixel, black, white. split.
  - intros H. apply orb_true_iff in H.
    destruct H as [H|H]; repeat (apply andb_true_iff in H; destruct H as [H ?]);
      [left|right]; repeat f_equal; lia.
  - intros [[= -> -> -> ->]|[= -> -> -> ->]]; done.
Qed.

(** In a whole number of pixels, a pixel whose red cell exists exists. *)
Lemma pixel_of_red data n q m :
  length data = (4 * n)%nat → data !! (4 * q)%nat = Some m →
  ∃ g b a, pixels data !! q = Some (m, g, b, a).
Proof.
  intros Hlen Hm. apply lookup_lt_Some in Hm as Hlt.
  destruct (lookup_lt_is_Some_2 data (4 * q + 1)%nat ltac:(lia)) as [g Hg].
  destruct (lookup_lt_is_Some_2 data (4 * q + 2)%nat ltac:(lia)) as [b Hb].
  destruct (lookup_lt_is_Some_2 data (4 * q + 3)%nat ltac:(lia)) as [a Ha].
  exists g, b, a. by apply pixels_lookup.
Qed.

Lemma is_bw_red data q m :
  is_bw data → data !! (4 * q)%nat = Some m → m = 0 ∨ m = 255.
Proof.
  intros [[n Hlen] Hall] Hm.
  destruct (pixel_of_red data n q m Hlen Hm) as (g & b & a & Hpx).
  apply (Forall_lookup_1 _ _ _ _ Hall) in Hpx.
  apply is_bw_pixel_spec in Hpx. destruct Hpx as [[= -> _ _ _]|[= -> _ _ _]]; auto.
Qed.

(** *** Dilation keeps a black-and-white buffer black and white *)

Lemma dilate_min_bw data width y x :
  is_bw data →
  dilate_min data width y x = 0 ∨ dilate_min data width y x = 255.
Proof.
  intros Hbw. rewrite dilate_min_foldl.
  destruct (foldl_min_step_le 255 (chan_at data width 0 <$> neighbourhood y x))
    as (_ & _ & [Heq|Hin]); [by right|].
  apply list_elem_of_fmap in Hin. destruct Hin as (k & Hk & _).
  unfold chan_at, px_index in Hk. symmetry in Hk.
  replace ((k.1 * width + k.2) * 4 + 0)%nat with (4 * (k.1 * width + k.2))%nat
    in Hk by lia.
  by apply (is_bw_red _ _ _ Hbw) in Hk.
Qed.

Lemma interior_pixel_number width height p :
  (0 < width)%nat → ((p / width)%nat, (p mod width)%nat) ∈ interior width height →
  px_index width (p / width)%nat (p mod width)%nat = (4 * p)%nat.
Proof.
  intros Hw _. unfold px_index.
  pose proof (Nat.div_mod_eq p width). lia.
Qed.

Lemma not_interior_cell width height p y x c c' i :
  ((p / width)%nat, (p mod width)%nat) ∉ interior width height →
  (1 ≤ y ∧ y + 1 < height ∧ 1 ≤ x ∧ x + 1 < width)%nat →
  (c < 3)%nat → (c' < 4)%nat → i = (4 * p + c')%nat →
  i ≠ (px_index width y x + c)%nat.
Proof.
  intros Hnot Hint Hc Hc' -> Heq. apply Hnot.
  unfold px_index in Heq. assert (p = y * width + x)%nat as -> by lia.
  replace ((y * width + x) / width)%nat with y.
  2:{ apply Nat.div_unique with x; lia. }
  replace ((y * width + x) mod width)%nat with x.
  2:{ apply Nat.mod_unique with y; lia. }
  by apply elem_of_interior.
Qed.

Lemma dilate_preserves_bw data width height :
  is_bw data → is_bw (dilate data width height).
Proof.
  intros Hbw. pose proof Hbw as [[n Hlen] Hall].
  rewrite dilate_pixel_pass. split.
  { exists n. by rewrite length_pixel_pass. }
  apply Forall_lookup_2. intros p [[[r g] b] a] Hpx.
  apply pixels_lookup in Hpx. destruct Hpx as (Hr & Hg & Hb & Ha).
  assert (4 * p + 3 < length data)%nat as Hlt.
  { apply lookup_lt_Some in Ha. by rewrite length_pixel_pass in Ha. }
  destruct (decide (((p / width)%nat, (p mod width)%nat) ∈ interior width height))
    as [Hin|Hnot].
  - assert (0 < width)%nat as Hw.
    { apply elem_of_interior in Hin. lia. }
    pose proof (interior_pixel_number _ _ _ Hw Hin) as Hidx.
    apply elem_of_interior in Hin.
    replace (4 * p)%nat with (px_index width (p / width)%nat (p mod width)%nat + 0)%nat
      in Hr by lia.
    replace (4 * p + 1)%nat with (px_index width (p / width)%nat (p mod width)%nat + 1)%nat
      in Hg by lia.
    replace (4 * p + 2)%nat with (px_index width (p / width)%nat (p mod width)%nat + 2)%nat
      in Hb by lia.
    rewrite pixel_pass_interior in Hr, Hg, Hb by (done || lia).
    rewrite pixel_pass_other in Ha.
    2:{ intros y x c Hint Hc Heq.
        assert (4 * p + 3 = px_index width y x + c)%nat as Heq' by lia.
        unfold px_index in Heq'. lia. }
    destruct (lookup_lt_is_Some_2 data (4 * p)%nat ltac:(lia)) as [r0 Hr0].
    destruct (pixel_of_red data n p r0 Hlen Hr0) as (g0 & b0 & a0 & Hold).
    pose proof Hold as Hold'.
    apply pixels_lookup in Hold'. destruct Hold' as (_ & _ & _ & Ha0).
    rewrite Ha0 in Ha. injection Ha as ->.
    apply (Forall_lookup_1 _ _ _ _ Hall) in Hold.
    apply is_bw_pixel_spec in Hold.
    assert (a = 255) as -> by (destruct Hold as [[= _ _ _ ->]|[= _ _ _ ->]]; done).
    injection Hr as <-. injection Hg as <-. injection Hb as <-.
    apply is_bw_pixel_spec.
    destruct (dilate_min_bw data width (p / width)%nat (p mod width)%nat Hbw)
      as [->| ->]; [by left|by right].
  - rewrite pixel_pass_other in Hr, Hg, Hb, Ha.
    + apply (Forall_lookup_1 _ _ p _ Hall). by apply pixels_lookup.
    + intros y x c Hint Hc.
      apply (not_interior_cell width height p y x c 3); (done || lia).
    + intros y x c Hint Hc.
      apply (not_interior_cell width height p y x c 2); (done || lia).
    + intros y x c Hint Hc.
      apply (not_interior_cell width height p y x c 1); (done || lia).
    + intros y x c Hint Hc.
      apply (not_interior_cell width height p y x c 0); (done || lia).
Qed.

Lemma dilate_passes_0 output width height :
  dilate_passes 0 output width height = output.
Proof. reflexivity. Qed.

Lemma dilate_passes_S n output width height :
  dilate_passes (S n) output width height
  = dilate (dilate_passes n output width height) width height.
Proof. unfold dilate_passes. rewrite for_up_succ by lia. done. Qed.

Lemma dilate_passes_preserves_bw n data width height :
  is_bw data → is_bw (dilate_passes n data width height).
Proof.
  intros Hbw. induction n as [|n IH]; [done|].
  rewrite dilate_passes_S. by apply dilate_preserves_bw.
Qed.

(** C7. One pass of [dilate] over a well-formed byte buffer: the three colour
    channels of an interior pixel become the minimum red value of its 3x3
    neighbourhood in the buffer as it was before the pass, so a black
    neighbour (the pixel itself included) makes the pixel black; border
    pixels and alpha values are left as they were; [thickness] passes run one
    after the other, and zero passes leave the buffer unchanged. *)
Theorem dilate_contract (data : list Z) (width height : nat) :
  length data = (4 * (width * height))%nat → Forall is_byte data →
  (∀ y x c,
     (1 ≤ y ∧ y + 1 < height ∧ 1 ≤ x ∧ x + 1 < width)%nat → (c < 3)%nat →
     ∃ m, dilate data width height !! (px_index width y x + c)%nat = Some m ∧
          length (neighbourhood_reds data width y x) = 9%nat ∧
          is_min_of m (neighbourhood_reds data width y x) ∧
          (0 ∈ neighbourhood_reds data width y x → m = 0)) ∧
  (∀ y x c,
     (y < height)%nat → (x < width)%nat → (c < 4)%nat →
     on_border width height y x ∨ c = 3%nat →
     dilate data width height !! (px_index width y x + c)%nat
     = data !! (px_index width y x + c)%nat) ∧
  dilate_passes 0 data width height = data ∧
  (∀ n, dilate_passes (S n) data width height
        = dilate (dilate_passes n data width height) width height).
Proof.
  intros Hlen Hbytes. repeat split.
  - intros y x c Hint Hc.
    pose proof (length_neighbourhood_chan data width height y x 0 Hlen Hint
                  ltac:(lia)) as Hnine.
    fold (neighbourhood_reds data width y x) in Hnine.
    assert (neighbourhood_reds data width y x ≠ []) as Hne.
    { intros E. rewrite E in Hnine. discriminate. }
    pose proof (dilate_min_is_min data width y x Hbytes Hne) as Hmin.
    exists (dilate_min data width y x). split; [|split; [done|split; [done|]]].
    + rewrite dilate_pixel_pass.
      rewrite (pixel_pass_interior (λ y x _, dilate_min data width y x));
        [done..|].
      apply (px_index_lt data width height); (done || lia).
    + intros Hzero. destruct Hmin as [Hin Hle].
      apply Hle in Hzero.
      pose proof (neighbourhood_chan_bytes data width 0 y x Hbytes) as Hb.
      rewrite Forall_forall in Hb. apply list_elem_of_In, Hb in Hin.
      unfold is_byte in Hin. lia.
  - intros y x c _ Hx Hc Hb. rewrite dilate_pixel_pass.
    by apply pixel_pass_untouched.
  - intros n. apply dilate_passes_S.
Qed.

(** * Box blur *)

Lemma blur_sum_foldl src width y x c :
  blur_sum src width y x c
  = foldl sum_step (Some 0) (chan_at src width c <$> neighbourhood y x).
Proof.
  unfold blur_sum, for_up, neighbourhood, chan_at. simpl.
  replace (y + 1 - 1)%nat with y by lia.
  replace (x + 1 - 1)%nat with x by lia.
  replace (y + 2 - 1)%nat with (y + 1)%nat by lia.
  replace (x + 2 - 1)%nat with (x + 1)%nat by lia.
  replace (y + 0 - 1)%nat with (y - 1)%nat by lia.
  replace (x + 0 - 1)%nat with (x - 1)%nat by lia.
  reflexivity.
Qed.

Lemma sum_list_Z_cons v l : sum_list_Z (v :: l) = v + sum_list_Z l.
Proof. reflexivity. Qed.

Lemma foldl_sum_step_all_Some {A : Type} (f : A → option Z) (l : list A) s :
  (∀ k, k ∈ l → is_Some (f k)) →
  foldl sum_step (Some s) (f <$> l) = Some (s + sum_list_Z (omap f l)).
Proof.
  revert s. induction l as [|a l IH]; intros s Hall.
  - simpl. f_equal. unfold sum_list_Z. simpl. lia.
  - destruct (Hall a ltac:(left)) as [b Hb].
    assert (omap f (a :: l) = b :: omap f l) as ->
      by (simpl; rewrite Hb; done).
    rewrite fmap_cons. simpl foldl. rewrite Hb. simpl sum_step.
    rewrite IH by (intros k Hk; apply Hall; by right).
    f_equal. rewrite sum_list_Z_cons. lia.
Qed.

Lemma blur_sum_in_range data width height y x c :
  length data = (4 * (width * height))%nat →
  (1 ≤ y ∧ y + 1 < height ∧ 1 ≤ x ∧ x + 1 < width)%nat → (c < 4)%nat →
  blur_sum data width y x c
  = Some (sum_list_Z (neighbourhood_chan data width c y x)).
Proof.
  intros Hlen Hint Hc. rewrite blur_sum_foldl.
  rewrite foldl_sum_step_all_Some.
  - by rewrite Z.add_0_l.
  - intros k Hk. by eapply neighbourhood_in_range.
Qed.

Lemma sum_list_Z_bytes (l : list Z) :
  Forall is_byte l → 0 ≤ sum_list_Z l ≤ 255 * Z.of_nat (length l).
Proof.
  induction 1 as [|v l Hv _ IH]; [unfold sum_list_Z; simpl; lia|].
  rewrite sum_list_Z_cons, length_cons. unfold is_byte in Hv. lia.
Qed.

(** The stored quotient, for every sum nine bytes can reach. *)
Lemma blur_store_table :
  forallb (λ s, blur_store (Some (Z.of_nat s)) =? (Z.of_nat s + 4) / 9)
          (seq 0 2296) = true.
Proof. vm_compute. reflexivity. Qed.

Lemma blur_store_nearest s :
  0 ≤ s ≤ 2295 → blur_store (Some s) = (s + 4) / 9.
Proof.
  intros Hs. pose proof blur_store_table as Htab.
  rewrite forallb_forall in Htab.
  specialize (Htab (Z.to_nat s)). rewrite Z2Nat.id in Htab by lia.
  apply Z.eqb_eq, Htab, in_seq. lia.
Qed.

Lemma boxBlur_pixel_pass data width height :
  boxBlur data width height
  = pixel_pass (λ y x c, blur_store (blur_sum data width y x c))
               width height data.
Proof.
  rewrite <- for_up_pixel_pass. unfold boxBlur, for_up.
  apply foldl_ext_eq. intros acc y. apply foldl_ext_eq. intros acc' x.
  unfold write_rgb. simpl. by rewrite Nat.add_0_r.
Qed.

Lemma blur_passes_0 img width height : blur_passes 0 img width height = img.
Proof. reflexivity. Qed.

Lemma blur_passes_S n img width height :
  blur_passes (S n) img width height
  = boxBlur (blur_passes n img width height) width height.
Proof. unfold blur_passes. rewrite for_up_succ by lia. done. Qed.

(** C6. One pass of [boxBlur] over a well-formed byte buffer: each colour
    channel of an interior pixel becomes the mean of the nine samples of its
    3x3 neighbourhood in the buffer as it was before the pass, rounded to the
    nearest integer by the 8-bit clamped store; border pixels and every alpha
    value are left as they were; [blurPasses] passes run one after the other,
    and zero passes leave the buffer unchanged. *)
Theorem boxBlur_contract (data : list Z) (width height : nat) :
  length data = (4 * (width * height))%nat → Forall is_byte data →
  (∀ y x c,
     (1 ≤ y ∧ y + 1 < height ∧ 1 ≤ x ∧ x + 1 < width)%nat → (c < 3)%nat →
     ∃ v, boxBlur data width height !! (px_index width y x + c)%nat = Some v ∧
          length (neighbourhood_chan data width c y x) = 9%nat ∧
          is_rounded_mean v (neighbourhood_chan data width c y x) ∧
          is_byte v) ∧
  (∀ y x c,
     (y < height)%nat → (x < width)%nat → (c < 4)%nat →
     on_border width height y x ∨ c = 3%nat →
     boxBlur data width height !! (px_index width y x + c)%nat
     = data !! (px_index width y x + c)%nat) ∧
  blur_passes 0 data width height = data ∧
  (∀ n, blur_passes (S n) data width height
        = boxBlur (blur_passes n data width height) width height).
Proof.
  intros Hlen Hbytes. repeat split.
  - intros y x c Hint Hc.
    pose proof (length_neighbourhood_chan data width height y x c Hlen Hint
                  ltac:(lia)) as Hnine.
    pose proof (sum_list_Z_bytes _ (neighbourhood_chan_bytes data width c y x Hbytes))
      as Hsum.
    rewrite Hnine in Hsum.
    exists ((sum_list_Z (neighbourhood_chan data width c y x) + 4) / 9).
    split; [|split; [done|split]].
    + rewrite boxBlur_pixel_pass, pixel_pass_interior; [|done|done|].
      * rewrite (blur_sum_in_range data width height) by (done || lia).
        by rewrite blur_store_nearest by lia.
      * apply (px_index_lt data width height); (done || lia).
    + unfold is_rounded_mean. rewrite Hnine.
      set (s := sum_list_Z (neighbourhood_chan data width c y x)) in *.
      pose proof (Z.div_mod (s + 4) 9 ltac:(lia)).
      pose proof (Z.mod_pos_bound (s + 4) 9 ltac:(lia)). lia.
    + unfold is_byte.
      set (s := sum_list_Z (neighbourhood_chan data width c y x)) in *.
      split; [apply Z.div_pos; lia|].
      apply Z.lt_succ_r, Z.div_lt_upper_bound; lia.
  - intros y x c _ Hx Hc Hb. rewrite boxBlur_pixel_pass.
    by apply pixel_pass_untouched.
  - intros n. apply blur_passes_S.
Qed.

(** * Sobel edge detection *)

Lemma red_lookup (data : list Z) width height y x :
  length data = (4 * (width * height))%nat →
  (y < height)%nat → (x < width)%nat →
  data !! px_index width y x = Some (red data width y x).
Proof.
  intros Hlen Hy Hx. unfold red. apply list_lookup_lookup_total_lt.
  pose proof (px_index_lt data width height y x 0 Hlen Hy Hx ltac:(lia)). lia.
Qed.

(** In range, the window loop computes the two convolutions. *)
Lemma sobel_window_in_range data width height y x :
  length data = (4 * (width * height))%nat →
  (1 ≤ y ∧ y + 1 < height ∧ 1 ≤ x ∧ x + 1 < width)%nat →
  sobel_window data width y x
  = (Some (convolve kernelX data width y x, convolve kernelY data width y x),
     9%nat).
Proof.
  intros Hlen Hint. unfold sobel_window, for_up. simpl.
  rewrite !(red_lookup data width height) by (done || lia).
  unfold convolve, sum_list_Z. simpl. f_equal. f_equal. f_equal; lia.
Qed.

Lemma length_foldl_write_mag width f ks magnitude :
  length (foldl (write_mag width f) magnitude ks) = length magnitude.
Proof.
  revert magnitude. induction ks as [|k ks IH]; intros magnitude; simpl; [done|].
  rewrite IH. unfold write_mag. by rewrite length_insert.
Qed.

Lemma foldl_write_mag_other width f ks magnitude i :
  (∀ y x, (y, x) ∈ ks → i ≠ (y * width + x)%nat) →
  foldl (write_mag width f) magnitude ks !! i = magnitude !! i.
Proof.
  revert magnitude. induction ks as [|[y x] ks IH]; intros magnitude Hno; simpl;
    [done|].
  rewrite IH by (intros y' x' Hin; apply Hno; by right).
  unfold write_mag. simpl. apply list_lookup_insert_ne.
  intros Heq. by apply (Hno y x ltac:(left)).
Qed.

Lemma foldl_write_mag_hit width f ks magnitude y x :
  (∀ y' x', (y', x') ∈ ks → (x' < width)%nat) → (x < width)%nat →
  (y * width + x < length magnitude)%nat →
  magnitude !! (y * width + x)%nat = Some (f y x) ∨ (y, x) ∈ ks →
  foldl (write_mag width f) magnitude ks !! (y * width + x)%nat = Some (f y x).
Proof.
  intros Hks Hx. revert magnitude.
  induction ks as [|[y' x'] ks IH]; intros magnitude Hlen Hor; simpl.
  - destruct Hor as [?|Hin]; [done|]. by apply elem_of_nil in Hin.
  - apply IH.
    + intros y'' x'' Hin. apply (Hks y''). by right.
    + unfold write_mag. by rewrite length_insert.
    + unfold write_mag. simpl.
      destruct (decide ((y', x') = (y, x))) as [[= -> ->]|Hne].
      * left. by apply list_lookup_insert_eq.
      * destruct Hor as [Hold|Hin].
        -- left. rewrite list_lookup_insert_ne; [done|].
           intros Heq. apply Hne.
           assert (x' < width)%nat by (apply (Hks y'); by left).
           assert (y' = y) by nia. subst. f_equal. lia.
        -- apply elem_of_cons in Hin. destruct Hin as [?|?]; [congruence|by right].
Qed.

Lemma sobelEdge_foldl data width height :
  sobelEdge data width height
  = foldl (write_mag width
             (λ y x, sobel_magnitude (sobel_window data width y x).1))
          (replicate (width * height) 0%float) (interior width height).
Proof.
  unfold sobelEdge, interior, for_up. rewrite foldl_bind_nested.
  replace (height - 1 - 1)%nat with (height - 2)%nat by lia.
  replace (width - 1 - 1)%nat with (width - 2)%nat by lia.
  apply foldl_ext_eq. intros acc y. rewrite foldl_bind_nested.
  apply foldl_ext_eq. intros acc' x. done.
Qed.

Lemma length_sobelEdge data width height :
  length (sobelEdge data width height) = (width * height)%nat.
Proof.
  by rewrite sobelEdge_foldl, length_foldl_write_mag, length_replicate.
Qed.

Lemma cell_lt width height y x :
  (y < height)%nat → (x < width)%nat → (y * width + x < width * height)%nat.
Proof.
  intros Hy Hx.
  assert (y * width ≤ (height - 1) * width)%nat
    by (apply Nat.mul_le_mono_r; lia).
  assert ((height - 1) * width + width = width * height)%nat by nia.
  lia.
Qed.


(** * Resizing *)

Lemma bpow_neg_IZR n : 0 ≤ n → bpow (- n) = (/ IZR (2 ^ n))%R.
Proof. intros Hn. by rewrite bpow_opp, bpow_IZR. Qed.

(** The scale factor [maxDim / max] lies within [2^-53] of the exact
    quotient. *)
Lemma scale_bounds M mx :
  0 < M → M < mx → mx < 2 ^ 22 →
  let scale := (Z2float M / Z2float mx)%float in
  nonneg_finite scale ∧
  (IZR M / IZR mx - bpow (-53) <= F2R scale <= IZR M / IZR mx + bpow (-53))%R ∧
  (F2R scale <= 1)%R.
Proof.
  intros HM HMmx Hmx scale.
  destruct (Z2float_spec M ltac:(lia)) as [NM VM].
  destruct (Z2float_spec mx ltac:(lia)) as [Nmx Vmx].
  assert (0 < IZR M)%R as HM' by (apply (IZR_lt 0); lia).
  assert (IZR M < IZR mx)%R as HMmx' by (apply IZR_lt; lia).
  assert (1 <= IZR M)%R as HM1 by (apply (IZR_le 1); lia).
  assert (IZR mx < bpow 53)%R as Hmx53.
  { rewrite bpow_IZR by lia. apply IZR_lt. lia. }
  destruct (div_rounds (Z2float M) (Z2float mx) NM Nmx) as [Ns Rs];
    [rewrite VM; lra|rewrite Vmx; lra|].
  fold scale in Ns, Rs. rewrite VM, Vmx in Rs.
  split; [done|].
  (* the multiples of 2^-53 around the quotient *)
  set (a := M * 2 ^ 53 / mx).
  pose proof (Z.div_mod (M * 2 ^ 53) mx ltac:(lia)) as Hdm.
  pose proof (Z.mod_pos_bound (M * 2 ^ 53) mx ltac:(lia)) as Hr.
  fold a in Hdm. set (r := (M * 2 ^ 53) mod mx) in *.
  assert (0 ≤ a ∧ a + 1 ≤ 2 ^ 53) as [Ha0 Ha1].
  { split; [apply Z.div_pos; lia|].
    assert (a < 2 ^ 53); [|lia].
    apply Z.div_lt_upper_bound; [lia|]. nia. }
  assert (IZR M * bpow 53 = IZR mx * IZR a + IZR r)%R as HR.
  { rewrite bpow_IZR by lia. rewrite <- !mult_IZR, <- plus_IZR. by f_equal. }
  assert (0 <= IZR r < IZR mx)%R as Hr'
    by (split; [apply (IZR_le 0)|apply IZR_lt]; lia).
  assert (bpow 53 * bpow (-53) = 1)%R as H53
    by (rewrite <- bpow_add; reflexivity).
  pose proof (bpow_pos 53) as P53. pose proof (bpow_pos (-53)) as N53.
  assert (IZR mx * (IZR M / IZR mx * bpow 53) = IZR M * bpow 53)%R as Hq
    by (field; lra).
  assert (IZR a <= IZR M / IZR mx * bpow 53 <= IZR a + 1)%R as [Hqa Hqb].
  { split; apply Rmult_le_reg_l with (IZR mx); try lra; rewrite Hq; nra. }
  assert (IZR M / IZR mx = IZR M / IZR mx * bpow 53 * bpow (-53))%R as Hq1
    by (rewrite Rmult_assoc, H53; lra).
  assert (IZR a * bpow (-53) <= IZR M / IZR mx)%R as Hlo.
  { rewrite Hq1. apply Rmult_le_compat_r; lra. }
  assert (IZR M / IZR mx <= IZR (a + 1) * bpow (-53))%R as Hhi.
  { rewrite plus_IZR, Hq1. apply Rmult_le_compat_r; lra. }
  assert (0 <= IZR M / IZR mx)%R as Hq0.
  { apply Rmult_le_pos; [lra|]. apply Rlt_le, Rinv_0_lt_compat. lra. }
  assert (IZR a * bpow (-53) <= F2R scale)%R as Hs1.
  { apply (rounds_to_ge _ (IZR M / IZR mx)); [|done|done].
    exists a, (-53). split; [done|lia]. }
  assert (F2R scale <= IZR (a + 1) * bpow (-53))%R as Hs2.
  { destruct (decide (a + 1 = 2 ^ 53)) as [Heq|Hne].
    - rewrite Heq, <- bpow_IZR, H53 by lia.
      apply (rounds_to_le _ (IZR M / IZR mx)); [| |done].
      + exists 1, 0. rewrite bpow_0. split; [lra|lia].
      + split; [done|]. apply Rmult_le_reg_r with (IZR mx); [lra|].
        replace (IZR M / IZR mx * IZR mx)%R with (IZR M) by (field; lra). lra.
    - apply (rounds_to_le _ (IZR M / IZR mx)); [| |done].
      + exists (a + 1), (-53). split; [done|lia].
      + done. }
  rewrite plus_IZR in Hs2, Hhi.
  split; [split; lra|].
  apply IZR_le in Ha1. rewrite plus_IZR, <- bpow_IZR in Ha1 by lia. nra.
Qed.

(** One scaled dimension: the exact floor or one less. *)
Lemma scaled_dim_bounds d M mx :
  0 < M → M < mx → mx < 2 ^ 22 → 0 < d ≤ mx →
  let scale := (Z2float M / Z2float mx)%float in
  d * M / mx - 1 ≤ floorZ (Z2float d * scale) ≤ d * M / mx.
Proof.
  intros HM HMmx Hmx Hd scale.
  destruct (scale_bounds M mx HM HMmx Hmx) as (Ns & [Hs1 Hs2] & Hs3).
  fold scale in Ns, Hs1, Hs2, Hs3.
  destruct (Z2float_spec d ltac:(lia)) as [Nd Vd].
  destruct (mul_rounds_le (Z2float d) scale (Z2float d) Nd Ns Nd)
    as (Np & Rp & _).
  { rewrite Vd. assert (0 < IZR d)%R by (apply (IZR_lt 0); lia). nra. }
  rewrite Vd in Rp.
  pose proof (floorZ_spec _ Np) as [Fl Fu].
  set (p := (Z2float d * scale)%float) in *.
  set (F := d * M / mx).
  pose proof (Z.div_mod (d * M) mx ltac:(lia)) as Hdm.
  pose proof (Z.mod_pos_bound (d * M) mx ltac:(lia)) as Hr.
  fold F in Hdm. set (r := (d * M) mod mx) in *.
  assert (0 ≤ F < 2 ^ 22) as HF.
  { split; [apply Z.div_pos; lia|]. apply Z.div_lt_upper_bound; [lia|]. nia. }
  assert (0 < IZR d <= IZR mx)%R as Hd'
    by (split; [apply (IZR_lt 0)|apply IZR_le]; lia).
  assert (IZR mx < bpow 22)%R as Hmx'.
  { rewrite bpow_IZR by lia. apply IZR_lt. lia. }
  assert (IZR d * IZR M = IZR mx * IZR F + IZR r)%R as HR.
  { rewrite <- !mult_IZR, <- plus_IZR. by f_equal. }
  assert (0 <= IZR r <= IZR mx - 1)%R as Hr'.
  { split; [apply (IZR_le 0); lia|]. rewrite <- minus_IZR. apply IZR_le. lia. }
  (* the exact quotient, between F and F + 1 - 1/mx *)
  set (q := (IZR d * (IZR M / IZR mx))%R).
  assert (q * IZR mx = IZR d * IZR M)%R as Hq by (unfold q; field; lra).
  assert (IZR F <= q)%R as HqF.
  { apply Rmult_le_reg_r with (IZR mx); [lra|]. rewrite Hq. nra. }
  assert (bpow 22 * bpow (-22) = 1)%R as H22
    by (rewrite <- bpow_add; reflexivity).
  assert (bpow 22 * bpow (-53) = bpow (-31))%R as H31
    by (rewrite <- bpow_add; reflexivity).
  assert (2 * bpow (-31) <= bpow (-22))%R as Hsmall.
  { rewrite <- bpow_succ. apply bpow_le. lia. }
  assert (bpow (-22) = 2 * bpow (-23))%R as H23
    by (rewrite <- bpow_succ; reflexivity).
  pose proof (bpow_pos (-53)). pose proof (bpow_pos (-22)).
  pose proof (bpow_pos (-31)). pose proof (bpow_pos (-23)).
  pose proof (bpow_pos 22).
  assert (/ IZR mx > bpow (-22))%R as Hinv.
  { apply Rlt_gt. apply Rmult_lt_reg_r with (IZR mx); [lra|].
    rewrite Rinv_l by lra. nra. }
  assert (q <= IZR F + 1 - bpow (-22))%R as HqU.
  { assert (q <= IZR F + 1 - / IZR mx)%R; [|lra].
    apply Rmult_le_reg_r with (IZR mx); [lra|]. rewrite Hq.
    replace ((IZR F + 1 - / IZR mx) * IZR mx)%R
      with (IZR mx * IZR F + IZR mx - 1)%R by (field; lra).
    lra. }
  assert (IZR d * bpow (-53) <= bpow (-31))%R as Hdb by nra.
  assert (q - bpow (-31) <= IZR d * F2R scale <= q + bpow (-31))%R as [Hp1 Hp2].
  { unfold q. split; nra. }
  pose proof (F2R_nonneg scale Ns) as Hs0.
  (* upper bound: the product stays below F + 1 *)
  assert (F2R p <= IZR F + 1 - bpow (-23))%R as HpU.
  { apply (rounds_to_le _ (IZR d * F2R scale)); [| |done].
    - exists ((F + 1) * 2 ^ 23 - 1), (-23). split; [|lia].
      rewrite minus_IZR, mult_IZR, plus_IZR, <- bpow_IZR by lia.
      assert (bpow 23 * bpow (-23) = 1)%R as Hone
        by (rewrite <- bpow_add; reflexivity).
      transitivity ((IZR F + 1) * (bpow 23 * bpow (-23)) - bpow (-23))%R;
        [rewrite Hone; lra|ring].
    - split; [nra|lra]. }
  (* lower bound: the product does not fall below F - 1 *)
  assert (IZR F - 1 <= F2R p)%R as HpL.
  { destruct (decide (F = 0)) as [->|HF0].
    - pose proof (F2R_nonneg p Np). lra.
    - replace (IZR F - 1)%R with (IZR (F - 1)) by (rewrite minus_IZR; lra).
      apply (rounds_to_ge _ (IZR d * F2R scale)); [| |done].
      + apply representable_Z. lia.
      + rewrite minus_IZR. lra. }
  split.
  - assert (IZR (F - 1) < IZR (floorZ p) + 1)%R as Hfl
      by (rewrite minus_IZR; lra).
    rewrite <- plus_IZR in Hfl. apply lt_IZR in Hfl. lia.
  - assert (IZR (floorZ p) < IZR (F + 1))%R as Hfl
      by (rewrite plus_IZR; lra).
    apply lt_IZR in Hfl. lia.
Qed.

(** C4, as the code has it.  When a dimension exceeds [maxDim], each output
    dimension is the floor of the binary64 product of the dimension and the
    binary64 quotient [maxDim / max(width, height)]; it is the exact
    [floor(dimension * maxDim / max(width, height))] or one less, never more
    than [maxDim] and never more than the input dimension.  Otherwise the
    dimensions pass through unchanged.  A 3000x2000 input with
    [maxDim = 1200] yields 1200x800. *)
Theorem resize_contract (width height maxDim : Z) :
  0 < width < 2 ^ 22 → 0 < height < 2 ^ 22 → 0 < maxDim →
  (maxDim < width ∨ maxDim < height →
   let mx := Z.max width height in
   let scale := (Z2float maxDim / Z2float mx)%float in
   let out := resize width height maxDim in
   out = (floorZ (Z2float width * scale), floorZ (Z2float height * scale)) ∧
   width * maxDim / mx - 1 ≤ out.1 ≤ width * maxDim / mx ∧
   height * maxDim / mx - 1 ≤ out.2 ≤ height * maxDim / mx ∧
   Z.max out.1 out.2 ≤ maxDim ∧ out.1 ≤ width ∧ out.2 ≤ height) ∧
  (width ≤ maxDim ∧ height ≤ maxDim →
   resize width height maxDim = (width, height)) ∧
  resize 3000 2000 1200 = (1200, 800).
Proof.
  intros Hw Hh HM. split; [|split].
  - intros Hex mx scale out.
    assert (out = (floorZ (Z2float width * scale),
                   floorZ (Z2float height * scale))) as Hout.
    { unfold out, resize.
      assert ((maxDim <? width) || (maxDim <? height) = true) as ->; [|done].
      apply orb_true_iff. destruct Hex; [left|right]; by apply Z.ltb_lt. }
    assert (maxDim < mx ∧ mx < 2 ^ 22 ∧ width ≤ mx ∧ height ≤ mx)
      as (HMmx & Hmx & Hwmx & Hhmx) by (unfold mx; lia).
    pose proof (scaled_dim_bounds width maxDim mx HM HMmx Hmx ltac:(lia)) as Bw.
    pose proof (scaled_dim_bounds height maxDim mx HM HMmx Hmx ltac:(lia)) as Bh.
    cbv zeta in Bw, Bh. fold scale in Bw, Bh. rewrite Hout. cbn [fst snd].
    assert (width * maxDim / mx ≤ maxDim ∧ width * maxDim / mx ≤ width)
      as [Fw1 Fw2].
    { split; apply Z.div_le_upper_bound; nia. }
    assert (height * maxDim / mx ≤ maxDim ∧ height * maxDim / mx ≤ height)
      as [Fh1 Fh2].
    { split; apply Z.div_le_upper_bound; nia. }
    split; [done|]. repeat split; lia.
  - intros [Hw' Hh']. unfold resize.
    assert ((maxDim <? width) || (maxDim <? height) = false) as ->; [|done].
    apply orb_false_iff. split; apply Z.ltb_ge; lia.
  - vm_compute. reflexivity.
Qed.

(** C4 as stated fails: the output dimension is not always the exact floor.
    A 1109x700 input with [maxDim = 600] yields 599x378, while
    [floor(1109 * 600 / 1109) = 600]. *)
Lemma resize_exact_floor_fails :
  ¬ (∀ width height maxDim,
       0 < width → 0 < height → 0 < maxDim →
       maxDim < width ∨ maxDim < height →
       resize width height maxDim
       = (width * maxDim / Z.max width height,
          height * maxDim / Z.max width height)).
Proof.
  intros H.
  specialize (H 1109 700 600 ltac:(lia) ltac:(lia) ltac:(lia) ltac:(lia)).
  vm_compute in H. discriminate.
Qed.

(** * Thresholding *)

(** ** The loops as folds over the magnitude map *)

Lemma for_up_lookup_take {A S : Type} (l : list A) (f : S → A → S) (s : S) k :
  (k ≤ length l)%nat →
  for_up 0 k (λ i acc, match l !! i with Some x => f acc x | None => acc end) s
  = foldl f s (take k l).
Proof.
  induction k as [|k IH]; intros Hk; [done|].
  rewrite for_up_succ by lia. rewrite IH by lia.
  destruct (lookup_lt_is_Some_2 l k ltac:(lia)) as [x Hx].
  rewrite Hx, (take_S_r _ _ _ Hx), foldl_app. done.
Qed.

Lemma for_up_lookup_foldl {A S : Type} (l : list A) (f : S → A → S) (s : S) :
  for_up 0 (length l)
    (λ i acc, match l !! i with Some x => f acc x | None => acc end) s
  = foldl f s l.
Proof. rewrite for_up_lookup_take by lia. by rewrite firstn_all. Qed.

Lemma max_magnitude_foldl magnitude :
  max_magnitude magnitude = foldl max_step 0%float magnitude.
Proof. unfold max_magnitude. by rewrite <- (for_up_lookup_foldl magnitude max_step). Qed.

(** ** The maximum scan *)

Lemma nonneg_finite_zero : nonneg_finite 0%float.
Proof. reflexivity. Qed.

Lemma F2R_zero : F2R 0%float = 0%R.
Proof. reflexivity. Qed.

Lemma foldl_max_step init magnitude :
  nonneg_finite init → Forall nonneg_finite magnitude →
  nonneg_finite (foldl max_step init magnitude) ∧
  (F2R init <= F2R (foldl max_step init magnitude))%R ∧
  (∀ m, m ∈ magnitude → (F2R m <= F2R (foldl max_step init magnitude))%R) ∧
  (foldl max_step init magnitude = init ∨
   (foldl max_step init magnitude ∈ magnitude ∧
    (F2R init < F2R (foldl max_step init magnitude))%R)).
Proof.
  intros Hinit Hall. revert init Hinit.
  induction Hall as [|m magnitude Hm Hall IH]; intros init Hinit; simpl.
  - split; [done|]. split; [lra|]. split; [|by left].
    intros m Hin. by apply elem_of_nil in Hin.
  - assert (nonneg_finite (max_step init m) ∧
            (F2R init <= F2R (max_step init m))%R ∧
            (F2R m <= F2R (max_step init m))%R ∧
            (max_step init m = init ∨
             (max_step init m = m ∧ (F2R init < F2R m)%R)))
      as (Hn & Hi & Hmm & Hor).
    { unfold max_step. destruct (init <? m)%float eqn:E.
      - apply (ltb_correct init m Hinit Hm) in E.
        split; [done|]. split; [lra|]. split; [lra|]. by right.
      - assert (¬ (F2R init < F2R m)%R) as Hn.
        { intros Hlt. apply (ltb_correct init m Hinit Hm) in Hlt. congruence. }
        split; [done|]. split; [lra|]. split; [lra|]. by left. }
    destruct (IH _ Hn) as (Hn' & Hi' & Hall' & Hor').
    split; [done|]. split; [lra|]. split.
    + intros m' Hin. apply elem_of_cons in Hin. destruct Hin as [->|Hin].
      * lra.
      * by apply Hall'.
    + destruct Hor' as [Heq|[Hin Hlt]].
      * rewrite Heq. destruct Hor as [?|[Heq' Hlt]]; [by left|right].
        rewrite Heq'. split; [by left|done].
      * right. split; [by right|lra].
Qed.

Lemma max_magnitude_spec magnitude :
  Forall nonneg_finite magnitude →
  nonneg_finite (max_magnitude magnitude) ∧
  (∀ m, m ∈ magnitude → (F2R m <= F2R (max_magnitude magnitude))%R) ∧
  (max_magnitude magnitude = 0%float ∨
   (max_magnitude magnitude ∈ magnitude ∧
    (0 < F2R (max_magnitude magnitude))%R)).
Proof.
  intros Hall. rewrite max_magnitude_foldl.
  destruct (foldl_max_step 0%float magnitude nonneg_finite_zero Hall)
    as (Hn & _ & Hle & Hor).
  rewrite F2R_zero in Hor. done.
Qed.

(** ** The threshold fraction [threshold / 255] *)

(** Checked on all 256 thresholds: every fraction is a non-negative finite
    number, and the fractions increase strictly with the threshold. *)
Lemma threshold_ratio_table :
  forallb (λ t, nonneg_finiteb (threshold_ratio (Z.of_nat t)) &&
                (threshold_ratio (Z.of_nat t)
                 <? threshold_ratio (Z.of_nat t + 1))%float)
          (seq 0 255) = true.
Proof. vm_compute. reflexivity. Qed.

Lemma threshold_ratio_255 : threshold_ratio 255 = 1%float.
Proof. vm_compute. reflexivity. Qed.

Lemma threshold_ratio_0 : threshold_ratio 0 = 0%float.
Proof. vm_compute. reflexivity. Qed.

Lemma nonneg_finite_one : nonneg_finite 1%float.
Proof. reflexivity. Qed.

Lemma F2R_one : F2R 1%float = 1%R.
Proof.
  unfold F2R.
  replace (Prim2SF 1) with (S754_finite false (2 ^ 52) (-52))
    by (vm_compute; reflexivity).
  cbn [SF2R]. change (Z.pos (2 ^ 52)) with (2 ^ 52).
  rewrite <- bpow_IZR, <- bpow_add by lia. reflexivity.
Qed.

Lemma threshold_ratio_step t :
  0 ≤ t < 255 →
  nonneg_finite (threshold_ratio t) ∧
  (threshold_ratio t <? threshold_ratio (t + 1))%float = true.
Proof.
  intros Ht. pose proof threshold_ratio_table as Htab.
  rewrite forallb_forall in Htab.
  specialize (Htab (Z.to_nat t)). rewrite Z2Nat.id in Htab by lia.
  apply andb_true_iff. apply Htab, in_seq. lia.
Qed.

Lemma threshold_ratio_nonneg_finite t :
  0 ≤ t ≤ 255 → nonneg_finite (threshold_ratio t).
Proof.
  intros Ht. destruct (decide (t = 255)) as [->|Hne].
  - rewrite threshold_ratio_255. apply nonneg_finite_one.
  - apply threshold_ratio_step. lia.
Qed.

Lemma threshold_ratio_mono t1 t2 :
  0 ≤ t1 → t1 ≤ t2 → t2 ≤ 255 →
  (F2R (threshold_ratio t1) <= F2R (threshold_ratio t2))%R.
Proof.
  intros H0 Hle H255.
  replace t2 with (t1 + Z.of_nat (Z.to_nat (t2 - t1))) in * by lia.
  induction (Z.to_nat (t2 - t1)) as [|n IH].
  - rewrite Z.add_0_r. lra.
  - rewrite Nat2Z.inj_succ in *.
    assert (F2R (threshold_ratio (t1 + Z.of_nat n))
            < F2R (threshold_ratio (t1 + Z.of_nat n + 1)))%R as Hstep.
    { destruct (threshold_ratio_step (t1 + Z.of_nat n) ltac:(lia)) as [Hn Hlt].
      apply ltb_correct; [done| |done].
      apply threshold_ratio_nonneg_finite. lia. }
    replace (t1 + Z.succ (Z.of_nat n)) with (t1 + Z.of_nat n + 1) by lia.
    specialize (IH ltac:(lia) ltac:(lia)). lra.
Qed.

Lemma threshold_ratio_le_1 t :
  0 ≤ t ≤ 255 → (F2R (threshold_ratio t) <= 1)%R.
Proof.
  intros Ht. rewrite <- F2R_one, <- threshold_ratio_255.
  apply threshold_ratio_mono; lia.
Qed.

(** ** The cutoff [(threshold / 255) * maxMag] *)

Lemma normalized_threshold_spec t maxMag :
  0 ≤ t ≤ 255 → nonneg_finite maxMag →
  nonneg_finite (normalized_threshold t maxMag) ∧
  rounds_to (F2R (threshold_ratio t) * F2R maxMag)
            (F2R (normalized_threshold t maxMag)) ∧
  (F2R (normalized_threshold t maxMag) <= F2R maxMag)%R.
Proof.
  intros Ht HM. unfold normalized_threshold. fold (threshold_ratio t).
  apply mul_rounds_le; [by apply threshold_ratio_nonneg_finite|done|done|].
  pose proof (threshold_ratio_le_1 t Ht).
  pose proof (F2R_nonneg maxMag HM). nra.
Qed.

Lemma normalized_threshold_mono t1 t2 maxMag :
  0 ≤ t1 → t1 ≤ t2 → t2 ≤ 255 → nonneg_finite maxMag →
  (F2R (normalized_threshold t1 maxMag)
   <= F2R (normalized_threshold t2 maxMag))%R.
Proof.
  intros H0 Hle H255 HM.
  destruct (normalized_threshold_spec t1 maxMag ltac:(lia) HM) as (_ & R1 & _).
  destruct (normalized_threshold_spec t2 maxMag ltac:(lia) HM) as (_ & R2 & _).
  refine (rounds_to_mono _ _ _ _ _ R1 R2).
  pose proof (threshold_ratio_mono t1 t2 H0 Hle H255).
  pose proof (F2R_nonneg maxMag HM).
  pose proof (F2R_nonneg _ (threshold_ratio_nonneg_finite t1 ltac:(lia))).
  split; nra.
Qed.

Lemma normalized_threshold_255 maxMag :
  nonneg_finite maxMag →
  F2R (normalized_threshold 255 maxMag) = F2R maxMag.
Proof.
  intros HM.
  destruct (normalized_threshold_spec 255 maxMag ltac:(lia) HM) as (_ & R & _).
  rewrite threshold_ratio_255, F2R_one, Rmult_1_l in R.
  apply (rounds_to_representable _ _ (F2R_representable _ HM) R).
Qed.

Lemma normalized_threshold_0 maxMag :
  nonneg_finite maxMag → F2R (normalized_threshold 0 maxMag) = 0%R.
Proof.
  intros HM.
  destruct (normalized_threshold_spec 0 maxMag ltac:(lia) HM) as (_ & R & _).
  rewrite threshold_ratio_0, F2R_zero, Rmult_0_l in R.
  apply (rounds_to_representable 0); [|done].
  exists 0, 0. split; [lra|lia].
Qed.

Lemma is_edge_correct cutoff m :
  nonneg_finite cutoff → nonneg_finite m →
  is_edge cutoff m = true ↔ (F2R cutoff < F2R m)%R.
Proof. intros Hc Hm. by apply ltb_correct. Qed.

(** ** The output buffer *)

Lemma length_bind_render cutoff (l : list float) :
  length (l ≫= render cutoff) = (length l * 4)%nat.
Proof.
  induction l as [|m l IH]; [done|].
  change ((m :: l) ≫= render cutoff)
    with (render cutoff m ++ (l ≫= render cutoff)).
  rewrite length_app, IH. unfold render. simpl. lia.
Qed.

Lemma threshold_loop_take cutoff (magnitude : list float) k :
  (k ≤ length magnitude)%nat →
  for_up 0 k (λ i data,
    match magnitude !! i with
    | Some m =>
        let color := if is_edge cutoff m then 0 else 255 in
        <[(i * 4 + 3)%nat := 255]>
          (<[(i * 4 + 2)%nat := color]>
             (<[(i * 4 + 1)%nat := color]> (<[(i * 4)%nat := color]> data)))
    | None => data
    end) (replicate (length magnitude * 4) 0)
  = (take k magnitude ≫= render cutoff)
    ++ replicate ((length magnitude - k) * 4) 0.
Proof.
  induction k as [|k IH]; intros Hk.
  - simpl. by rewrite Nat.sub_0_r.
  - rewrite for_up_succ by lia. rewrite IH by lia.
    destruct (lookup_lt_is_Some_2 magnitude k ltac:(lia)) as [m Hm].
    rewrite Hm, (take_S_r _ _ _ Hm), bind_app. cbv zeta.
    assert (length (take k magnitude ≫= render cutoff) = (k * 4)%nat) as Hlen.
    { rewrite length_bind_render, length_take_le by lia. done. }
    replace ((length magnitude - k) * 4)%nat
      with (4 + (length magnitude - S k) * 4)%nat by lia.
    rewrite replicate_add.
    rewrite !insert_app_r_alt by (rewrite ?length_insert; lia).
    rewrite Hlen.
    replace (k * 4 - k * 4)%nat with 0%nat by lia.
    replace (k * 4 + 1 - k * 4)%nat with 1%nat by lia.
    replace (k * 4 + 2 - k * 4)%nat with 2%nat by lia.
    replace (k * 4 + 3 - k * 4)%nat with 3%nat by lia.
    rewrite <- app_assoc. f_equal.
Qed.

Lemma thresholdEdges_eq magnitude width height threshold :
  (0 < width)%nat → (0 < height)%nat →
  length magnitude = (width * height)%nat →
  thresholdEdges magnitude width height threshold
  = Some (magnitude ≫=
            render (normalized_threshold threshold (max_magnitude magnitude))).
Proof.
  intros Hw Hh Hlen. unfold thresholdEdges.
  destruct (decide (width = 0 ∨ height = 0)%nat) as [?|_]; [lia|].
  f_equal. rewrite <- Hlen.
  rewrite (threshold_loop_take _ magnitude (length magnitude)) by lia.
  rewrite firstn_all, Nat.sub_diag. simpl. by rewrite app_nil_r.
Qed.

Lemma pixels_bind_render cutoff (l : list float) :
  pixels (l ≫= render cutoff) = render_pixel cutoff <$> l.
Proof.
  induction l as [|m l IH]; [done|].
  change ((m :: l) ≫= render cutoff)
    with (render cutoff m ++ (l ≫= render cutoff)).
  unfold render at 1. cbv zeta. cbn [app pixels]. rewrite IH.
  rewrite fmap_cons. f_equal. unfold render_pixel, black, white.
  by destruct (is_edge cutoff m).
Qed.

Lemma render_pixel_black cutoff m :
  render_pixel cutoff m = black ↔ is_edge cutoff m = true.
Proof.
  unfold render_pixel, black, white. destruct (is_edge cutoff m); split; done.
Qed.

Lemma count_black_render cutoff (l : list float) :
  count_black (l ≫= render cutoff)
  = length (filter (λ m, is_edge cutoff m = true) l).
Proof.
  unfold count_black. rewrite pixels_bind_render.
  induction l as [|m l IH]; [done|].
  rewrite fmap_cons, !filter_cons.
  destruct (decide (render_pixel cutoff m = black)) as [Hb|Hb];
    destruct (decide (is_edge cutoff m = true)) as [He|He].
  - simpl. by rewrite IH.
  - by apply render_pixel_black in Hb.
  - by apply render_pixel_black in He.
  - done.
Qed.

Lemma length_filter_impl {A : Type} (P Q : A → Prop)
    `{!∀ x, Decision (P x)} `{!∀ x, Decision (Q x)} (l : list A) :
  (∀ x, x ∈ l → P x → Q x) →
  (length (filter P l) ≤ length (filter Q l))%nat.
Proof.
  induction l as [|x l IH]; intros Himp; [done|].
  assert (length (filter P l) ≤ length (filter Q l))%nat as IH'.
  { apply IH. intros y Hy. apply Himp. by right. }
  rewrite !filter_cons.
  destruct (decide (P x)) as [HP|HP].
  - rewrite decide_True by (apply Himp; [by left|done]). simpl. lia.
  - destruct (decide (Q x)); simpl; lia.
Qed.

Lemma thresholdEdges_pixels magnitude width height threshold :
  (0 < width)%nat → (0 < height)%nat →
  length magnitude = (width * height)%nat →
  ∃ output,
    thresholdEdges magnitude width height threshold = Some output ∧
    length output = (width * height * 4)%nat ∧
    pixels output
    = render_pixel (normalized_threshold threshold (max_magnitude magnitude))
        <$> magnitude ∧
    count_black output
    = length (filter (λ m, is_edge (normalized_threshold threshold
                                      (max_magnitude magnitude)) m = true)
                     magnitude).
Proof.
  intros Hw Hh Hlen. eexists. split; [by apply thresholdEdges_eq|].
  split; [by rewrite length_bind_render, Hlen|].
  split; [apply pixels_bind_render|apply count_black_render].
Qed.

Lemma Forall_nonneg_finite_elem magnitude m :
  Forall nonneg_finite magnitude → m ∈ magnitude → nonneg_finite m.
Proof. intros Hall Hin. rewrite Forall_forall in Hall. by apply Hall, list_elem_of_In. Qed.

Lemma length_filter_none {A : Type} (P : A → Prop)
    `{!∀ x, Decision (P x)} (l : list A) :
  (∀ x, x ∈ l → ¬ P x) → length (filter P l) = 0%nat.
Proof.
  induction l as [|x l IH]; intros Hno; [done|].
  rewrite filter_cons, decide_False by (apply Hno; by left).
  apply IH. intros y Hy. apply Hno. by right.
Qed.

(** C1. The binarizer over a map of (finite, non-negative) gradient
    magnitudes: [maxMag] is the largest magnitude of the map, and 0 when the
    map is zero everywhere; the cutoff is [(threshold / 255) * maxMag]; pixel
    [i] is an edge exactly when [magnitude[i]] is greater than the cutoff, and
    is written black (0,0,0,255) then and white (255,255,255,255) otherwise;
    a map that is zero everywhere gives an entirely white output for every
    threshold in 0..255. *)
Theorem thresholdEdges_contract (magnitude : list float)
    (width height : nat) (threshold : Z) :
  Forall nonneg_finite magnitude →
  length magnitude = (width * height)%nat →
  (0 < width)%nat → (0 < height)%nat → 0 ≤ threshold ≤ 255 →
  let maxMag := max_magnitude magnitude in
  let cutoff := (Z2float threshold / Z2float 255 * maxMag)%float in
  (∀ m, m ∈ magnitude → (F2R m <= F2R maxMag)%R) ∧
  (maxMag ∈ magnitude ∨ maxMag = 0%float) ∧
  ((∀ m, m ∈ magnitude → F2R m = 0%R) → maxMag = 0%float) ∧
  ∃ output,
    thresholdEdges magnitude width height threshold = Some output ∧
    length output = (width * height * 4)%nat ∧
    (∀ i m, magnitude !! i = Some m →
       pixels output !! i
       = Some (if (cutoff <? m)%float then black else white) ∧
       ((cutoff <? m)%float = true ↔ (F2R cutoff < F2R m)%R)) ∧
    ((∀ m, m ∈ magnitude → F2R m = 0%R) →
     Forall (λ p, p = white) (pixels output)).
Proof.
  intros Hall Hlen Hw Hh Ht maxMag cutoff.
  destruct (max_magnitude_spec magnitude Hall) as (HnM & Hmax & Hor).
  fold maxMag in HnM, Hmax, Hor.
  destruct (normalized_threshold_spec threshold maxMag Ht HnM) as (Hnc & _ & _).
  change (normalized_threshold threshold maxMag) with cutoff in Hnc.
  assert ((∀ m, m ∈ magnitude → F2R m = 0%R) → maxMag = 0%float) as Hflat.
  { intros Hz. destruct Hor as [?|[Hin Hpos]]; [done|].
    apply Hz in Hin. lra. }
  split; [done|]. split; [destruct Hor as [?|[? _]]; auto|]. split; [done|].
  destruct (thresholdEdges_pixels magnitude width height threshold Hw Hh Hlen)
    as (output & Hout & Hlo & Hpx & _).
  fold maxMag in Hpx. change (normalized_threshold threshold maxMag) with cutoff in Hpx.
  exists output. split; [done|]. split; [done|]. split.
  - intros i m Hm. split.
    + rewrite Hpx, list_lookup_fmap, Hm. reflexivity.
    + apply is_edge_correct; [done|].
      apply (Forall_nonneg_finite_elem magnitude); [done|].
      by apply list_elem_of_lookup_2 in Hm.
  - intros Hz. rewrite Hpx. apply Forall_fmap, Forall_forall.
    intros m Hin. apply list_elem_of_In in Hin. simpl.
    unfold render_pixel.
    destruct (is_edge cutoff m) eqn:E; [exfalso|done].
    apply is_edge_correct in E; [|done|by apply (Forall_nonneg_finite_elem magnitude)].
    pose proof (F2R_nonneg cutoff Hnc). rewrite (Hz m Hin) in E. lra.
Qed.

Lemma bind_render_white cutoff (l : list float) :
  (∀ m, m ∈ l → is_edge cutoff m = false) →
  l ≫= render cutoff = replicate (4 * length l) 255.
Proof.
  induction l as [|m l IH]; intros H; [done|].
  change ((m :: l) ≫= render cutoff)
    with (render cutoff m ++ (l ≫= render cutoff)).
  rewrite IH by (intros m' Hm'; apply H; by right).
  unfold render. rewrite (H m ltac:(left)). rewrite length_cons.
  replace (4 * S (length l))%nat with (S (S (S (S (4 * length l))))) by lia.
  done.
Qed.

(** C10. With threshold 255 the cutoff equals the largest magnitude, no
    magnitude is greater than it, and the output is the blank white image of
    [width] x [height] pixels: the buffer of [width * height * 4] entries,
    all 255, in which every pixel is white and none is black, whatever the
    (finite, non-negative) magnitudes are. *)
Theorem thresholdEdges_255_all_white (magnitude : list float)
    (width height : nat) :
  Forall nonneg_finite magnitude →
  length magnitude = (width * height)%nat →
  (0 < width)%nat → (0 < height)%nat →
  let maxMag := max_magnitude magnitude in
  let cutoff := (Z2float 255 / Z2float 255 * maxMag)%float in
  F2R cutoff = F2R maxMag ∧
  (∀ m, m ∈ magnitude → (cutoff <? m)%float = false) ∧
  ∃ output,
    thresholdEdges magnitude width height 255 = Some output ∧
    output = replicate (width * height * 4) 255 ∧
    length output = (width * height * 4)%nat ∧
    length (pixels output) = (width * height)%nat ∧
    (∀ i, (i < width * height)%nat → pixels output !! i = Some white) ∧
    Forall (λ p, p = white) (pixels output) ∧
    count_black output = 0%nat.
Proof.
  intros Hall Hlen Hw Hh maxMag cutoff.
  destruct (max_magnitude_spec magnitude Hall) as (HnM & Hmax & _).
  fold maxMag in HnM, Hmax.
  destruct (normalized_threshold_spec 255 maxMag ltac:(lia) HnM) as (Hnc & _ & _).
  pose proof (normalized_threshold_255 maxMag HnM) as Hc.
  change (normalized_threshold 255 maxMag) with cutoff in Hnc, Hc.
  assert (∀ m, m ∈ magnitude → is_edge cutoff m = false) as Hno.
  { intros m Hin. destruct (is_edge cutoff m) eqn:E; [exfalso|done].
    apply is_edge_correct in E; [|done|by apply (Forall_nonneg_finite_elem magnitude)].
    pose proof (Hmax m Hin). lra. }
  split; [done|]. split; [done|].
  destruct (thresholdEdges_pixels magnitude width height 255 Hw Hh Hlen)
    as (output & Hout & Hlo & Hpx & Hcount).
  fold maxMag in Hpx, Hcount.
  change (normalized_threshold 255 maxMag) with cutoff in Hpx, Hcount.
  exists output. split; [done|]. split; [|split; [done|split; [|split; [|split]]]].
  - rewrite (thresholdEdges_eq magnitude width height 255 Hw Hh Hlen) in Hout.
    injection Hout as <-. fold maxMag.
    change (normalized_threshold 255 maxMag) with cutoff.
    rewrite (bind_render_white cutoff magnitude Hno), Hlen.
    f_equal. lia.
  - by rewrite Hpx, length_fmap.
  - intros i Hi. rewrite Hpx, list_lookup_fmap.
    destruct (lookup_lt_is_Some_2 magnitude i ltac:(lia)) as [m Hm].
    rewrite Hm. simpl. f_equal. unfold render_pixel.
    by rewrite (Hno m (list_elem_of_lookup_2 _ _ _ Hm)).
  - rewrite Hpx. apply Forall_fmap, Forall_forall.
    intros m Hin. apply list_elem_of_In in Hin. simpl.
    unfold render_pixel. by rewrite (Hno m Hin).
  - rewrite Hcount. apply length_filter_none.
    intros m Hin. by rewrite (Hno m Hin).
Qed.

(** C3. For a fixed map of (finite, non-negative) magnitudes and thresholds
    [t1 <= t2] in 0..255, the output at [t2] has at most as many black pixels
    as the output at [t1]. *)
Theorem threshold_monotone (magnitude : list float) (width height : nat)
    (t1 t2 : Z) :
  Forall nonneg_finite magnitude →
  length magnitude = (width * height)%nat →
  (0 < width)%nat → (0 < height)%nat →
  0 ≤ t1 → t1 ≤ t2 → t2 ≤ 255 →
  ∃ out1 out2,
    thresholdEdges magnitude width height t1 = Some out1 ∧
    thresholdEdges magnitude width height t2 = Some out2 ∧
    (count_black out2 ≤ count_black out1)%nat.
Proof.
  intros Hall Hlen Hw Hh H0 Hle H255.
  destruct (max_magnitude_spec magnitude Hall) as (HnM & _ & _).
  destruct (thresholdEdges_pixels magnitude width height t1 Hw Hh Hlen)
    as (out1 & Hout1 & _ & _ & Hc1).
  destruct (thresholdEdges_pixels magnitude width height t2 Hw Hh Hlen)
    as (out2 & Hout2 & _ & _ & Hc2).
  exists out1, out2. split; [done|]. split; [done|].
  rewrite Hc1, Hc2. apply length_filter_impl. intros m Hin He.
  pose proof (Forall_nonneg_finite_elem magnitude m Hall Hin) as Hm.
  destruct (normalized_threshold_spec t1 _ ltac:(lia) HnM) as (Hn1 & _ & _).
  destruct (normalized_threshold_spec t2 _ ltac:(lia) HnM) as (Hn2 & _ & _).
  pose proof (normalized_threshold_mono t1 t2 _ H0 Hle H255 HnM) as Hmono.
  apply is_edge_correct in He; [|done..].
  apply is_edge_correct; [done..|]. lra.
Qed.

(** C2, as the code has it.  With threshold 0 the cutoff is 0, a pixel is
    black exactly when its magnitude is positive, and a map with a positive
    magnitude gives a black pixel.  With threshold 255 the cutoff equals the
    largest magnitude and, the comparison being strict, no pixel is black:
    not even the pixels of largest magnitude. *)
Theorem threshold_extremes (magnitude : list float) (width height : nat) :
  Forall nonneg_finite magnitude →
  length magnitude = (width * height)%nat →
  (0 < width)%nat → (0 < height)%nat →
  let maxMag := max_magnitude magnitude in
  (∃ out0,
     thresholdEdges magnitude width height 0 = Some out0 ∧
     F2R (normalized_threshold 0 maxMag) = 0%R ∧
     (∀ i m, magnitude !! i = Some m →
        pixels out0 !! i = Some black ↔ (0 < F2R m)%R) ∧
     ((∃ m, m ∈ magnitude ∧ (0 < F2R m)%R) → black ∈ pixels out0)) ∧
  (∃ out255,
     thresholdEdges magnitude width height 255 = Some out255 ∧
     F2R (normalized_threshold 255 maxMag) = F2R maxMag ∧
     (∀ i m, magnitude !! i = Some m → pixels out255 !! i = Some white)).
Proof.
  intros Hall Hlen Hw Hh maxMag.
  destruct (max_magnitude_spec magnitude Hall) as (HnM & Hmax & _).
  fold maxMag in HnM, Hmax.
  split.
  - destruct (thresholdEdges_pixels magnitude width height 0 Hw Hh Hlen)
      as (out0 & Hout & _ & Hpx & _).
    fold maxMag in Hpx.
    destruct (normalized_threshold_spec 0 maxMag ltac:(lia) HnM) as (Hnc & _ & _).
    pose proof (normalized_threshold_0 maxMag HnM) as Hc.
    assert (∀ i m, magnitude !! i = Some m →
              pixels out0 !! i = Some black ↔ (0 < F2R m)%R) as Hiff.
    { intros i m Hm. rewrite Hpx, list_lookup_fmap, Hm. simpl.
      assert (nonneg_finite m) as Hnm.
      { apply (Forall_nonneg_finite_elem magnitude); [done|].
        by apply list_elem_of_lookup_2 in Hm. }
      rewrite <- Hc, <- (is_edge_correct _ m Hnc Hnm), <- render_pixel_black.
      split; [by intros [= ->]|by intros ->]. }
    exists out0. split; [done|]. split; [done|]. split; [done|].
    intros (m & Hin & Hpos). apply list_elem_of_lookup in Hin.
    destruct Hin as [i Hi]. apply (Hiff i m Hi) in Hpos.
    by apply list_elem_of_lookup_2 in Hpos.
  - destruct (thresholdEdges_pixels magnitude width height 255 Hw Hh Hlen)
      as (out255 & Hout & _ & Hpx & _).
    fold maxMag in Hpx.
    destruct (normalized_threshold_spec 255 maxMag ltac:(lia) HnM) as (Hnc & _ & _).
    pose proof (normalized_threshold_255 maxMag HnM) as Hc.
    exists out255. split; [done|]. split; [done|].
    intros i m Hm. rewrite Hpx, list_lookup_fmap, Hm. simpl. f_equal.
    unfold render_pixel.
    destruct (is_edge (normalized_threshold 255 maxMag) m) eqn:E; [exfalso|done].
    assert (m ∈ magnitude) as Hin by (by apply list_elem_of_lookup_2 in Hm).
    apply is_edge_correct in E;
      [|done|by apply (Forall_nonneg_finite_elem magnitude)].
    pose proof (Hmax m Hin). lra.
Qed.

Lemma example_map_nonneg_finite : Forall nonneg_finite example_map.
Proof. repeat constructor. Qed.

(** C2 as stated fails: with threshold 255 the pixels of largest magnitude
    are not black.  In [example_map] pixel 1 holds the largest magnitude, 5,
    and is white in the output. *)
Lemma threshold_255_max_not_black :
  ¬ (∀ (magnitude : list float) (width height : nat) (output : list Z)
       (i : nat) (m : float),
       Forall nonneg_finite magnitude →
       length magnitude = (width * height)%nat →
       thresholdEdges magnitude width height 255 = Some output →
       magnitude !! i = Some m →
       (pixels output !! i = Some black ↔ is_global_max magnitude m)).
Proof.
  intros H.
  specialize (H example_map 2%nat 2%nat (replicate 16 255) 1%nat 5%float
                example_map_nonneg_finite eq_refl).
  assert (thresholdEdges example_map 2 2 255 = Some (replicate 16 255)) as Hout
    by (vm_compute; reflexivity).
  specialize (H Hout eq_refl).
  assert (is_global_max example_map 5%float) as Hmax.
  { split; [right; left|].
    intros m' Hin. unfold example_map in Hin.
    repeat (apply elem_of_cons in Hin; destruct Hin as [->|Hin]; [reflexivity|]).
    by apply elem_of_nil in Hin. }
  apply H in Hmax. vm_compute in Hmax. discriminate.
Qed.

(** * The pure black-and-white invariant *)

Lemma is_bw_render cutoff (l : list float) : is_bw (l ≫= render cutoff).
Proof.
  split.
  - exists (length l). rewrite length_bind_render. lia.
  - rewrite pixels_bind_render. apply Forall_fmap, Forall_forall.
    intros m _. simpl. unfold render_pixel.
    by destruct (is_edge cutoff m).
Qed.

Lemma thresholdEdges_Some_dims magnitude width height threshold output :
  thresholdEdges magnitude width height threshold = Some output →
  (0 < width)%nat ∧ (0 < height)%nat.
Proof.
  unfold thresholdEdges.
  destruct (decide (width = 0 ∨ height = 0)%nat) as [?|Hn]; [done|]. lia.
Qed.

Lemma is_bw_pixels data :
  is_bw data → Forall (λ p, p = black ∨ p = white) (pixels data).
Proof.
  intros [_ Hall]. revert Hall. apply Forall_impl.
  intros p Hp. by apply is_bw_pixel_spec.
Qed.

(** C8. Every pixel of the binarizer's output is pure black (0,0,0,255) or
    pure white (255,255,255,255); a dilation pass over such a buffer gives
    such a buffer again; so the output after any number of dilation passes
    holds only these two pixel values. *)
Theorem black_white_invariant :
  (∀ magnitude width height threshold output,
     length magnitude = (width * height)%nat →
     thresholdEdges magnitude width height threshold = Some output →
     is_bw output ∧ Forall (λ p, p = black ∨ p = white) (pixels output)) ∧
  (∀ data width height,
     is_bw data →
     is_bw (dilate data width height) ∧
     Forall (λ p, p = black ∨ p = white) (pixels (dilate data width height))) ∧
  (∀ thickness magnitude width height threshold output,
     length magnitude = (width * height)%nat →
     thresholdEdges magnitude width height threshold = Some output →
     Forall (λ p, p = black ∨ p = white)
            (pixels (dilate_passes thickness output width height))).
Proof.
  assert (∀ magnitude width height threshold output,
            length magnitude = (width * height)%nat →
            thresholdEdges magnitude width height threshold = Some output →
            is_bw output) as Hbin.
  { intros magnitude width height threshold output Hlen Hout.
    destruct (thresholdEdges_Some_dims _ _ _ _ _ Hout) as [Hw Hh].
    rewrite thresholdEdges_eq in Hout by done.
    injection Hout as <-. apply is_bw_render. }
  split; [|split].
  - intros magnitude width height threshold output Hlen Hout.
    pose proof (Hbin _ _ _ _ _ Hlen Hout) as Hbw.
    split; [done|by apply is_bw_pixels].
  - intros data width height Hbw.
    pose proof (dilate_preserves_bw data width height Hbw) as Hbw'.
    split; [done|by apply is_bw_pixels].
  - intros thickness magnitude width height threshold output Hlen Hout.
    apply is_bw_pixels, dilate_passes_preserves_bw.
    by apply (Hbin magnitude width height threshold).
Qed.

(** * The conversion handler *)

(** C9. With the remote path selected (high quality chosen and the service
    reported available): a successful remote call stores its result; when the
    remote call fails, the handler runs the local pipeline, and a local
    success is stored and the fallback notice shown; only when the local
    pipeline fails too is the failure reported, and then the line art on
    display and the colouring layer are as they were.  In every case the
    converting flag is cleared.  The remote call fails whenever the request
    is rejected or the response is not ok. *)
Theorem handleConvert_fallback :
  (∀ file remote local st,
     let st' := handleConvert (Some file) HQ (Some true) remote local st in
     isConverting st' = false ∧
     match remote, local 0%nat with
     | Ok dataUrl, _ =>
         lineArtSrc st' = Some dataUrl ∧ drawing st' = [] ∧
         alerts st' = alerts st
     | Err _, Ok dataUrl =>
         lineArtSrc st' = Some dataUrl ∧ drawing st' = [] ∧
         alerts st' = alerts st ++ [notice_fallback]
     | Err _, Err _ =>
         lineArtSrc st' = lineArtSrc st ∧ drawing st' = drawing st ∧
         alerts st' = alerts st ++ [notice_failure]
     end) ∧
  (∀ base64 e, convertWithAPI (Ok base64) (Err e) = Err e) ∧
  (∀ base64 resp,
     resp_ok resp = false → ∃ e, convertWithAPI (Ok base64) (Ok resp) = Err e).
Proof.
  split; [|split].
  - intros file remote local st. unfold handleConvert. cbn zeta.
    destruct remote as [url|e]; [by cbn|].
    destruct (local 0%nat) as [url|e']; by cbn.
  - reflexivity.
  - intros base64 resp Hok. unfold convertWithAPI. rewrite Hok. cbn [negb].
    destruct (resp_json resp) as [j|];
      [destruct (String.eqb (json_detail j) "")|]; eauto.
Qed.

(** * Dilation only adds black *)

Lemma dilate_min_black data width y x :
  is_bw data → data !! px_index width y x = Some 0 →
  dilate_min data width y x = 0.
Proof.
  intros Hbw H0.
  destruct (dilate_min_bw data width y x Hbw) as [?|H255]; [done|].
  rewrite dilate_min_foldl in *.
  destruct (foldl_min_step_le 255 (chan_at data width 0 <$> neighbourhood y x))
    as (_ & Hall & _).
  assert (Some 0 ∈ chan_at data width 0 <$> neighbourhood y x) as Hin.
  { apply list_elem_of_fmap. exists (y, x). split.
    - unfold chan_at. simpl. by rewrite Nat.add_0_r.
    - unfold neighbourhood. do 4 right. left. }
  apply Hall in Hin. lia.
Qed.

Lemma dilate_keeps_black data width height p :
  is_bw data → pixels data !! p = Some black →
  pixels (dilate data width height) !! p = Some black.
Proof.
  intros Hbw Hpx. pose proof Hbw as [[n Hlen] Hall].
  apply pixels_lookup in Hpx. destruct Hpx as (Hr & Hg & Hb & Ha).
  apply pixels_lookup. rewrite dilate_pixel_pass.
  assert (4 * p + 3 < length data)%nat as Hlt by (by apply lookup_lt_Some in Ha).
  destruct (decide (((p / width)%nat, (p mod width)%nat) ∈ interior width height))
    as [Hin|Hnot].
  - assert (0 < width)%nat as Hw.
    { apply elem_of_interior in Hin. lia. }
    pose proof (interior_pixel_number _ _ _ Hw Hin) as Hidx.
    apply elem_of_interior in Hin.
    assert (dilate_min data width (p / width)%nat (p mod width)%nat = 0) as Hmin.
    { apply dilate_min_black; [done|]. by rewrite Hidx. }
    split; [|split; [|split]].
    + replace (4 * p)%nat
        with (px_index width (p / width)%nat (p mod width)%nat + 0)%nat by lia.
      rewrite pixel_pass_interior by (done || lia). by rewrite Hmin.
    + replace (4 * p + 1)%nat
        with (px_index width (p / width)%nat (p mod width)%nat + 1)%nat by lia.
      rewrite pixel_pass_interior by (done || lia). by rewrite Hmin.
    + replace (4 * p + 2)%nat
        with (px_index width (p / width)%nat (p mod width)%nat + 2)%nat by lia.
      rewrite pixel_pass_interior by (done || lia). by rewrite Hmin.
    + rewrite pixel_pass_other; [done|].
      intros y x c Hint Hc Heq. unfold px_index in Heq. lia.
  - rewrite !pixel_pass_other; [done|..].
    + intros y x c Hint Hc.
      apply (not_interior_cell width height p y x c 3); (done || lia).
    + intros y x c Hint Hc.
      apply (not_interior_cell width height p y x c 2); (done || lia).
    + intros y x c Hint Hc.
      apply (not_interior_cell width height p y x c 1); (done || lia).
    + intros y x c Hint Hc.
      apply (not_interior_cell width height p y x c 0); (done || lia).
Qed.

Lemma length_pixels data : length (pixels data) = (length data / 4)%nat.
Proof.
  remember (length data) as n eqn:Hn. revert data Hn.
  induction n as [n IH] using lt_wf_ind. intros data Hn.
  destruct (decide (length data < 4)%nat) as [Hs|Hl].
  - rewrite pixels_short by done. subst. by rewrite Nat.div_small.
  - destruct data as [|r [|g [|b [|a rest]]]]; simpl in Hl; try lia.
    change (pixels (r :: g :: b :: a :: rest)) with ((r, g, b, a) :: pixels rest).
    rewrite length_cons, (IH (length rest) ltac:(subst; simpl; lia) rest eq_refl).
    subst n. rewrite !length_cons.
    replace (S (S (S (S (length rest))))) with (1 * 4 + length rest)%nat by lia.
    rewrite Nat.div_add_l by lia. lia.
Qed.

(** Pointwise more black pixels, more black pixels in total. *)
Lemma count_filter_pointwise {A : Type} (P : A → Prop)
    `{!∀ x, Decision (P x)} (l1 l2 : list A) :
  length l1 = length l2 →
  (∀ i x, l1 !! i = Some x → P x → ∃ y, l2 !! i = Some y ∧ P y) →
  (length (filter P l1) ≤ length (filter P l2))%nat.
Proof.
  revert l2. induction l1 as [|x l1 IH]; intros [|y l2] Hlen Hpt;
    simpl in Hlen; try done.
  rewrite !filter_cons.
  assert (length (filter P l1) ≤ length (filter P l2))%nat as Hrec.
  { apply IH; [lia|]. intros i z Hz HP. apply (Hpt (S i) z Hz HP). }
  destruct (decide (P x)) as [Hx|Hx].
  - destruct (Hpt 0%nat x eq_refl Hx) as (y' & [= <-] & Hy).
    rewrite decide_True by done. simpl. lia.
  - destruct (decide (P y)); simpl; lia.
Qed.

Lemma count_black_dilate data width height :
  is_bw data →
  (count_black data ≤ count_black (dilate data width height))%nat.
Proof.
  intros Hbw. unfold count_black. apply count_filter_pointwise.
  - rewrite !length_pixels. by rewrite dilate_pixel_pass, length_pixel_pass.
  - intros i x Hx ->. exists black. split; [|done].
    by apply dilate_keeps_black.
Qed.

(** X4. Dilation never removes a line: over a black-and-white buffer, a pixel
    that is black stays black through any number of passes, and the number of
    black pixels never decreases from one pass to the next. *)
Theorem dilate_only_adds_black (data : list Z) (width height : nat) :
  is_bw data →
  (∀ n p, pixels data !! p = Some black →
          pixels (dilate_passes n data width height) !! p = Some black) ∧
  (∀ n, (count_black (dilate_passes n data width height)
         ≤ count_black (dilate_passes (S n) data width height))%nat) ∧
  (∀ n, (count_black data
         ≤ count_black (dilate_passes n data width height))%nat).
Proof.
  intros Hbw. split; [|split].
  - intros n p Hp. induction n as [|n IH]; [done|].
    rewrite dilate_passes_S. apply dilate_keeps_black; [|done].
    by apply dilate_passes_preserves_bw.
  - intros n. rewrite dilate_passes_S. apply count_black_dilate.
    by apply dilate_passes_preserves_bw.
  - intros n. induction n as [|n IH]; [done|].
    rewrite dilate_passes_S. etrans; [exact IH|].
    apply count_black_dilate. by apply dilate_passes_preserves_bw.
Qed.

(** * Passes that change nothing *)

Lemma list_insert_same {A : Type} (l : list A) i v :
  ((i < length l)%nat → l !! i = Some v) → <[i := v]> l = l.
Proof.
  intros H. destruct (decide (i < length l)%nat) as [Hlt|Hge].
  - apply list_insert_id. by apply H.
  - apply list_insert_ge. lia.
Qed.

Lemma foldl_write_rgb_id width val ks data :
  (∀ y x c, (y, x) ∈ ks → (c < 3)%nat →
     (px_index width y x + c < length data)%nat →
     data !! (px_index width y x + c)%nat = Some (val y x c)) →
  foldl (write_rgb width val) data ks = data.
Proof.
  induction ks as [|[y x] ks IH]; intros H; simpl; [done|].
  assert (write_rgb width val data (y, x) = data) as ->.
  { unfold write_rgb. simpl.
    pose proof (H y x 0%nat ltac:(left) ltac:(lia)) as H0.
    pose proof (H y x 1%nat ltac:(left) ltac:(lia)) as H1.
    pose proof (H y x 2%nat ltac:(left) ltac:(lia)) as H2.
    rewrite Nat.add_0_r in H0.
    rewrite (list_insert_same data _ _ H0).
    rewrite (list_insert_same data _ _ H1).
    by rewrite (list_insert_same data _ _ H2). }
  apply IH. intros y' x' c Hin. apply H. by right.
Qed.

Lemma pixel_pass_id val width height data :
  (∀ y x c,
     (1 ≤ y ∧ y + 1 < height ∧ 1 ≤ x ∧ x + 1 < width)%nat → (c < 3)%nat →
     (px_index width y x + c < length data)%nat →
     data !! (px_index width y x + c)%nat = Some (val y x c)) →
  pixel_pass val width height data = data.
Proof.
  intros H. unfold pixel_pass. apply foldl_write_rgb_id.
  intros y x c Hin. apply H. by apply elem_of_interior.
Qed.

(** ** Buffers of one colour *)

Lemma uniform_lookup r g b data p c :
  uniform r g b data → (4 * p + 3 < length data)%nat → (c < 3)%nat →
  data !! (4 * p + c)%nat = Some (chan_of r g b c).
Proof.
  intros Hu Hlt Hc.
  destruct (lookup_lt_is_Some_2 data (4 * p)%nat ltac:(lia)) as [r' Hr].
  destruct (lookup_lt_is_Some_2 data (4 * p + 1)%nat ltac:(lia)) as [g' Hg].
  destruct (lookup_lt_is_Some_2 data (4 * p + 2)%nat ltac:(lia)) as [b' Hb].
  destruct (lookup_lt_is_Some_2 data (4 * p + 3)%nat ltac:(lia)) as [a' Ha].
  assert (pixels data !! p = Some (r', g', b', a')) as Hpx
    by (by apply pixels_lookup).
  apply (Forall_lookup_1 _ _ _ _ Hu) in Hpx.
  destruct Hpx as (Hr' & Hg' & Hb'). simpl in *. subst.
  assert (c = 0 ∨ c = 1 ∨ c = 2)%nat as [-> | [-> | ->]] by lia; simpl;
    [by rewrite Nat.add_0_r|done|done].
Qed.

Lemma chan_at_uniform r g b data width height c k :
  length data = (4 * (width * height))%nat → uniform r g b data →
  (k.1 < height)%nat → (k.2 < width)%nat → (c < 3)%nat →
  chan_at data width c k = Some (chan_of r g b c).
Proof.
  intros Hlen Hu Hy Hx Hc. unfold chan_at, px_index.
  replace ((k.1 * width + k.2) * 4 + c)%nat
    with (4 * (k.1 * width + k.2) + c)%nat by lia.
  apply uniform_lookup; [done| |done].
  pose proof (cell_lt width height k.1 k.2 Hy Hx). lia.
Qed.

Lemma neighbourhood_bounds y x k :
  k ∈ neighbourhood y x → (k.1 ≤ y + 1 ∧ k.2 ≤ x + 1)%nat.
Proof.
  unfold neighbourhood. intros Hk.
  repeat (apply elem_of_cons in Hk; destruct Hk as [->|Hk]; [simpl; lia|]).
  by apply elem_of_nil in Hk.
Qed.

Lemma sum_list_Z_omap_const {A : Type} (f : A → option Z) (l : list A) v :
  (∀ k, k ∈ l → f k = Some v) →
  sum_list_Z (omap f l) = Z.of_nat (length l) * v.
Proof.
  induction l as [|a l IH]; intros H; [unfold sum_list_Z; simpl; lia|].
  assert (omap f (a :: l) = v :: omap f l) as ->
    by (simpl; rewrite (H a ltac:(left)); done).
  rewrite sum_list_Z_cons, IH by (intros k Hk; apply H; by right).
  rewrite length_cons. lia.
Qed.

Lemma blur_sum_uniform r g b data width height y x c :
  length data = (4 * (width * height))%nat → uniform r g b data →
  (1 ≤ y ∧ y + 1 < height ∧ 1 ≤ x ∧ x + 1 < width)%nat → (c < 3)%nat →
  blur_sum data width y x c = Some (9 * chan_of r g b c).
Proof.
  intros Hlen Hu Hint Hc.
  rewrite (blur_sum_in_range data width height) by (done || lia).
  unfold neighbourhood_chan.
  rewrite (sum_list_Z_omap_const _ _ (chan_of r g b c)); [done|].
  intros k Hk. apply neighbourhood_bounds in Hk.
  apply (chan_at_uniform r g b data width height); (done || lia).
Qed.

Lemma is_byte_chan_of r g b c :
  is_byte r → is_byte g → is_byte b → is_byte (chan_of r g b c).
Proof. intros. by destruct c as [|[|c]]. Qed.

Lemma boxBlur_uniform r g b data width height :
  length data = (4 * (width * height))%nat → uniform r g b data →
  is_byte r → is_byte g → is_byte b →
  boxBlur data width height = data.
Proof.
  intros Hlen Hu Hr Hg Hb. rewrite boxBlur_pixel_pass.
  apply pixel_pass_id. intros y x c Hint Hc Hlt.
  rewrite (blur_sum_uniform r g b data width height) by done.
  pose proof (is_byte_chan_of r g b c Hr Hg Hb) as Hv. unfold is_byte in Hv.
  rewrite blur_store_nearest by lia.
  replace ((9 * chan_of r g b c + 4) / 9) with (chan_of r g b c).
  2:{ apply Z.div_unique with 4; lia. }
  unfold px_index.
  replace ((y * width + x) * 4 + c)%nat with (4 * (y * width + x) + c)%nat by lia.
  apply uniform_lookup; [done| |done].
  pose proof (cell_lt width height y x ltac:(lia) ltac:(lia)). lia.
Qed.

Lemma blur_passes_uniform n r g b data width height :
  length data = (4 * (width * height))%nat → uniform r g b data →
  is_byte r → is_byte g → is_byte b →
  blur_passes n data width height = data.
Proof.
  intros Hlen Hu Hr Hg Hb. induction n as [|n IH]; [done|].
  rewrite blur_passes_S, IH. by apply (boxBlur_uniform r g b).
Qed.

(** ** The Sobel map of a buffer of one colour *)

Lemma sobel_magnitude_zero : sobel_magnitude (Some (0, 0)) = 0%float.
Proof. vm_compute. reflexivity. Qed.

Lemma red_uniform r g b data width height y x :
  length data = (4 * (width * height))%nat → uniform r g b data →
  (y < height)%nat → (x < width)%nat →
  red data width y x = r.
Proof.
  intros Hlen Hu Hy Hx. unfold red. apply list_lookup_total_correct.
  pose proof (chan_at_uniform r g b data width height 0 (y, x) Hlen Hu Hy Hx
                ltac:(lia)) as H.
  unfold chan_at in H. simpl in H. by rewrite Nat.add_0_r in H.
Qed.

Lemma sobel_window_uniform r g b data width height y x :
  length data = (4 * (width * height))%nat → uniform r g b data →
  (1 ≤ y ∧ y + 1 < height ∧ 1 ≤ x ∧ x + 1 < width)%nat →
  (sobel_window data width y x).1 = Some (0, 0).
Proof.
  intros Hlen Hu Hint.
  rewrite (sobel_window_in_range data width height) by done.
  unfold convolve, sum_list_Z. simpl.
  rewrite !(red_uniform r g b data width height) by (done || lia).
  do 2 f_equal; lia.
Qed.

Lemma foldl_write_mag_zero width f ks n :
  (∀ y x, (y, x) ∈ ks → f y x = 0%float) →
  foldl (write_mag width f) (replicate n 0%float) ks = replicate n 0%float.
Proof.
  induction ks as [|[y x] ks IH]; intros H; simpl; [done|].
  unfold write_mag at 2. simpl. rewrite (H y x ltac:(left)).
  rewrite insert_replicate. apply IH. intros y' x' Hin. apply H. by right.
Qed.

Lemma sobelEdge_uniform r g b data width height :
  length data = (4 * (width * height))%nat → uniform r g b data →
  sobelEdge data width height = replicate (width * height) 0%float.
Proof.
  intros Hlen Hu. rewrite sobelEdge_foldl. apply foldl_write_mag_zero.
  intros y x Hin. apply elem_of_interior in Hin.
  rewrite (sobel_window_uniform r g b data width height) by done.
  apply sobel_magnitude_zero.
Qed.

(** * Magnitudes that are never edges *)

Lemma Prim2SF_zero : Prim2SF 0%float = S754_zero false.
Proof. reflexivity. Qed.

Lemma SFltb_finish_zero z E : SFltb (finish z E) (S754_zero false) = false.
Proof.
  unfold finish. destruct (shr_fexp prec emax z E loc_Exact) as [mrs e].
  destruct (shr_m mrs); [done| |done].
  by destruct (e <=? emax - prec).
Qed.

(** The product of a non-negative finite number and a number that is not
    below zero is not below zero (it may be NaN). *)
Lemma SFmul_not_below_zero x y :
  SFnn x = true → SFnot_below y = true →
  SFltb (SFmul prec emax x y) (S754_zero false) = false.
Proof.
  intros Hx Hy.
  destruct x as [sx|sx| |sx mx ex], y as [sy|sy| |sy my ey];
    cbn [SFnn SFnot_below] in Hx, Hy; try done; cbn [SFmul].
  all: try apply negb_true_iff in Hx; try apply negb_true_iff in Hy; subst;
    cbn [xorb]; try done; try (by destruct sx); try (by destruct sy).
  rewrite binary_round_aux_finish. apply SFltb_finish_zero.
Qed.

Lemma max_step_not_below a m :
  SFnot_below (Prim2SF a) = true →
  SFnot_below (Prim2SF (max_step a m)) = true.
Proof.
  intros Ha. unfold max_step. rewrite FloatAxioms.ltb_spec.
  destruct (SFltb (Prim2SF a) (Prim2SF m)) eqn:E; [|done].
  unfold SFltb, SFcompare in E.
  destruct (Prim2SF a) as [sa|sa| |sa ma ea], (Prim2SF m) as [sm|sm| |sm mm em];
    cbn [SFnot_below] in *; try done.
  all: try (by destruct sm); try (by destruct sa); try (by destruct sa, sm).
Qed.

Lemma max_magnitude_not_below magnitude :
  SFnot_below (Prim2SF (max_magnitude magnitude)) = true.
Proof.
  rewrite max_magnitude_foldl.
  assert (∀ init, SFnot_below (Prim2SF init) = true →
            SFnot_below (Prim2SF (foldl max_step init magnitude)) = true) as H.
  { induction magnitude as [|m l IH]; intros init Hinit; simpl; [done|].
    apply IH. by apply max_step_not_below. }
  by apply H.
Qed.

Lemma is_edge_zero threshold magnitude s m :
  0 ≤ threshold ≤ 255 → Prim2SF m = S754_zero s →
  is_edge (normalized_threshold threshold (max_magnitude magnitude)) m = false.
Proof.
  intros Ht Hm. unfold is_edge, normalized_threshold.
  rewrite FloatAxioms.ltb_spec, FloatAxioms.mul_spec, Hm.
  fold (threshold_ratio threshold).
  pose proof (threshold_ratio_nonneg_finite threshold Ht) as Hr.
  pose proof (SFmul_not_below_zero _ _ Hr (max_magnitude_not_below magnitude))
    as H.
  unfold SF64mul. unfold SFltb, SFcompare in *.
  destruct (SFmul prec emax (Prim2SF (threshold_ratio threshold))
              (Prim2SF (max_magnitude magnitude))) as [s'|s'| |s' m' e'];
    done.
Qed.

Lemma is_edge_nan cutoff m : Prim2SF m = S754_nan → is_edge cutoff m = false.
Proof.
  intros Hm. unfold is_edge. rewrite FloatAxioms.ltb_spec, Hm.
  unfold SFltb, SFcompare. by destruct (Prim2SF cutoff).
Qed.

Lemma render_pixel_white cutoff m :
  is_edge cutoff m = false → render_pixel cutoff m = white.
Proof. unfold render_pixel. by intros ->. Qed.

(** X3. The binarizer on any magnitude map, entries that are infinite or NaN
    included: for every threshold 0..255 a pixel whose magnitude is zero or
    NaN is white. *)
Theorem thresholdEdges_zero_white (magnitude : list float)
    (width height : nat) (threshold : Z) :
  length magnitude = (width * height)%nat →
  (0 < width)%nat → (0 < height)%nat → 0 ≤ threshold ≤ 255 →
  ∃ output,
    thresholdEdges magnitude width height threshold = Some output ∧
    ∀ i m, magnitude !! i = Some m →
           (∃ s, Prim2SF m = S754_zero s) ∨ Prim2SF m = S754_nan →
           pixels output !! i = Some white.
Proof.
  intros Hlen Hw Hh Ht. eexists. split; [by apply thresholdEdges_eq|].
  intros i m Hi Hm. rewrite pixels_bind_render, list_lookup_fmap, Hi. simpl.
  f_equal. apply render_pixel_white.
  destruct Hm as [[s Hs]|Hnan];
    [by apply (is_edge_zero _ _ s)|by apply is_edge_nan].
Qed.

(** * Loops over whole pixels *)

Lemma unpixels_cons px ps : unpixels (px :: ps) = channels px ++ unpixels ps.
Proof. reflexivity. Qed.

Lemma unpixels_app ps qs : unpixels (ps ++ qs) = unpixels ps ++ unpixels qs.
Proof. unfold unpixels. apply bind_app. Qed.

Lemma length_unpixels ps : length (unpixels ps) = (4 * length ps)%nat.
Proof.
  induction ps as [|[[[r g] b] a] ps IH]; [done|].
  rewrite unpixels_cons, length_app, IH. simpl. lia.
Qed.

Lemma pixels_unpixels ps : pixels (unpixels ps) = ps.
Proof.
  induction ps as [|[[[r g] b] a] ps IH]; [done|].
  rewrite unpixels_cons. simpl. by rewrite IH.
Qed.

Lemma unpixels_pixels data n :
  length data = (4 * n)%nat → unpixels (pixels data) = data.
Proof.
  revert data. induction n as [|n IH]; intros data Hlen.
  - by destruct data.
  - destruct data as [|r [|g [|b [|a rest]]]]; simpl in Hlen; try lia.
    change (pixels (r :: g :: b :: a :: rest)) with ((r, g, b, a) :: pixels rest).
    rewrite unpixels_cons, IH by lia. done.
Qed.

(** A loop stepping by four whose body rewrites the pixel at its counter
    rewrites every pixel. *)
Lemma for_step4_pixels (F : Z * Z * Z * Z → Z * Z * Z * Z)
    (body : nat → list Z → list Z) (ps : list (Z * Z * Z * Z)) :
  (∀ pre px post,
     body (length pre) (pre ++ channels px ++ post)
     = pre ++ channels (F px) ++ post) →
  for_step4 (length (unpixels ps)) body (unpixels ps) = unpixels (F <$> ps).
Proof.
  intros Hbody. unfold for_step4. rewrite length_unpixels.
  replace ((4 * length ps + 3) / 4)%nat with (length ps).
  2:{ apply Nat.div_unique with 3%nat; lia. }
  assert (∀ k, (k ≤ length ps)%nat →
            foldl (λ acc p, body (4 * p)%nat acc) (unpixels ps) (seq 0 k)
            = unpixels (F <$> take k ps) ++ unpixels (drop k ps)) as H.
  { induction k as [|k IH]; intros Hk.
    - by rewrite take_0, drop_0.
    - rewrite seq_S, foldl_app, IH by lia. cbn [foldl]. rewrite Nat.add_0_l.
      destruct (lookup_lt_is_Some_2 ps k ltac:(lia)) as [px Hpx].
      rewrite (drop_S _ _ _ Hpx), (take_S_r _ _ _ Hpx).
      rewrite fmap_app, unpixels_app, !unpixels_cons.
      replace (4 * k)%nat with (length (unpixels (F <$> take k ps))).
      2:{ rewrite length_unpixels, length_fmap, length_take. lia. }
      rewrite Hbody. rewrite <- app_assoc. f_equal.
      change (F <$> [px]) with [F px].
      rewrite unpixels_cons. change (unpixels []) with (@nil Z).
      by rewrite app_nil_r. }
  rewrite H by lia. by rewrite firstn_all, drop_all, app_nil_r.
Qed.

(** * Grey levels *)

Lemma grayscale_body pre px post :
  (let i := length pre in
   let data := pre ++ channels px ++ post in
   let gray :=
     gray_value (data !! i) (data !! (i + 1)%nat) (data !! (i + 2)%nat) in
   <[(i + 2)%nat := gray]> (<[(i + 1)%nat := gray]> (<[i := gray]> data)))
  = pre ++ channels (gray_pixel px) ++ post.
Proof.
  destruct px as [[[r g] b] a]. cbv zeta. unfold channels, gray_pixel.
  assert ((pre ++ [r; g; b; a] ++ post) !! length pre = Some r) as ->.
  { rewrite lookup_app_r by lia.
    by replace (length pre - length pre)%nat with 0%nat by lia. }
  assert ((pre ++ [r; g; b; a] ++ post) !! (length pre + 1)%nat = Some g) as ->.
  { rewrite lookup_app_r by lia.
    by replace (length pre + 1 - length pre)%nat with 1%nat by lia. }
  assert ((pre ++ [r; g; b; a] ++ post) !! (length pre + 2)%nat = Some b) as ->.
  { rewrite lookup_app_r by lia.
    by replace (length pre + 2 - length pre)%nat with 2%nat by lia. }
  set (v := gray_value (Some r) (Some g) (Some b)).
  rewrite !insert_app_r_alt by lia.
  replace (length pre - length pre)%nat with 0%nat by lia.
  replace (length pre + 1 - length pre)%nat with 1%nat by lia.
  replace (length pre + 2 - length pre)%nat with 2%nat by lia.
  done.
Qed.

Lemma grayscale_unpixels ps :
  grayscale (unpixels ps) = unpixels (gray_pixel <$> ps).
Proof.
  unfold grayscale. apply for_step4_pixels. intros pre px post.
  apply grayscale_body.
Qed.

Lemma toUint8Clamp_byte x : is_byte (toUint8Clamp x).
Proof.
  unfold toUint8Clamp, is_byte.
  destruct (Prim2SF x) as [s|s| |s m e]; try lia.
  - destruct s; lia.
  - destruct s; [lia|]. destruct (0 <=? e) eqn:He.
    + assert (0 < 2 ^ e) by (apply Z.pow_pos_nonneg; lia). nia.
    + assert (0 < 2 ^ (- e)) by (apply Z.pow_pos_nonneg; lia).
      assert (0 ≤ Z.pos m / 2 ^ (- e)) by (apply Z.div_pos; lia).
      destruct (2 * (Z.pos m mod 2 ^ (- e)) ?= 2 ^ (- e)); [|lia..].
      destruct (Z.even (Z.pos m / 2 ^ (- e))); lia.
Qed.

Lemma gray_value_byte r g b : is_byte (gray_value r g b).
Proof.
  unfold gray_value. destruct r, g, b; try (unfold is_byte; lia).
  apply toUint8Clamp_byte.
Qed.

(** The grey level of a grey pixel is its level, for each of the 256
    levels. *)
Lemma gray_value_table :
  forallb (λ v, gray_value (Some (Z.of_nat v)) (Some (Z.of_nat v))
                  (Some (Z.of_nat v)) =? Z.of_nat v)
          (seq 0 256) = true.
Proof. vm_compute. reflexivity. Qed.

Lemma gray_value_grey v :
  is_byte v → gray_value (Some v) (Some v) (Some v) = v.
Proof.
  intros Hv. unfold is_byte in Hv. pose proof gray_value_table as Htab.
  rewrite forallb_forall in Htab.
  specialize (Htab (Z.to_nat v)). rewrite Z2Nat.id in Htab by lia.
  apply Z.eqb_eq, Htab, in_seq. lia.
Qed.

Lemma gray_pixel_idemp px : gray_pixel (gray_pixel px) = gray_pixel px.
Proof.
  destruct px as [[[r g] b] a]. unfold gray_pixel.
  by rewrite gray_value_grey by apply gray_value_byte.
Qed.

(** X2. [grayscale] over a buffer of whole pixels: every pixel [(r, g, b, a)]
    becomes [(v, v, v, a)], where [v] is the stored value of
    [0.299 r + 0.587 g + 0.114 b], a byte; the alpha channel and the length
    are kept.  A grey pixel keeps its level, so a second application changes
    nothing. *)
Theorem grayscale_contract (data : list Z) (n : nat) :
  length data = (4 * n)%nat →
  pixels (grayscale data) = gray_pixel <$> pixels data ∧
  length (grayscale data) = length data ∧
  (∀ p r g b a,
     pixels data !! p = Some (r, g, b, a) →
     ∃ v, is_byte v ∧
          v = toUint8Clamp (0x1.322d0e5604189p-2 * Z2float r
                            + 0x1.2c8b439581062p-1 * Z2float g
                            + 0x1.d2f1a9fbe76c9p-4 * Z2float b)%float ∧
          pixels (grayscale data) !! p = Some (v, v, v, a)) ∧
  (∀ v, is_byte v → gray_pixel (v, v, v, 255) = (v, v, v, 255)) ∧
  grayscale (grayscale data) = grayscale data.
Proof.
  intros Hlen. pose proof (unpixels_pixels data n Hlen) as Hdata.
  assert (grayscale data = unpixels (gray_pixel <$> pixels data)) as Hg
    by (by rewrite <- grayscale_unpixels, Hdata).
  split; [by rewrite Hg, pixels_unpixels|]. split.
  { rewrite Hg, length_unpixels, length_fmap, <- length_unpixels. by rewrite Hdata. }
  split; [|split].
  - intros p r g b a Hp. eexists. split; [|split; [reflexivity|]].
    + apply toUint8Clamp_byte.
    + rewrite Hg, pixels_unpixels, list_lookup_fmap, Hp. done.
  - intros v Hv. unfold gray_pixel. by rewrite gray_value_grey.
  - rewrite Hg at 1. rewrite grayscale_unpixels, Hg. f_equal.
    rewrite <- list_fmap_compose. apply list_fmap_ext.
    intros i px _. apply gray_pixel_idemp.
Qed.

(** * Binary64 addition *)

Lemma shl_align_value mx ex ez :
  ez ≤ ex →
  (IZR (Z.pos (shl_align mx ex ez).1) * bpow ez
   = IZR (Z.pos mx) * bpow ex)%R.
Proof.
  intros H. unfold shl_align. destruct (ez - ex) as [|d|d] eqn:E.
  - assert (ez = ex) as -> by lia. done.
  - lia.
  - cbn [fst]. rewrite Pos_iter_xO, mult_IZR, <- bpow_IZR by lia.
    rewrite Rmult_assoc, <- bpow_add. do 2 f_equal. lia.
Qed.

Lemma SFadd_rounds x y :
  valid_binary x = true → valid_binary y = true →
  SFnn x = true → SFnn y = true →
  ∃ v, rounds_to (SF2R x + SF2R y) v ∧
       ((v < bpow 1024)%R →
        valid_binary (SFadd prec emax x y) = true ∧
        SFnn (SFadd prec emax x y) = true ∧
        SF2R (SFadd prec emax x y) = v).
Proof.
  intros Vx Vy Nx Ny.
  destruct (SFnn_cases x Nx) as [[sx ->]|(mx & ex & ->)];
    destruct (SFnn_cases y Ny) as [[sy ->]|(my & ey & ->)].
  - exists 0%R. split; [left; cbn [SF2R]; lra|]. intros _.
    cbn [SFadd]. by destruct sx, sy.
  - exists (SF2R (S754_finite false my ey)). split.
    + replace (SF2R (S754_zero sx) + SF2R (S754_finite false my ey))%R
        with (SF2R (S754_finite false my ey)) by (cbn [SF2R]; lra).
      by apply rounds_to_self, SF2R_representable.
    + intros _. cbn [SFadd]. done.
  - exists (SF2R (S754_finite false mx ex)). split.
    + replace (SF2R (S754_finite false mx ex) + SF2R (S754_zero sy))%R
        with (SF2R (S754_finite false mx ex)) by (cbn [SF2R]; lra).
      by apply rounds_to_self, SF2R_representable.
    + intros _. cbn [SFadd]. done.
  - cbn [SFadd cond_Zopp].
    pose proof (shl_align_value mx ex (Z.min ex ey) ltac:(lia)) as Hx.
    pose proof (shl_align_value my ey (Z.min ex ey) ltac:(lia)) as Hy.
    change (IntDef.Z.min ex ey) with (Z.min ex ey).
    set (ez := Z.min ex ey) in *.
    set (a := (shl_align mx ex ez).1) in *.
    set (b := (shl_align my ey ez).1) in *.
    change (Z.pos a + Z.pos b) with (Z.pos (a + b)). cbn [binary_normalize].
    destruct (binary_round_rounds (a + b) ez) as (v & Hv & Hres).
    exists v. split; [|exact Hres].
    replace (SF2R (S754_finite false mx ex) + SF2R (S754_finite false my ey))%R
      with (IZR (Z.pos (a + b)) * bpow ez)%R; [done|].
    rewrite Pos2Z.inj_add, plus_IZR, Rmult_plus_distr_r, Hx, Hy.
    cbn [SF2R]. done.
Qed.

Lemma add_rounds x y :
  nonneg_finite x → nonneg_finite y →
  ∃ v, rounds_to (F2R x + F2R y) v ∧
       ((v < bpow 1024)%R → nonneg_finite (x + y) ∧ F2R (x + y) = v).
Proof.
  intros Hx Hy.
  destruct (SFadd_rounds (Prim2SF x) (Prim2SF y)
              (Prim2SF_valid x) (Prim2SF_valid y) Hx Hy) as (v & Hv & Hres).
  exists v. split; [done|]. intros Hov. destruct (Hres Hov) as (_ & Hnn & Hval).
  unfold nonneg_finite, nonneg_finiteb, F2R. rewrite FloatAxioms.add_spec. done.
Qed.

(** A sum that does not exceed a finite number does not overflow. *)
Lemma add_rounds_le x y c :
  nonneg_finite x → nonneg_finite y → nonneg_finite c →
  (F2R x + F2R y <= F2R c)%R →
  nonneg_finite (x + y) ∧ rounds_to (F2R x + F2R y) (F2R (x + y)) ∧
  (F2R (x + y) <= F2R c)%R.
Proof.
  intros Hx Hy Hc Hle. destruct (add_rounds x y Hx Hy) as (v & Hv & Hres).
  pose proof (F2R_nonneg x Hx). pose proof (F2R_nonneg y Hy).
  assert (v <= F2R c)%R as Hvc.
  { apply (rounds_to_le _ (F2R x + F2R y)); [by apply F2R_representable| |done].
    split; [lra|done]. }
  pose proof (F2R_lt_1024 c Hc).
  destruct (Hres ltac:(lra)) as [Hnn Hval]. rewrite Hval. done.
Qed.

(** The absolute error of a rounding below [2^K]. *)
Lemma rounds_to_abs x v K :
  -1021 ≤ K → (0 <= x <= bpow K)%R → rounds_to x v →
  (Rabs (v - x) <= bpow (K - 53))%R.
Proof.
  intros HK [Hx0 HxK] [[-> ->]|(k & z & [Hk1 Hk2] & [Hr _] & ->)].
  { rewrite Rminus_0_r, Rabs_R0. apply Rlt_le, bpow_pos. }
  assert (k - 1 < K + 1) as Hk.
  { apply bpow_lt_inv. pose proof (bpow_lt K (K + 1) ltac:(lia)). lra. }
  rewrite fexp64_eq in *.
  set (E := Z.max (k - 53) (-1074)) in *.
  assert (bpow E <= bpow (K - 52))%R as HE by (apply bpow_le; lia).
  assert (bpow (K - 52) = 2 * bpow (K - 53))%R as H2.
  { rewrite <- bpow_succ. f_equal. lia. }
  pose proof (bpow_pos E) as PE. pose proof (bpow_pos (K - 53)) as PK.
  apply Rabs_le_iff in Hr. apply Rabs_le_iff.
  assert (x = x / bpow E * bpow E)%R as Hxx by (field; lra).
  set (y := (x / bpow E)%R) in *.
  assert ((IZR z - y) * bpow E <= / 2 * bpow E)%R
    by (apply Rmult_le_compat_r; lra).
  assert (- / 2 * bpow E <= (IZR z - y) * bpow E)%R
    by (apply Rmult_le_compat_r; lra).
  assert (IZR z * bpow E - x = (IZR z - y) * bpow E)%R as ->
    by (rewrite Hxx at 1; ring).
  split; lra.
Qed.

(** * The 8-bit clamped store rounds to nearest *)

Lemma toUint8Clamp_nearest x :
  nonneg_finite x → (F2R x < 255 + / 2)%R →
  (Rabs (IZR (toUint8Clamp x) - F2R x) <= / 2)%R.
Proof.
  unfold nonneg_finite, nonneg_finiteb, toUint8Clamp, F2R. intros Hx.
  destruct (SFnn_cases _ Hx) as [[s ->]|(m & e & ->)]; cbn [SF2R].
  { intros _. rewrite Rminus_0_r, Rabs_R0. lra. }
  intros Hlt. destruct (Z.leb_spec 0 e) as [He|He].
  - rewrite (bpow_IZR e) in * by lia. rewrite <- mult_IZR in *.
    set (M := Z.pos m * 2 ^ e) in *.
    assert (M < 256) as HM.
    { apply lt_IZR. lra. }
    rewrite Z.min_r by lia.
    unfold Rminus. rewrite Rplus_opp_r, Rabs_R0. lra.
  - assert (bpow e = / IZR (2 ^ (- e)))%R as Hbe.
    { rewrite <- bpow_IZR by lia. rewrite <- bpow_opp. f_equal. lia. }
    rewrite Hbe in *.
    pose proof (Z.pow_pos_nonneg 2 (- e) ltac:(lia) ltac:(lia)) as Hd.
    pose proof (Z.div_mod (Z.pos m) (2 ^ (- e)) ltac:(lia)) as Hdm.
    pose proof (Z.mod_pos_bound (Z.pos m) (2 ^ (- e)) Hd) as Hr.
    set (d := 2 ^ (- e)) in *. set (q := Z.pos m / d) in *.
    set (r := Z.pos m mod d) in *.
    assert (0 < IZR d)%R as Hd' by (apply (IZR_lt 0); lia).
    assert (IZR (Z.pos m) = IZR d * IZR q + IZR r)%R as HR
      by (rewrite Hdm, plus_IZR, mult_IZR; reflexivity).
    assert (0 <= IZR r < IZR d)%R as Hr'
      by (split; [apply (IZR_le 0)|apply IZR_lt]; lia).
    assert (IZR (Z.pos m) * / IZR d = IZR q + IZR r / IZR d)%R as Hval.
    { rewrite HR. field. lra. }
    rewrite Hval in *.
    assert (0 <= IZR r / IZR d < 1)%R as Hfrac.
    { split.
      - apply Rmult_le_pos; [lra|]. apply Rlt_le, Rinv_0_lt_compat. lra.
      - apply Rmult_lt_reg_r with (IZR d); [done|].
        replace (IZR r / IZR d * IZR d)%R with (IZR r) by (field; lra). lra. }
    set (t := (IZR r / IZR d)%R) in *.
    assert ((2 * r < d → (2 * t < 1)%R) ∧ (2 * r = d → (2 * t = 1)%R) ∧
            (d < 2 * r → (1 < 2 * t)%R)) as (HLt & HEq & HGt).
    { assert (2 * t * IZR d = 2 * IZR r)%R as Ht by (unfold t; field; lra).
      repeat split; intros H.
      - apply IZR_lt in H. rewrite mult_IZR in H.
        apply Rmult_lt_reg_r with (IZR d); [done|]. lra.
      - apply (f_equal IZR) in H. rewrite mult_IZR in H.
        apply Rmult_eq_reg_r with (IZR d); [|lra]. lra.
      - apply IZR_lt in H. rewrite mult_IZR in H.
        apply Rmult_lt_reg_r with (IZR d); [done|]. lra. }
    assert (q < 256) as Hq.
    { apply lt_IZR. lra. }
    destruct (Z.compare_spec (2 * r) d) as [Hc|Hc|Hc].
    + specialize (HEq Hc).
      destruct (Z.even q).
      * rewrite Z.min_r by lia. apply Rabs_le_iff. lra.
      * assert (q + 1 < 256 + 1) as Hq1 by lia.
        assert (q ≠ 255).
        { intros ->. change (IZR 255) with 255%R in Hlt. lra. }
        rewrite Z.min_r by lia. rewrite plus_IZR. apply Rabs_le_iff. lra.
    + specialize (HLt Hc). rewrite Z.min_r by lia. apply Rabs_le_iff. lra.
    + specialize (HGt Hc).
      assert (q ≠ 255).
      { intros ->. change (IZR 255) with 255%R in Hlt. lra. }
      rewrite Z.min_r by lia. rewrite plus_IZR. apply Rabs_le_iff. lra.
Qed.

(** * The grey level is the weighted mean *)

Lemma weight_value (w : float) (m : positive) (e num D : Z) :
  Prim2SF w = S754_finite false m (- e) → 0 ≤ e →
  1000 * Z.pos m = num * 2 ^ e + D →
  nonneg_finite w ∧ (1000 * F2R w = IZR num + IZR D * bpow (- e))%R.
Proof.
  intros Hw He Hm. unfold nonneg_finite, nonneg_finiteb, F2R. rewrite Hw.
  split; [done|]. cbn [SF2R].
  assert (bpow e * bpow (- e) = 1)%R as H1.
  { rewrite <- bpow_add. replace (e + - e) with 0 by lia. apply bpow_0. }
  apply (f_equal IZR) in Hm. rewrite plus_IZR, !mult_IZR in Hm.
  rewrite <- bpow_IZR in Hm by lia.
  transitivity (1000 * IZR (Z.pos m) * bpow (- e))%R; [ring|].
  rewrite Hm. rewrite Rmult_plus_distr_r, Rmult_assoc, H1. ring.
Qed.

Lemma bpow_9 : bpow 9 = 512%R.
Proof. rewrite bpow_IZR by lia. reflexivity. Qed.

Lemma bpow_m44 : (0 < bpow (-44) <= / 1000000000000)%R.
Proof.
  split; [apply bpow_pos|].
  assert (bpow 44 * bpow (-44) = 1)%R as H1
    by (rewrite <- bpow_add; reflexivity).
  rewrite (bpow_IZR 44) in H1 by lia.
  replace (2 ^ 44) with 17592186044416 in H1 by reflexivity. lra.
Qed.

(** One product [weight * channel]. *)
Lemma gray_term (w : float) (c num D : Z) (e : Z) :
  nonneg_finite w → (1000 * F2R w = IZR num + IZR D * bpow (- e))%R →
  0 ≤ num ≤ 1000 → -1000 ≤ D ≤ 1000 → 44 ≤ e → is_byte c →
  nonneg_finite (w * Z2float c) ∧
  (IZR (num * c) - / 1000 <= 1000 * F2R (w * Z2float c)
   <= IZR (num * c) + / 1000)%R ∧
  (0 <= F2R (w * Z2float c))%R.
Proof.
  intros Nw Vw Hnum HD He Hc. unfold is_byte in Hc.
  destruct (Z2float_spec c ltac:(lia)) as [Nc Vc].
  destruct (Z2float_spec 512 ltac:(lia)) as [N512 V512].
  assert (0 <= IZR c <= 255)%R as HcR
    by (split; [apply (IZR_le 0)|apply (IZR_le _ 255)]; lia).
  assert (0 <= IZR num <= 1000)%R as HnR
    by (split; [apply (IZR_le 0)|apply (IZR_le _ 1000)]; lia).
  assert (-1000 <= IZR D <= 1000)%R as HDR
    by (split; [apply (IZR_le (-1000))|apply (IZR_le _ 1000)]; lia).
  pose proof bpow_m44 as [P44 B44].
  assert (0 < bpow (- e) <= bpow (-44))%R as [Pe Be]
    by (split; [apply bpow_pos|apply bpow_le; lia]).
  pose proof (F2R_nonneg w Nw) as Hw0.
  assert (IZR D * bpow (- e) <= 1000 * bpow (-44))%R as HDe1 by nra.
  assert (-1000 * bpow (-44) <= IZR D * bpow (- e))%R as HDe2 by nra.
  assert (F2R w <= 2)%R as Hw2 by lra.
  assert (0 <= F2R w * IZR c <= 512)%R as Hprod.
  { split; [apply Rmult_le_pos; lra|].
    transitivity (2 * 255)%R; [apply Rmult_le_compat; lra|lra]. }
  destruct (mul_rounds_le w (Z2float c) (Z2float 512) Nw Nc N512)
    as (Np & Rp & _).
  { rewrite Vc, V512. lra. }
  rewrite Vc in Rp. split; [done|].
  pose proof (rounds_to_abs _ _ 9 ltac:(lia)
                ltac:(rewrite bpow_9; exact Hprod) Rp) as Hab.
  replace (9 - 53) with (-44) in Hab by lia.
  apply Rabs_le_iff in Hab. rewrite mult_IZR.
  set (P := F2R (w * Z2float c)) in *.
  assert (1000 * (F2R w * IZR c) = IZR num * IZR c + IZR D * bpow (- e) * IZR c)%R
    as Hex by (rewrite <- Rmult_assoc, Vw; ring).
  set (d := (IZR D * bpow (- e))%R) in *.
  set (A := (1000 * bpow (-44))%R) in *.
  assert (0 <= A <= / 1000000000)%R as HA by (unfold A; lra).
  assert (d * IZR c <= A * 255)%R by nra.
  assert (- A <= d)%R by (unfold A; lra).
  assert (- A * 255 <= d * IZR c)%R by nra.
  split; [split; lra|]. apply (rounds_to_nonneg (F2R w * IZR c)); [lra|exact Rp].
Qed.

Lemma gray_sum_error r g b :
  is_byte r → is_byte g → is_byte b →
  let x := (0x1.322d0e5604189p-2 * Z2float r
            + 0x1.2c8b439581062p-1 * Z2float g
            + 0x1.d2f1a9fbe76c9p-4 * Z2float b)%float in
  nonneg_finite x ∧
  (Rabs (1000 * F2R x - IZR (299 * r + 587 * g + 114 * b)) <= / 4)%R.
Proof.
  intros Hr Hg Hb x.
  destruct (weight_value 0x1.322d0e5604189p-2 5386305154335113 54 299 (-216)
              eq_refl ltac:(lia) eq_refl) as [N1 V1].
  destruct (weight_value 0x1.2c8b439581062p-1 5287225962532962 53 587 (-304)
              eq_refl ltac:(lia) eq_refl) as [N2 V2].
  destruct (weight_value 0x1.d2f1a9fbe76c9p-4 8214565720323785 56 114 296
              eq_refl ltac:(lia) eq_refl) as [N3 V3].
  destruct (gray_term _ r _ _ _ N1 V1 ltac:(lia) ltac:(lia) ltac:(lia) Hr)
    as (Np1 & [L1 U1] & P1).
  destruct (gray_term _ g _ _ _ N2 V2 ltac:(lia) ltac:(lia) ltac:(lia) Hg)
    as (Np2 & [L2 U2] & P2).
  destruct (gray_term _ b _ _ _ N3 V3 ltac:(lia) ltac:(lia) ltac:(lia) Hb)
    as (Np3 & [L3 U3] & P3).
  set (p1 := (0x1.322d0e5604189p-2 * Z2float r)%float) in *.
  set (p2 := (0x1.2c8b439581062p-1 * Z2float g)%float) in *.
  set (p3 := (0x1.d2f1a9fbe76c9p-4 * Z2float b)%float) in *.
  unfold is_byte in Hr, Hg, Hb.
  assert (0 <= IZR (299 * r) <= 76245)%R as B1
    by (split; [apply (IZR_le 0)|apply (IZR_le _ 76245)]; lia).
  assert (0 <= IZR (587 * g) <= 149685)%R as B2
    by (split; [apply (IZR_le 0)|apply (IZR_le _ 149685)]; lia).
  assert (0 <= IZR (114 * b) <= 29070)%R as B3
    by (split; [apply (IZR_le 0)|apply (IZR_le _ 29070)]; lia).
  destruct (Z2float_spec 512 ltac:(lia)) as [N512 V512].
  pose proof bpow_m44 as [P44 B44].
  destruct (add_rounds_le p1 p2 (Z2float 512) Np1 Np2 N512) as (Ns1 & Rs1 & _).
  { rewrite V512. lra. }
  assert (0 <= F2R p1 + F2R p2 <= bpow 9)%R as Hs1
    by (rewrite bpow_9; split; lra).
  pose proof (rounds_to_abs _ _ 9 ltac:(lia) Hs1 Rs1) as Hab1.
  replace (9 - 53) with (-44) in Hab1 by lia. apply Rabs_le_iff in Hab1.
  set (s1 := (p1 + p2)%float) in *.
  destruct (add_rounds_le s1 p3 (Z2float 512) Ns1 Np3 N512) as (Ns2 & Rs2 & _).
  { rewrite V512. lra. }
  pose proof (F2R_nonneg s1 Ns1) as S1.
  assert (0 <= F2R s1 + F2R p3 <= bpow 9)%R as Hs2
    by (rewrite bpow_9; split; lra).
  pose proof (rounds_to_abs _ _ 9 ltac:(lia) Hs2 Rs2) as Hab2.
  replace (9 - 53) with (-44) in Hab2 by lia. apply Rabs_le_iff in Hab2.
  split; [done|]. fold s1 p3 in x. subst x.
  rewrite !plus_IZR. apply Rabs_le_iff. split; lra.
Qed.

(** X1. The grey level [grayscale] stores for a pixel is the weighted sum
    [0.299 r + 0.587 g + 0.114 b] rounded to the nearest integer (on a tie,
    to one of the two nearest); it therefore lies between the smallest and
    the largest of the three channels. *)
Theorem gray_value_weighted_mean (r g b : Z) :
  is_byte r → is_byte g → is_byte b →
  let v := gray_value (Some r) (Some g) (Some b) in
  Z.abs (1000 * v - (299 * r + 587 * g + 114 * b)) ≤ 500 ∧
  Z.min r (Z.min g b) ≤ v ≤ Z.max r (Z.max g b).
Proof.
  intros Hr Hg Hb v.
  destruct (gray_sum_error r g b Hr Hg Hb) as [Nx Ex]. cbv zeta in Nx, Ex.
  unfold gray_value in v.
  set (x := (0x1.322d0e5604189p-2 * Z2float r
             + 0x1.2c8b439581062p-1 * Z2float g
             + 0x1.d2f1a9fbe76c9p-4 * Z2float b)%float) in *.
  set (N := 299 * r + 587 * g + 114 * b) in *.
  unfold is_byte in Hr, Hg, Hb.
  assert (0 <= IZR N <= 255000)%R as HN
    by (split; [apply (IZR_le 0)|apply (IZR_le _ 255000)]; unfold N; lia).
  apply Rabs_le_iff in Ex.
  pose proof (toUint8Clamp_nearest x Nx ltac:(lra)) as Hv. fold v in Hv.
  apply Rabs_le_iff in Hv.
  assert (Z.abs (1000 * v - N) ≤ 500) as Habs.
  { assert (-501 < 1000 * v - N < 501) as [H1 H2]; [|lia].
    split; apply lt_IZR; rewrite minus_IZR, mult_IZR; lra. }
  split; [done|]. unfold N in Habs. lia.
Qed.

(** * The conversion pipeline *)

Lemma sobelEdge_border data width height y x :
  (y < height)%nat → (x < width)%nat → on_border width height y x →
  sobelEdge data width height !! (y * width + x)%nat = Some 0%float.
Proof.
  intros Hy Hx Hb. rewrite sobelEdge_foldl, foldl_write_mag_other.
  - apply lookup_replicate_2. by apply cell_lt.
  - intros y' x' Hin Heq. apply elem_of_interior in Hin.
    assert (y = y') by nia. subst. assert (x = x') by lia. subst.
    unfold on_border in Hb. lia.
Qed.

Lemma pixels_lookup_ext data data' p :
  (∀ c, (c < 4)%nat → data' !! (4 * p + c)%nat = data !! (4 * p + c)%nat) →
  pixels data' !! p = pixels data !! p.
Proof.
  intros H.
  pose proof (H 0%nat ltac:(lia)) as H0. rewrite Nat.add_0_r in H0.
  pose proof (H 1%nat ltac:(lia)) as H1.
  pose proof (H 2%nat ltac:(lia)) as H2.
  pose proof (H 3%nat ltac:(lia)) as H3.
  destruct (pixels data !! p) as [[[[r g] b] a]|] eqn:E.
  - apply pixels_lookup in E. apply pixels_lookup.
    by rewrite H0, H1, H2, H3.
  - destruct (pixels data' !! p) as [[[[r g] b] a]|] eqn:E'; [|done].
    apply pixels_lookup in E'. rewrite H0, H1, H2, H3 in E'.
    apply pixels_lookup in E'. congruence.
Qed.

Lemma dilate_border_pixel data width height y x :
  (x < width)%nat → on_border width height y x →
  pixels (dilate data width height) !! (y * width + x)%nat
  = pixels data !! (y * width + x)%nat.
Proof.
  intros Hx Hb. apply pixels_lookup_ext. intros c Hc.
  rewrite dilate_pixel_pass.
  replace (4 * (y * width + x) + c)%nat with (px_index width y x + c)%nat
    by (unfold px_index; lia).
  apply pixel_pass_untouched; [done|done|by left].
Qed.

Lemma length_dilate_passes n data width height :
  length (dilate_passes n data width height) = length data.
Proof.
  induction n as [|n IH]; [done|].
  by rewrite dilate_passes_S, dilate_pixel_pass, length_pixel_pass.
Qed.

Lemma dilate_passes_border_pixel n data width height y x :
  (x < width)%nat → on_border width height y x →
  pixels (dilate_passes n data width height) !! (y * width + x)%nat
  = pixels data !! (y * width + x)%nat.
Proof.
  intros Hx Hb. induction n as [|n IH]; [done|].
  by rewrite dilate_passes_S, dilate_border_pixel.
Qed.

(** The pixel stages on any canvas content and for any numbers of blur and
    dilation passes: the result is a buffer of [width * height] pixels, each
    black or white and opaque, and every pixel of the outermost ring is
    white. *)
Lemma line_art_pixels_frame (imageData : list Z) (width height : nat)
    (options : LineArtOptions) :
  (0 < width)%nat → (0 < height)%nat → 0 ≤ threshold options ≤ 255 →
  ∃ output,
    line_art_pixels imageData width height options = Some output ∧
    length output = (4 * (width * height))%nat ∧
    is_bw output ∧
    ∀ y x, (y < height)%nat → (x < width)%nat → on_border width height y x →
           pixels output !! (y * width + x)%nat = Some white.
Proof.
  intros Hw Hh Ht. unfold line_art_pixels.
  set (img := blur_passes (blurPasses options) (grayscale imageData)
                width height).
  set (magnitude := sobelEdge img width height).
  pose proof (length_sobelEdge img width height) as Hlen.
  rewrite (thresholdEdges_eq magnitude width height) by done.
  set (cutoff := normalized_threshold (threshold options)
                   (max_magnitude magnitude)).
  eexists. split; [reflexivity|]. split; [|split].
  - rewrite length_dilate_passes, length_bind_render.
    fold magnitude in Hlen. lia.
  - apply dilate_passes_preserves_bw, is_bw_render.
  - intros y x Hy Hx Hb. rewrite dilate_passes_border_pixel by done.
    rewrite pixels_bind_render, list_lookup_fmap.
    unfold magnitude at 1. rewrite sobelEdge_border by done. simpl.
    f_equal. apply render_pixel_white.
    by apply (is_edge_zero _ _ false).
Qed.

(** ** An image of one colour *)

Lemma has_colour_gray_pixel r g b px :
  has_colour r g b px →
  has_colour (gray_value (Some r) (Some g) (Some b))
             (gray_value (Some r) (Some g) (Some b))
             (gray_value (Some r) (Some g) (Some b)) (gray_pixel px).
Proof.
  destruct px as [[[r' g'] b'] a]. unfold has_colour. simpl.
  intros (-> & -> & ->). done.
Qed.

Lemma bind_replicate_const {A B : Type} (f : A → list B) (x : A) (l : list B)
    (c : B) n :
  f x = [c; c; c; c] → replicate n x ≫= f = replicate (4 * n) c.
Proof.
  intros Hf. induction n as [|n IH]; [done|].
  replace (4 * S n)%nat with (S (S (S (S (4 * n))))) by lia.
  change (replicate (S n) x ≫= f) with (f x ++ (replicate n x ≫= f)).
  rewrite Hf, IH. done.
Qed.

Lemma dilate_white data width height n :
  data = replicate n 255 → dilate data width height = data.
Proof.
  intros ->. rewrite dilate_pixel_pass. apply pixel_pass_id.
  intros y x c Hint Hc Hlt. rewrite length_replicate in Hlt.
  rewrite lookup_replicate_2 by done. f_equal.
  rewrite dilate_min_foldl.
  destruct (foldl_min_step_le 255
              (chan_at (replicate n 255) width 0 <$> neighbourhood y x))
    as (_ & _ & [Heq|Hin]); [done|].
  apply list_elem_of_fmap in Hin. destruct Hin as (k & Hk & _).
  unfold chan_at in Hk. symmetry in Hk. apply lookup_replicate in Hk.
  destruct Hk as [Hk _]. exact (eq_sym Hk).
Qed.

Lemma dilate_passes_white k data width height n :
  data = replicate n 255 → dilate_passes k data width height = data.
Proof.
  intros Hd. induction k as [|k IH]; [done|].
  rewrite dilate_passes_S, IH. by apply (dilate_white _ _ _ n).
Qed.

(** X5. An image of one colour has no lines: whatever the colour and the
    options, the conversion of a canvas whose pixels all have the same red,
    green and blue values is entirely white. *)
Theorem line_art_pixels_flat (imageData : list Z) (width height : nat)
    (r g b : Z) (options : LineArtOptions) :
  length imageData = (4 * (width * height))%nat →
  uniform r g b imageData →
  (0 < width)%nat → (0 < height)%nat → 0 ≤ threshold options ≤ 255 →
  line_art_pixels imageData width height options
  = Some (replicate (4 * (width * height)) 255).
Proof.
  intros Hlen Hu Hw Hh Ht. unfold line_art_pixels.
  set (v := gray_value (Some r) (Some g) (Some b)).
  pose proof (unpixels_pixels imageData _ Hlen) as Hdata.
  assert (grayscale imageData = unpixels (gray_pixel <$> pixels imageData))
    as Hg by (by rewrite <- grayscale_unpixels, Hdata).
  assert (length (grayscale imageData) = (4 * (width * height))%nat) as Hlen'.
  { rewrite Hg, length_unpixels, length_fmap, <- length_unpixels.
    by rewrite Hdata. }
  assert (uniform v v v (grayscale imageData)) as Hu'.
  { unfold uniform. rewrite Hg, pixels_unpixels. apply Forall_fmap.
    revert Hu. unfold uniform. apply Forall_impl.
    intros px. apply has_colour_gray_pixel. }
  pose proof (gray_value_byte (Some r) (Some g) (Some b)) as Hv. fold v in Hv.
  rewrite (blur_passes_uniform _ v v v) by done.
  rewrite (sobelEdge_uniform v v v) by done.
  rewrite thresholdEdges_eq by (done || by rewrite length_replicate).
  simpl. f_equal.
  rewrite (bind_replicate_const _ _ [] 255).
  - by apply (dilate_passes_white _ _ _ _ (4 * (width * height))).
  - unfold render.
    by rewrite (is_edge_zero _ _ false) by done.
Qed.

(** ** The whole conversion *)

(** X6. [convertToLineArt] on an image of any size: when the scaled width or
    height is 0 the conversion throws; otherwise it returns, for the scaled
    size, a buffer of [width * height] opaque black or white pixels whose
    outermost ring is white. *)
Theorem convertToLineArt_result (naturalWidth naturalHeight : Z)
    (drawImage : nat → nat → list Z) (options : LineArtOptions) :
  0 ≤ threshold options ≤ 255 →
  let width :=
    Z.to_nat (resize naturalWidth naturalHeight (maxDim options)).1 in
  let height :=
    Z.to_nat (resize naturalWidth naturalHeight (maxDim options)).2 in
  ((width = 0 ∨ height = 0)%nat →
   convertToLineArt naturalWidth naturalHeight drawImage options = None) ∧
  ((0 < width)%nat → (0 < height)%nat →
   ∃ output,
     convertToLineArt naturalWidth naturalHeight drawImage options
     = Some (width, height, output) ∧
     length output = (4 * (width * height))%nat ∧
     is_bw output ∧
     ∀ y x, (y < height)%nat → (x < width)%nat → on_border width height y x →
            pixels output !! (y * width + x)%nat = Some white).
Proof.
  intros Ht width height. unfold convertToLineArt.
  destruct (resize naturalWidth naturalHeight (maxDim options)) as [w h] eqn:E.
  simpl in width, height. fold width height. unfold getImageData. split.
  - intros Hz. by rewrite decide_True.
  - intros Hw Hh. rewrite decide_False by lia. simpl.
    destruct (line_art_pixels_frame (drawImage width height) width height
                options Hw Hh Ht) as (output & -> & Hlen & Hbw & Hborder).
    exists output. done.
Qed.

(** * More on resizing *)

Lemma scaled_dim_product d M mx :
  0 < M → M < mx → mx < 2 ^ 22 → 0 < d ≤ mx →
  let scale := (Z2float M / Z2float mx)%float in
  nonneg_finite (Z2float d * scale) ∧
  rounds_to (IZR d * F2R scale) (F2R (Z2float d * scale)) ∧
  (0 <= F2R scale)%R.
Proof.
  intros HM HMmx Hmx Hd scale.
  destruct (scale_bounds M mx HM HMmx Hmx) as (Ns & _ & Hs3).
  fold scale in Ns, Hs3.
  destruct (Z2float_spec d ltac:(lia)) as [Nd Vd].
  destruct (mul_rounds_le (Z2float d) scale (Z2float d) Nd Ns Nd)
    as (Np & Rp & _).
  { rewrite Vd. assert (0 < IZR d)%R by (apply (IZR_lt 0); lia).
    pose proof (F2R_nonneg scale Ns). nra. }
  rewrite Vd in Rp. split; [done|]. split; [done|]. by apply F2R_nonneg.
Qed.

Lemma floorZ_nonneg x : nonneg_finite x → 0 ≤ floorZ x.
Proof.
  intros Hx. pose proof (floorZ_spec x Hx) as [_ Hu].
  pose proof (F2R_nonneg x Hx) as H0.
  assert (-1 < floorZ x); [|lia]. apply lt_IZR.
  change (IZR (-1)) with (-1)%R. lra.
Qed.

Lemma floorZ_mono x y :
  nonneg_finite x → nonneg_finite y → (F2R x <= F2R y)%R →
  floorZ x ≤ floorZ y.
Proof.
  intros Hx Hy Hle.
  pose proof (floorZ_spec x Hx) as [Hl _].
  pose proof (floorZ_spec y Hy) as [_ Hu].
  assert (floorZ x < floorZ y + 1); [|lia]. apply lt_IZR.
  rewrite plus_IZR. lra.
Qed.

Lemma scaled_dim_mono d1 d2 M mx :
  0 < M → M < mx → mx < 2 ^ 22 → 0 < d1 → d1 ≤ d2 → d2 ≤ mx →
  let scale := (Z2float M / Z2float mx)%float in
  floorZ (Z2float d1 * scale) ≤ floorZ (Z2float d2 * scale).
Proof.
  intros HM HMmx Hmx Hd1 Hd12 Hd2 scale.
  destruct (scaled_dim_product d1 M mx HM HMmx Hmx ltac:(lia))
    as (N1 & R1 & Hs).
  destruct (scaled_dim_product d2 M mx HM HMmx Hmx ltac:(lia))
    as (N2 & R2 & _).
  fold scale in N1, R1, N2, R2, Hs.
  apply floorZ_mono; [done|done|].
  refine (rounds_to_mono _ _ _ _ _ R1 R2).
  assert (0 < IZR d1)%R by (apply (IZR_lt 0); lia).
  assert (IZR d1 <= IZR d2)%R by (apply IZR_le; lia).
  split; nra.
Qed.

Lemma scaled_dim_range d M mx :
  0 < M → M < mx → mx < 2 ^ 22 → 0 < d ≤ mx →
  let scale := (Z2float M / Z2float mx)%float in
  0 ≤ floorZ (Z2float d * scale) ≤ M.
Proof.
  intros HM HMmx Hmx Hd scale.
  destruct (scaled_dim_product d M mx HM HMmx Hmx Hd) as (Np & _ & _).
  pose proof (scaled_dim_bounds d M mx HM HMmx Hmx Hd) as [_ Hu].
  fold scale in Np, Hu. split; [by apply floorZ_nonneg|].
  etrans; [exact Hu|]. apply Z.div_le_upper_bound; [lia|]. nia.
Qed.

Lemma resize_scaled width height maxDim :
  maxDim < width ∨ maxDim < height →
  resize width height maxDim
  = (let scale := (Z2float maxDim / Z2float (Z.max width height))%float in
     (floorZ (Z2float width * scale), floorZ (Z2float height * scale))).
Proof.
  intros H. unfold resize.
  destruct (maxDim <? width) eqn:E1; [done|].
  destruct (maxDim <? height) eqn:E2; [done|].
  apply Z.ltb_ge in E1, E2. lia.
Qed.

Lemma resize_unscaled width height maxDim :
  width ≤ maxDim → height ≤ maxDim →
  resize width height maxDim = (width, height).
Proof.
  intros Hw Hh. unfold resize.
  apply Z.ltb_ge in Hw, Hh. by rewrite Hw, Hh.
Qed.

(** The output dimensions are between 0 and the bound (or the input, when it
    is smaller). *)
Lemma resize_range width height maxDim :
  0 < width < 2 ^ 22 → 0 < height < 2 ^ 22 → 0 < maxDim →
  0 ≤ (resize width height maxDim).1 ≤ maxDim ∧
  0 ≤ (resize width height maxDim).2 ≤ maxDim.
Proof.
  intros Hw Hh HM.
  destruct (decide (maxDim < width ∨ maxDim < height)) as [Hs|Hn].
  - rewrite resize_scaled by done. cbv zeta. simpl.
    split; apply scaled_dim_range; lia.
  - rewrite resize_unscaled by lia. simpl. lia.
Qed.

(** X7. A very elongated image cannot be converted: when the shorter side
    times [maxDim] is less than the longer side, the shorter side is scaled
    to 0 and [convertToLineArt] throws. *)
Theorem convertToLineArt_elongated (naturalWidth naturalHeight : Z)
    (drawImage : nat → nat → list Z) (options : LineArtOptions) :
  0 < naturalWidth < 2 ^ 22 → 0 < naturalHeight < 2 ^ 22 →
  0 < maxDim options →
  naturalWidth * maxDim options < naturalHeight ∨
  naturalHeight * maxDim options < naturalWidth →
  ((resize naturalWidth naturalHeight (maxDim options)).1 = 0 ∨
   (resize naturalWidth naturalHeight (maxDim options)).2 = 0) ∧
  convertToLineArt naturalWidth naturalHeight drawImage options = None.
Proof.
  intros Hw Hh HM Hlong.
  assert ((resize naturalWidth naturalHeight (maxDim options)).1 = 0 ∨
          (resize naturalWidth naturalHeight (maxDim options)).2 = 0) as Hz.
  { rewrite resize_scaled by nia. cbv zeta. simpl.
    destruct Hlong as [Hl|Hl]; [left|right].
    - pose proof (scaled_dim_range naturalWidth (maxDim options)
                    (Z.max naturalWidth naturalHeight) HM ltac:(nia) ltac:(lia)
                    ltac:(lia)) as [H0 _].
      pose proof (scaled_dim_bounds naturalWidth (maxDim options)
                    (Z.max naturalWidth naturalHeight) HM ltac:(nia) ltac:(lia)
                    ltac:(lia)) as [_ Hu].
      cbv zeta in H0, Hu.
      rewrite Z.div_small in Hu by lia. lia.
    - pose proof (scaled_dim_range naturalHeight (maxDim options)
                    (Z.max naturalWidth naturalHeight) HM ltac:(nia) ltac:(lia)
                    ltac:(lia)) as [H0 _].
      pose proof (scaled_dim_bounds naturalHeight (maxDim options)
                    (Z.max naturalWidth naturalHeight) HM ltac:(nia) ltac:(lia)
                    ltac:(lia)) as [_ Hu].
      cbv zeta in H0, Hu.
      rewrite Z.div_small in Hu by lia. lia. }
  split; [done|]. unfold convertToLineArt.
  destruct (resize naturalWidth naturalHeight (maxDim options)) as [w h].
  simpl in Hz. unfold getImageData.
  rewrite decide_True; [done|]. destruct Hz as [-> | ->]; [by left|by right].
Qed.

(** X8. Resizing keeps the orientation: the shorter side of the input is the
    shorter side of the output, and a square image stays square. *)
Theorem resize_keeps_orientation (width height maxDim : Z) :
  0 < width < 2 ^ 22 → 0 < height < 2 ^ 22 → 0 < maxDim →
  (width ≤ height →
   (resize width height maxDim).1 ≤ (resize width height maxDim).2) ∧
  (height ≤ width →
   (resize width height maxDim).2 ≤ (resize width height maxDim).1) ∧
  (width = height →
   (resize width height maxDim).1 = (resize width height maxDim).2).
Proof.
  intros Hw Hh HM.
  assert (∀ w h, 0 < w < 2 ^ 22 → 0 < h < 2 ^ 22 → w ≤ h →
            let scale := (Z2float maxDim / Z2float (Z.max w h))%float in
            maxDim < w ∨ maxDim < h →
            floorZ (Z2float w * scale) ≤ floorZ (Z2float h * scale)) as Hmono.
  { intros w h Hw' Hh' Hle scale Hs. apply scaled_dim_mono; lia. }
  destruct (decide (maxDim < width ∨ maxDim < height)) as [Hs|Hn].
  - rewrite resize_scaled by done. cbv zeta. simpl.
    split; [|split].
    + intros Hle. by apply Hmono.
    + intros Hle. rewrite Z.max_comm. apply Hmono; (done || lia).
    + intros ->. done.
  - rewrite resize_unscaled by lia. simpl. lia.
Qed.

(** X9. Resizing is idempotent: the dimensions the resize step returns for a
    bound pass unchanged through a second resize with the same or a larger
    bound. *)
Theorem resize_idempotent (width height maxDim maxDim' : Z) :
  0 < width < 2 ^ 22 → 0 < height < 2 ^ 22 → 0 < maxDim → maxDim ≤ maxDim' →
  let out := resize width height maxDim in
  resize out.1 out.2 maxDim' = out.
Proof.
  intros Hw Hh HM HM' out.
  pose proof (resize_range width height maxDim Hw Hh HM) as [H1 H2].
  fold out in H1, H2.
  rewrite resize_unscaled by lia. by destruct out.
Qed.

(** X15. Resizing keeps the aspect ratio up to two pixels: the cross products
    of input and output dimensions differ by less than twice the longer input
    side. *)
Theorem resize_aspect_ratio (width height maxDim : Z) :
  0 < width < 2 ^ 22 → 0 < height < 2 ^ 22 → 0 < maxDim →
  let out := resize width height maxDim in
  Z.abs (out.1 * height - out.2 * width) < 2 * Z.max width height.
Proof.
  intros Hw Hh HM out. unfold out.
  destruct (decide (maxDim < width ∨ maxDim < height)) as [Hs|Hn].
  2:{ rewrite resize_unscaled by lia. simpl. lia. }
  rewrite resize_scaled by done. cbv zeta. simpl.
  set (mx := Z.max width height).
  pose proof (scaled_dim_bounds width maxDim mx HM ltac:(lia) ltac:(lia)
                ltac:(lia)) as [L1 U1].
  pose proof (scaled_dim_bounds height maxDim mx HM ltac:(lia) ltac:(lia)
                ltac:(lia)) as [L2 U2].
  cbv zeta in L1, U1, L2, U2.
  set (o1 := floorZ (Z2float width * (Z2float maxDim / Z2float mx))) in *.
  set (o2 := floorZ (Z2float height * (Z2float maxDim / Z2float mx))) in *.
  assert (0 < mx) as Hmx by lia.
  pose proof (Z.mul_div_le (width * maxDim) mx Hmx) as D1.
  pose proof (Z.mul_succ_div_gt (width * maxDim) mx Hmx) as D1'.
  pose proof (Z.mul_div_le (height * maxDim) mx Hmx) as D2.
  pose proof (Z.mul_succ_div_gt (height * maxDim) mx Hmx) as D2'.
  set (F1 := width * maxDim / mx) in *. set (F2 := height * maxDim / mx) in *.
  assert (mx * o1 ≤ width * maxDim) as A1 by nia.
  assert (width * maxDim < mx * (o1 + 2)) as A2 by nia.
  assert (mx * o2 ≤ height * maxDim) as B1 by nia.
  assert (height * maxDim < mx * (o2 + 2)) as B2 by nia.
  assert (mx * (o1 * height) ≤ width * maxDim * height) as C1
    by (rewrite Z.mul_assoc; apply Z.mul_le_mono_nonneg_r; lia).
  assert (width * maxDim * height < mx * ((o1 + 2) * height)) as C2
    by (rewrite Z.mul_assoc; apply Z.mul_lt_mono_pos_r; lia).
  assert (mx * (o2 * width) ≤ height * maxDim * width) as E1
    by (rewrite Z.mul_assoc; apply Z.mul_le_mono_nonneg_r; lia).
  assert (height * maxDim * width < mx * ((o2 + 2) * width)) as E2
    by (rewrite Z.mul_assoc; apply Z.mul_lt_mono_pos_r; lia).
  assert (width * maxDim * height = height * maxDim * width) as Heq by ring.
  assert (mx * (o1 * height - o2 * width) < mx * (2 * width)) as G1 by lia.
  assert (mx * (- (2 * height)) < mx * (o1 * height - o2 * width)) as G2 by lia.
  apply Z.mul_lt_mono_pos_l in G1, G2; [|lia..]. lia.
Qed.

(** * More on the conversion handler *)

(** X10. Whatever the mode and the outcomes of the conversions, a run of
    [handleConvert] on a selected file ends with [isConverting] off and
    either fails as a whole, leaving line art and drawing as they were and
    showing the failure alert, or stores a line art that one of the
    conversions returned and clears the drawing, with at most the fallback
    notice, which only the HQ mode shows.  Without a selected file nothing
    happens. *)
Theorem handleConvert_outcome (selectedFile : string) (qualityMode : quality)
    (apiAvailable : option bool) (remote : result string)
    (local : nat → result string) (st : editor) :
  let st' := handleConvert (Some selectedFile) qualityMode apiAvailable
               remote local st in
  isConverting st' = false ∧
  ((lineArtSrc st' = lineArtSrc st ∧ drawing st' = drawing st ∧
    alerts st' = alerts st ++ [notice_failure]) ∨
   (∃ dataUrl,
      lineArtSrc st' = Some dataUrl ∧ drawing st' = [] ∧
      (remote = Ok dataUrl ∨ local 0%nat = Ok dataUrl ∨
       local 1%nat = Ok dataUrl) ∧
      (alerts st' = alerts st ∨
       (qualityMode = HQ ∧ alerts st' = alerts st ++ [notice_fallback])))) ∧
  handleConvert None qualityMode apiAvailable remote local st = st.
Proof.
  cbv zeta. unfold handleConvert.
  destruct qualityMode, apiAvailable as [[|]|], remote as [u|e];
    destruct (local 0%nat) as [u0|e0] eqn:E0;
    destruct (local 1%nat) as [u1|e1] eqn:E1;
    simpl; rewrite ?E0, ?E1; simpl;
    (split; [reflexivity|split; [|reflexivity]]);
    first [ left; done
          | right; eexists; split; [reflexivity|]; split; [reflexivity|];
            split; [eauto|]; first [left; done | right; done] ].
Qed.

(** X11. In HQ mode while the service is not known to be available (the
    health check has not answered, was rejected, or answered with a status
    that is not ok), the remote conversion is not used: the local pipeline
    runs, a failure is retried once, and a success of the retry is stored
    with the notice that the HQ server was unavailable. *)
Theorem handleConvert_hq_offline (selectedFile : string)
    (health : option (result response)) (remote : result string)
    (local : nat → result string) (st : editor) :
  (∀ resp, health = Some (Ok resp) → resp_ok resp = false) →
  let st' := handleConvert (Some selectedFile) HQ (checkAPIHealth <$> health)
               remote local st in
  isConverting st' = false ∧
  match local 0%nat, local 1%nat with
  | Ok dataUrl, _ =>
      lineArtSrc st' = Some dataUrl ∧ drawing st' = [] ∧
      alerts st' = alerts st
  | Err _, Ok dataUrl =>
      lineArtSrc st' = Some dataUrl ∧ drawing st' = [] ∧
      alerts st' = alerts st ++ [notice_fallback]
  | Err _, Err _ =>
      lineArtSrc st' = lineArtSrc st ∧ drawing st' = drawing st ∧
      alerts st' = alerts st ++ [notice_failure]
  end.
Proof.
  intros Hhealth. cbv zeta.
  assert (checkAPIHealth <$> health = None ∨
          checkAPIHealth <$> health = Some false) as [-> | ->].
  { destruct health as [[resp|e]|]; simpl; [|by right|by left].
    right. by rewrite (Hhealth resp eq_refl). }
  all: unfold handleConvert;
    destruct (local 0%nat) as [u0|e0] eqn:E0;
    destruct (local 1%nat) as [u1|e1] eqn:E1;
    simpl; rewrite ?E0, ?E1; done.
Qed.

(** * Making the background of a line art transparent *)

Lemma makeWhiteTransparent_body pre px post :
  (let i := length pre in
   let data := pre ++ channels px ++ post in
   match data !! i, data !! (i + 1)%nat, data !! (i + 2)%nat with
   | Some r, Some g, Some b =>
       if (240 <? r) && (240 <? g) && (240 <? b)
       then <[(i + 3)%nat := 0]> data
       else data
   | _, _, _ => data
   end)
  = pre ++ channels (transparent_pixel px) ++ post.
Proof.
  destruct px as [[[r g] b] a]. cbv zeta. unfold channels, transparent_pixel.
  assert ((pre ++ [r; g; b; a] ++ post) !! length pre = Some r) as ->.
  { rewrite lookup_app_r by lia.
    by replace (length pre - length pre)%nat with 0%nat by lia. }
  assert ((pre ++ [r; g; b; a] ++ post) !! (length pre + 1)%nat = Some g) as ->.
  { rewrite lookup_app_r by lia.
    by replace (length pre + 1 - length pre)%nat with 1%nat by lia. }
  assert ((pre ++ [r; g; b; a] ++ post) !! (length pre + 2)%nat = Some b) as ->.
  { rewrite lookup_app_r by lia.
    by replace (length pre + 2 - length pre)%nat with 2%nat by lia. }
  destruct ((240 <? r) && (240 <? g) && (240 <? b)); [|done].
  rewrite insert_app_r_alt by lia.
  by replace (length pre + 3 - length pre)%nat with 3%nat by lia.
Qed.

Lemma makeWhiteTransparent_unpixels ps :
  makeWhiteTransparent (unpixels ps) = unpixels (transparent_pixel <$> ps).
Proof.
  unfold makeWhiteTransparent. apply for_step4_pixels. intros pre px post.
  apply makeWhiteTransparent_body.
Qed.

Lemma transparent_pixel_idemp px :
  transparent_pixel (transparent_pixel px) = transparent_pixel px.
Proof.
  destruct px as [[[r g] b] a]. unfold transparent_pixel.
  destruct ((240 <? r) && (240 <? g) && (240 <? b)) eqn:E; by rewrite E.
Qed.

(** X13. [makeWhiteTransparent] over a buffer of whole pixels: a pixel whose
    red, green and blue values all exceed 240 gets alpha 0, every other pixel
    and every colour value is kept, and a second application changes nothing.
    On a black-and-white line art the black pixels stay opaque black and the
    white pixels become fully transparent. *)
Theorem makeWhiteTransparent_contract (data : list Z) (n : nat) :
  length data = (4 * n)%nat →
  pixels (makeWhiteTransparent data) = transparent_pixel <$> pixels data ∧
  length (makeWhiteTransparent data) = length data ∧
  (∀ p r g b a,
     pixels data !! p = Some (r, g, b, a) →
     pixels (makeWhiteTransparent data) !! p
     = Some (r, g, b, if decide (240 < r ∧ 240 < g ∧ 240 < b) then 0 else a)) ∧
  (∀ p, (pixels data !! p = Some black →
         pixels (makeWhiteTransparent data) !! p = Some black) ∧
        (pixels data !! p = Some white →
         pixels (makeWhiteTransparent data) !! p = Some (255, 255, 255, 0))) ∧
  makeWhiteTransparent (makeWhiteTransparent data) = makeWhiteTransparent data.
Proof.
  intros Hlen. pose proof (unpixels_pixels data n Hlen) as Hdata.
  assert (makeWhiteTransparent data
          = unpixels (transparent_pixel <$> pixels data)) as Hm
    by (by rewrite <- makeWhiteTransparent_unpixels, Hdata).
  assert (pixels (makeWhiteTransparent data)
          = transparent_pixel <$> pixels data) as Hpx
    by (by rewrite Hm, pixels_unpixels).
  split; [done|]. split.
  { rewrite Hm, length_unpixels, length_fmap, <- length_unpixels.
    by rewrite Hdata. }
  split; [|split].
  - intros p r g b a Hp. rewrite Hpx, list_lookup_fmap, Hp. simpl.
    destruct (decide (240 < r ∧ 240 < g ∧ 240 < b)) as [(Hr & Hg & Hb)|Hn].
    + apply Z.ltb_lt in Hr, Hg, Hb. by rewrite Hr, Hg, Hb.
    + destruct (Z.ltb_spec 240 r), (Z.ltb_spec 240 g), (Z.ltb_spec 240 b);
        simpl; (done || lia).
  - intros p. rewrite Hpx, list_lookup_fmap.
    split; intros ->; done.
  - rewrite Hm at 1. rewrite makeWhiteTransparent_unpixels, Hm. f_equal.
    rewrite <- list_fmap_compose. apply list_fmap_ext.
    intros i px _. apply transparent_pixel_idemp.
Qed.

(** * The page of the exported PDF *)

(** The relative error of a rounding, gradual underflow apart. *)
Lemma rounds_to_rel x v :
  (bpow (-1021) <= x)%R → rounds_to x v →
  (Rabs (v - x) <= x * bpow (-53))%R.
Proof.
  intros Hx [[H0 _]|(k & z & [Hk1 Hk2] & [Hr _] & ->)].
  { pose proof (bpow_pos (-1021)). lra. }
  assert (-1021 < k) as Hk.
  { apply bpow_lt_inv. lra. }
  rewrite fexp64_eq in *. rewrite Z.max_l in * by lia.
  pose proof (bpow_pos (k - 53)) as P.
  assert (bpow (k - 53) = 2 * (bpow (k - 1) * bpow (-53)))%R as E.
  { rewrite <- bpow_add, <- bpow_succ. f_equal. lia. }
  pose proof (bpow_pos (-53)) as P53.
  apply Rabs_le_iff in Hr. apply Rabs_le_iff.
  assert (x = x / bpow (k - 53) * bpow (k - 53))%R as Hxx by (field; lra).
  set (y := (x / bpow (k - 53))%R) in *.
  assert (bpow (k - 1) * bpow (-53) <= x * bpow (-53))%R as Hb by nra.
  rewrite Hxx at 2 4. split; nra.
Qed.

Lemma nonneg_finite_not_nan x : nonneg_finite x → is_nan x = false.
Proof.
  intros Hx. unfold is_nan. rewrite FloatAxioms.eqb_spec.
  unfold nonneg_finite, nonneg_finiteb in Hx.
  destruct (Prim2SF x) as [s|s| |s m e]; try done.
  unfold SFeqb, SFcompare. simpl in Hx. apply negb_true_iff in Hx. subst.
  by rewrite Z.compare_refl, Pos.compare_cont_refl.
Qed.

Lemma Math_min_spec a b :
  nonneg_finite a → nonneg_finite b →
  nonneg_finite (Math_min a b) ∧
  (Math_min a b = a ∨ Math_min a b = b) ∧
  (F2R (Math_min a b) <= F2R a)%R ∧ (F2R (Math_min a b) <= F2R b)%R.
Proof.
  intros Ha Hb. unfold Math_min.
  rewrite (nonneg_finite_not_nan a Ha), (nonneg_finite_not_nan b Hb). simpl.
  destruct (a <? b)%float eqn:E1.
  { apply ltb_correct in E1; [|done..]. repeat split; (done || auto || lra). }
  destruct (b <? a)%float eqn:E2.
  { apply ltb_correct in E2; [|done..]. repeat split; (done || auto || lra). }
  assert (¬ (F2R a < F2R b)%R) as N1.
  { intros H. apply (ltb_correct a b Ha Hb) in H. congruence. }
  assert (¬ (F2R b < F2R a)%R) as N2.
  { intros H. apply (ltb_correct b a Hb Ha) in H. congruence. }
  destruct (get_sign a); repeat split; (done || auto || lra).
Qed.

(** One of the two quotients [maxPageWidth / pageWidth] and
    [maxPageHeight / pageHeight]. *)
Lemma page_quotient c d :
  0 < c < 2 ^ 22 → 0 < d < 2 ^ 22 →
  let s := (Z2float c / Z2float d)%float in
  nonneg_finite s ∧
  (IZR d * F2R s <= IZR c + IZR c * bpow (-53))%R ∧
  (c ≤ d → (F2R s <= 1)%R).
Proof.
  intros Hc Hd s.
  destruct (Z2float_spec c ltac:(lia)) as [Nc Vc].
  destruct (Z2float_spec d ltac:(lia)) as [Nd Vd].
  assert (1 <= IZR c)%R as Hc1 by (apply (IZR_le 1); lia).
  assert (1 <= IZR d)%R as Hd1 by (apply (IZR_le 1); lia).
  assert (IZR c < bpow 22)%R as Hc22.
  { rewrite bpow_IZR by lia. apply IZR_lt. lia. }
  assert (IZR d < bpow 22)%R as Hd22.
  { rewrite bpow_IZR by lia. apply IZR_lt. lia. }
  assert (bpow 22 < bpow 53)%R as H2253 by (apply bpow_lt; lia).
  destruct (div_rounds (Z2float c) (Z2float d) Nc Nd) as [Ns Rs];
    [rewrite Vc; lra|rewrite Vd; lra|].
  fold s in Ns, Rs. rewrite Vc, Vd in Rs.
  split; [done|].
  assert (0 < / IZR d)%R as Hinv by (apply Rinv_0_lt_compat; lra).
  assert (bpow (-22) < / IZR d)%R as Hinv22.
  { apply Rmult_lt_reg_r with (IZR d); [lra|]. rewrite Rinv_l by lra.
    assert (bpow (-22) * bpow 22 = 1)%R as H1
      by (rewrite <- bpow_add; reflexivity).
    pose proof (bpow_pos (-22)). nra. }
  assert (bpow (-1021) <= IZR c / IZR d)%R as Hlow.
  { assert (bpow (-1021) <= bpow (-22))%R by (apply bpow_le; lia).
    unfold Rdiv. nra. }
  pose proof (rounds_to_rel _ _ Hlow Rs) as Hrel.
  apply Rabs_le_iff in Hrel. destruct Hrel as [_ Hrel].
  split.
  - assert (F2R s <= IZR c / IZR d + IZR c / IZR d * bpow (-53))%R as Hs
      by lra.
    assert (IZR d * (IZR c / IZR d) = IZR c)%R as Hq by (field; lra).
    apply (Rmult_le_compat_l (IZR d)) in Hs; [|lra].
    rewrite Rmult_plus_distr_l, <- Rmult_assoc, Hq in Hs. done.
  - intros Hcd. apply (rounds_to_le 1 (IZR c / IZR d)); [| |done].
    + exists 1, 0. rewrite bpow_0. split; [lra|lia].
    + assert (IZR c <= IZR d)%R by (apply IZR_le; lia).
      split.
      * apply Rmult_le_pos; lra.
      * apply Rmult_le_reg_r with (IZR d); [lra|].
        replace (IZR c / IZR d * IZR d)%R with (IZR c) by (field; lra). lra.
Qed.

(** A page dimension: the image dimension times the scale. *)
Lemma page_dimension d scale (C : Z) :
  0 < d < 2 ^ 22 → 0 < C < 1024 → nonneg_finite scale →
  (IZR d * F2R scale <= IZR C + IZR C * bpow (-53))%R →
  (F2R scale <= 1)%R →
  nonneg_finite (Z2float d * scale) ∧
  (F2R (Z2float d * scale) <= IZR C + bpow (-43))%R ∧
  (F2R (Z2float d * scale) <= IZR d)%R.
Proof.
  intros Hd HC Ns Hprod Hs1.
  destruct (Z2float_spec d ltac:(lia)) as [Nd Vd].
  assert (1 <= IZR d)%R as Hd1 by (apply (IZR_le 1); lia).
  pose proof (F2R_nonneg scale Ns) as Hs0.
  destruct (mul_rounds_le (Z2float d) scale (Z2float d) Nd Ns Nd)
    as (Np & Rp & Hle).
  { rewrite Vd. nra. }
  rewrite Vd in Rp, Hle. split; [done|]. split; [|done].
  apply (rounds_to_le _ (IZR d * F2R scale)); [| |done].
  - exists (C * 2 ^ 43 + 1), (-43). split; [|lia].
    rewrite plus_IZR, mult_IZR, <- bpow_IZR by lia.
    assert (bpow 43 * bpow (-43) = 1)%R as H1
      by (rewrite <- bpow_add; reflexivity).
    rewrite Rmult_plus_distr_r, Rmult_assoc, H1. lra.
  - split; [nra|].
    assert (IZR C * bpow (-53) <= bpow (-43))%R; [|lra].
    assert (IZR C <= bpow 10)%R as HC10.
    { rewrite bpow_IZR by lia. apply IZR_le. lia. }
    assert (bpow 10 * bpow (-53) = bpow (-43))%R as H2
      by (rewrite <- bpow_add; reflexivity).
    pose proof (bpow_pos (-53)). nra.
Qed.

Lemma float_612 : 612%float = Z2float 612.
Proof. reflexivity. Qed.

Lemma float_792 : 792%float = Z2float 792.
Proof. reflexivity. Qed.

Lemma ltb_Z2float a b :
  0 ≤ a < 2 ^ 53 → 0 ≤ b < 2 ^ 53 →
  (Z2float a <? Z2float b)%float = (a <? b).
Proof.
  intros Ha Hb.
  destruct (Z2float_spec a Ha) as [Na Va], (Z2float_spec b Hb) as [Nb Vb].
  destruct (Z.ltb_spec a b) as [Hlt|Hge].
  - apply ltb_correct; [done..|]. rewrite Va, Vb. by apply IZR_lt.
  - destruct (Z2float a <? Z2float b)%float eqn:E; [|done].
    apply ltb_correct in E; [|done..]. rewrite Va, Vb in E.
    apply lt_IZR in E. lia.
Qed.

(** X14. The page [exportToPdf] makes for an image: an image that fits a
    letter page (612 x 792 points) gets a page of its own size; a larger one
    is scaled down, never up, and the page then exceeds the letter size by at
    most [2^-43] points in each direction.  The excess does occur: an image
    1063 pixels wide gets a page wider than 612 points. *)
Theorem pageSize_fits (width height : Z) :
  0 < width < 2 ^ 22 → 0 < height < 2 ^ 22 →
  let page := pageSize width height in
  nonneg_finite page.1 ∧ nonneg_finite page.2 ∧
  (F2R page.1 <= 612 + bpow (-43))%R ∧ (F2R page.2 <= 792 + bpow (-43))%R ∧
  (F2R page.1 <= IZR width)%R ∧ (F2R page.2 <= IZR height)%R ∧
  (width ≤ 612 → height ≤ 792 →
   page = (Z2float width, Z2float height)) ∧
  (612 <? (pageSize 1063 1063).1)%float = true.
Proof.
  intros Hw Hh page.
  destruct (Z2float_spec width ltac:(lia)) as [Nw Vw].
  destruct (Z2float_spec height ltac:(lia)) as [Nh Vh].
  assert (page = if (612 <? width) || (792 <? height)
                 then
                   let scale :=
                     Math_min (Z2float 612 / Z2float width)%float
                              (Z2float 792 / Z2float height)%float in
                   ((Z2float width * scale)%float,
                    (Z2float height * scale)%float)
                 else (Z2float width, Z2float height)) as Hpage.
  { unfold page, pageSize. cbv zeta. rewrite float_612, float_792.
    by rewrite !ltb_Z2float by lia. }
  assert (bpow (-43) > 0)%R as P43 by apply bpow_pos.
  destruct ((612 <? width) || (792 <? height)) eqn:Hbig.
  - cbv zeta in Hpage.
    destruct (page_quotient 612 width ltac:(lia) Hw) as (N1 & B1 & L1).
    destruct (page_quotient 792 height ltac:(lia) Hh) as (N2 & B2 & L2).
    cbv zeta in N1, B1, L1, N2, B2, L2.
    set (s1 := (Z2float 612 / Z2float width)%float) in *.
    set (s2 := (Z2float 792 / Z2float height)%float) in *.
    destruct (Math_min_spec s1 s2 N1 N2) as (Ns & _ & M1 & M2).
    set (scale := Math_min s1 s2) in *.
    pose proof (F2R_nonneg scale Ns) as Hs0.
    assert (F2R scale <= 1)%R as Hs1.
    { apply orb_true_iff in Hbig. destruct Hbig as [Hb|Hb];
        apply Z.ltb_lt in Hb; [specialize (L1 ltac:(lia))
                              |specialize (L2 ltac:(lia))]; lra. }
    assert (1 <= IZR width)%R as Hw1 by (apply (IZR_le 1); lia).
    assert (1 <= IZR height)%R as Hh1 by (apply (IZR_le 1); lia).
    destruct (page_dimension width scale 612 Hw ltac:(lia) Ns)
      as (Npw & Bpw & Lpw); [nra|done|].
    destruct (page_dimension height scale 792 Hh ltac:(lia) Ns)
      as (Nph & Bph & Lph); [nra|done|].
    rewrite Hpage. simpl.
    split; [done|]. split; [done|]. split; [done|]. split; [done|].
    split; [done|]. split; [done|]. split; [|by vm_compute].
    intros H1 H2. apply orb_true_iff in Hbig.
    destruct Hbig as [Hb|Hb]; apply Z.ltb_lt in Hb; lia.
  - rewrite Hpage. simpl. rewrite Vw, Vh.
    apply orb_false_iff in Hbig. destruct Hbig as [Hb1 Hb2].
    apply Z.ltb_ge in Hb1, Hb2.
    assert (IZR width <= 612)%R by (apply (IZR_le _ 612); lia).
    assert (IZR height <= 792)%R by (apply (IZR_le _ 792); lia).
    split; [done|]. split; [done|]. split; [lra|]. split; [lra|].
    split; [lra|]. split; [lra|]. split; [done|by vm_compute].
Qed.

(** * The theorems on concrete inputs *)

Lemma example_image_bytes : Forall is_byte example_image.
Proof. repeat (constructor; [unfold is_byte; lia|]). constructor. Defined.

(** The binarizer at threshold 128 on [example_map]. *)
Lemma thresholdEdges_contract_witness :
  ∃ output, thresholdEdges example_map 2 2 128 = Some output ∧
            length output = 16%nat.
Proof.
  destruct (thresholdEdges_contract example_map 2 2 128
              ltac:(repeat constructor) eq_refl ltac:(lia) ltac:(lia)
              ltac:(lia))
    as (_ & _ & _ & output & Hout & Hlen & _).
  exists output. split; [exact Hout|exact Hlen].
Defined.

(** The binarizer at thresholds 0 and 255 on [example_map]. *)
Lemma threshold_extremes_witness :
  ∃ out255, thresholdEdges example_map 2 2 255 = Some out255 ∧
            pixels out255 !! 1%nat = Some white.
Proof.
  destruct (threshold_extremes example_map 2 2
              ltac:(repeat constructor) eq_refl ltac:(lia) ltac:(lia))
    as (_ & out255 & Hout & _ & Hwhite).
  exists out255. split; [exact Hout|].
  exact (Hwhite 1%nat 5%float eq_refl).
Defined.

(** Thresholds 0 and 128 on [example_map]. *)
Lemma threshold_monotone_witness :
  ∃ out1 out2,
    thresholdEdges example_map 2 2 0 = Some out1 ∧
    thresholdEdges example_map 2 2 128 = Some out2 ∧
    (count_black out2 ≤ count_black out1)%nat.
Proof.
  exact (threshold_monotone example_map 2 2 0 128
           ltac:(repeat constructor) eq_refl ltac:(lia) ltac:(lia)
           ltac:(lia) ltac:(lia) ltac:(lia)).
Defined.

(** Threshold 255 on [example_map]: the blank image of 2 x 2 pixels. *)
Lemma thresholdEdges_255_all_white_witness :
  ∃ output, thresholdEdges example_map 2 2 255 = Some output ∧
            output = replicate (2 * 2 * 4) 255 ∧
            length output = 16%nat ∧
            pixels output !! 1%nat = Some white ∧
            count_black output = 0%nat.
Proof.
  destruct (thresholdEdges_255_all_white example_map 2 2
              ltac:(repeat constructor) eq_refl ltac:(lia) ltac:(lia))
    as (_ & _ & output & Hout & Heq & Hlen & _ & Hpx & _ & Hcount).
  exists output. split; [exact Hout|]. split; [exact Heq|].
  split; [exact Hlen|]. split; [exact (Hpx 1%nat ltac:(lia))|exact Hcount].
Defined.

(** A 1109x700 image with [maxDim = 600]. *)
Lemma resize_contract_witness :
  1109 * 600 / Z.max 1109 700 - 1 ≤ (resize 1109 700 600).1
  ≤ 1109 * 600 / Z.max 1109 700.
Proof.
  destruct (resize_contract 1109 700 600 ltac:(lia) ltac:(lia) ltac:(lia))
    as (H & _ & _).
  destruct (H ltac:(lia)) as (_ & Hw & _). exact Hw.
Defined.

(** The centre pixel of [example_image] after one blur pass. *)
Lemma boxBlur_contract_witness :
  ∃ v, boxBlur example_image 3 3 !! (px_index 3 1 1 + 0)%nat = Some v ∧
       is_rounded_mean v (neighbourhood_chan example_image 3 0 1 1).
Proof.
  destruct (boxBlur_contract example_image 3 3 eq_refl example_image_bytes)
    as (H & _).
  destruct (H 1%nat 1%nat 0%nat ltac:(lia) ltac:(lia)) as (v & Hv & _ & Hm & _).
  exists v. split; [exact Hv|exact Hm].
Defined.

(** The centre pixel of [example_image] after one dilation pass. *)
Lemma dilate_contract_witness :
  ∃ m, dilate example_image 3 3 !! (px_index 3 1 1 + 0)%nat = Some m ∧
       is_min_of m (neighbourhood_reds example_image 3 1 1).
Proof.
  destruct (dilate_contract example_image 3 3 eq_refl example_image_bytes)
    as (H & _).
  destruct (H 1%nat 1%nat 0%nat ltac:(lia) ltac:(lia)) as (m & Hm & _ & Hmin & _).
  exists m. split; [exact Hm|exact Hmin].
Defined.


(** * More on the box blur *)

Lemma foldl_write_rgb_Forall (P : Z → Prop) width val ks data :
  (∀ y x c, P (val y x c)) → Forall P data →
  Forall P (foldl (write_rgb width val) data ks).
Proof.
  intros Hval. revert data. induction ks as [|k ks IH]; intros data Hd; simpl;
    [done|].
  apply IH. unfold write_rgb. by repeat apply Forall_insert.
Qed.

Lemma blur_store_byte sum : is_byte (blur_store sum).
Proof.
  destruct sum as [s|]; simpl; [apply toUint8Clamp_byte|unfold is_byte; lia].
Qed.

Lemma boxBlur_bytes data width height :
  Forall is_byte data → Forall is_byte (boxBlur data width height).
Proof.
  intros Hb. rewrite boxBlur_pixel_pass. unfold pixel_pass.
  apply foldl_write_rgb_Forall; [|done]. intros y x c. apply blur_store_byte.
Qed.

Lemma blur_passes_bytes n data width height :
  Forall is_byte data → Forall is_byte (blur_passes n data width height).
Proof.
  intros Hb. induction n as [|n IH]; [done|].
  rewrite blur_passes_S. by apply boxBlur_bytes.
Qed.

Lemma length_boxBlur data width height :
  length (boxBlur data width height) = length data.
Proof. by rewrite boxBlur_pixel_pass, length_pixel_pass. Qed.

Lemma length_blur_passes n data width height :
  length (blur_passes n data width height) = length data.
Proof.
  induction n as [|n IH]; [done|]. by rewrite blur_passes_S, length_boxBlur.
Qed.

Lemma sum_list_Z_between (l : list Z) lo hi :
  (∀ u, u ∈ l → lo ≤ u ≤ hi) →
  Z.of_nat (length l) * lo ≤ sum_list_Z l ≤ Z.of_nat (length l) * hi.
Proof.
  induction l as [|v l IH]; intros H; [unfold sum_list_Z; simpl; lia|].
  rewrite sum_list_Z_cons, length_cons.
  pose proof (H v ltac:(left)).
  pose proof (IH ltac:(intros u Hu; apply H; by right)). lia.
Qed.

(** X16. The box blur smooths: over bytes it stores bytes and keeps the
    length, whatever the dimensions; over a well-formed buffer the new value
    of an interior colour channel lies between the smallest and the largest
    of its nine samples, so a pass creates no new extreme value; and a buffer
    of one colour is left unchanged by any number of passes. *)
Theorem boxBlur_smooths (data : list Z) (width height : nat) :
  Forall is_byte data →
  (∀ n, Forall is_byte (blur_passes n data width height) ∧
        length (blur_passes n data width height) = length data) ∧
  (length data = (4 * (width * height))%nat →
   ∀ y x c lo hi,
     (1 ≤ y ∧ y + 1 < height ∧ 1 ≤ x ∧ x + 1 < width)%nat → (c < 3)%nat →
     (∀ u, u ∈ neighbourhood_chan data width c y x → lo ≤ u ≤ hi) →
     ∃ v, boxBlur data width height !! (px_index width y x + c)%nat = Some v ∧
          lo ≤ v ≤ hi) ∧
  (length data = (4 * (width * height))%nat →
   ∀ r g b n, uniform r g b data → blur_passes n data width height = data).
Proof.
  intros Hbytes. split; [|split].
  - intros n. split; [by apply blur_passes_bytes|apply length_blur_passes].
  - intros Hlen y x c lo hi Hint Hc Hrange.
    pose proof (length_neighbourhood_chan data width height y x c Hlen Hint
                  ltac:(lia)) as Hnine.
    pose proof (sum_list_Z_bytes _
                  (neighbourhood_chan_bytes data width c y x Hbytes)) as Hsum.
    pose proof (sum_list_Z_between _ lo hi Hrange) as Hbetween.
    rewrite Hnine in Hsum, Hbetween.
    exists ((sum_list_Z (neighbourhood_chan data width c y x) + 4) / 9).
    split.
    + rewrite boxBlur_pixel_pass, pixel_pass_interior; [|done|done|].
      * rewrite (blur_sum_in_range data width height) by (done || lia).
        by rewrite blur_store_nearest by lia.
      * apply (px_index_lt data width height); (done || lia).
    + set (s := sum_list_Z (neighbourhood_chan data width c y x)) in *.
      split.
      * apply Z.div_le_lower_bound; lia.
      * apply Z.lt_succ_r, Z.div_lt_upper_bound; lia.
  - intros Hlen r g b n Hu.
    destruct (decide (width * height = 0)%nat) as [Hz|Hnz].
    { assert (data = []) as -> by (apply nil_length_inv; lia).
      apply nil_length_inv. by rewrite length_blur_passes. }
    assert (4 * 0 + 3 < length data)%nat as H0 by lia.
    pose proof (uniform_lookup r g b data 0 0 Hu H0 ltac:(lia)) as Hr.
    pose proof (uniform_lookup r g b data 0 1 Hu H0 ltac:(lia)) as Hg.
    pose proof (uniform_lookup r g b data 0 2 Hu H0 ltac:(lia)) as Hb.
    apply (Forall_lookup_1 _ _ _ _ Hbytes) in Hr, Hg, Hb. simpl in Hr, Hg, Hb.
    by apply (blur_passes_uniform n r g b).
Qed.

(** * The magnitudes the Sobel filter can store *)

Lemma forall_below_spec (f : Z → bool) (n : N) :
  forall_below f n = true → ∀ i, 0 ≤ i < Z.of_N n → f i = true.
Proof.
  unfold forall_below. rewrite N2Nat.inj_iter.
  rewrite <- N_nat_Z.
  generalize (N.to_nat n). clear n. intros k.
  assert (∃ b, Nat.iter k (λ st : Z * bool, (st.1 + 1, st.2 && f st.1))
                 (0, true) = (Z.of_nat k, b) ∧
               (b = true → ∀ i, 0 ≤ i < Z.of_nat k → f i = true))
    as (b & -> & Hb).
  { induction k as [|k (b & IH & Hb)].
    - exists true. split; [done|]. intros _ i Hi. lia.
    - exists (b && f (Z.of_nat k)). split.
      + rewrite Nat.iter_succ, IH. cbn [fst snd]. f_equal. lia.
      + intros Ht. apply andb_true_iff in Ht. destruct Ht as [-> Hf].
        intros i Hi. destruct (decide (i = Z.of_nat k)) as [->|Hne]; [done|].
        apply Hb; [done|lia]. }
  exact Hb.
Qed.

(** Every squared norm [a^2 + b^2] with [0 <= a <= b <= 1020]. *)
Lemma magnitude_table :
  forall_below
    (λ b, forall_below (λ a, magnitude_ok (a * a + b * b)) (Z.to_N (b + 1)))
    1021 = true.
Proof. vm_compute. reflexivity. Qed.

Lemma magnitude_ok_gradient gx gy :
  -1020 ≤ gx ≤ 1020 → -1020 ≤ gy ≤ 1020 →
  magnitude_ok (gx * gx + gy * gy) = true.
Proof.
  intros Hx Hy.
  assert (∀ a b, 0 ≤ a → a ≤ b → b ≤ 1020 →
            magnitude_ok (a * a + b * b) = true) as H.
  { intros a b Ha Hab Hb.
    pose proof (forall_below_spec _ _ magnitude_table b ltac:(lia)) as Hrow.
    cbv beta in Hrow.
    apply (forall_below_spec _ _ Hrow a). lia. }
  destruct (Z.le_ge_cases (Z.abs gx) (Z.abs gy)) as [Hle|Hge].
  - replace (gx * gx + gy * gy) with (Z.abs gx * Z.abs gx + Z.abs gy * Z.abs gy)
      by lia.
    apply H; lia.
  - replace (gx * gx + gy * gy) with (Z.abs gy * Z.abs gy + Z.abs gx * Z.abs gx)
      by lia.
    apply H; lia.
Qed.

Lemma sobel_magnitude_ok gx gy :
  -1020 ≤ gx ≤ 1020 → -1020 ≤ gy ≤ 1020 →
  nonneg_finite (sobel_magnitude (Some (gx, gy))) ∧
  ((0 < F2R (sobel_magnitude (Some (gx, gy))))%R ↔ ¬ (gx = 0 ∧ gy = 0)).
Proof.
  intros Hx Hy. pose proof (magnitude_ok_gradient gx gy Hx Hy) as H.
  unfold magnitude_ok in H. cbv zeta in H.
  apply andb_true_iff in H. destruct H as [Hn Hp].
  unfold sobel_magnitude.
  set (m := fround (PrimFloat.sqrt (Z2float (gx * gx + gy * gy)))) in *.
  split; [exact Hn|]. split.
  - intros Hpos [-> ->].
    assert (m = 0%float) as Hm by (vm_compute; reflexivity).
    rewrite Hm, F2R_zero in Hpos. lra.
  - intros Hne. apply orb_true_iff in Hp. destruct Hp as [Hz|Hlt].
    + apply Z.eqb_eq in Hz. exfalso. apply Hne. nia.
    + apply (ltb_correct 0 m nonneg_finite_zero Hn) in Hlt.
      by rewrite F2R_zero in Hlt.
Qed.

Lemma red_byte data width y x :
  Forall is_byte data → is_byte (red data width y x).
Proof.
  intros Hb. unfold red.
  destruct (data !! px_index width y x) as [v|] eqn:E.
  - rewrite (list_lookup_total_correct _ _ _ E).
    by apply (Forall_lookup_1 _ _ _ _ Hb) in E.
  - rewrite list_lookup_total_alt, E. simpl. unfold is_byte. lia.
Qed.

Lemma convolve_bounds data width y x :
  Forall is_byte data →
  -1020 ≤ convolve kernelX data width y x ≤ 1020 ∧
  -1020 ≤ convolve kernelY data width y x ≤ 1020.
Proof.
  intros Hb. unfold convolve, sum_list_Z. simpl.
  repeat match goal with
         | |- context [red data width ?a ?b] =>
             let H := fresh "H" in
             let r := fresh "r" in
             pose proof (red_byte data width a b Hb) as H;
             unfold is_byte in H;
             set (r := red data width a b) in *; clearbody r
         end.
  lia.
Qed.

Lemma foldl_write_mag_Forall (P : float → Prop) width f ks magnitude :
  (∀ y x, (y, x) ∈ ks → P (f y x)) → Forall P magnitude →
  Forall P (foldl (write_mag width f) magnitude ks).
Proof.
  revert magnitude. induction ks as [|[y x] ks IH]; intros magnitude Hf Hm;
    simpl; [done|].
  apply IH; [intros y' x' Hin; apply Hf; by right|].
  unfold write_mag. apply Forall_insert; [done|]. apply Hf. by left.
Qed.

Lemma sobelEdge_nonneg_finite data width height :
  length data = (4 * (width * height))%nat → Forall is_byte data →
  Forall nonneg_finite (sobelEdge data width height).
Proof.
  intros Hlen Hb. rewrite sobelEdge_foldl. apply foldl_write_mag_Forall.
  - intros y x Hin. apply elem_of_interior in Hin.
    rewrite (sobel_window_in_range data width height) by done. simpl.
    destruct (convolve_bounds data width y x Hb) as [Hx Hy].
    by apply sobel_magnitude_ok.
  - apply Forall_replicate. apply nonneg_finite_zero.
Qed.

(** X17. The magnitudes [sobelEdge] stores for a well-formed byte buffer are
    finite and not negative (no NaN, no infinity: the map meets what the
    binarizer's contract asks), and the magnitude of an interior pixel is
    positive exactly when one of the two gradients is not zero. *)
Theorem sobelEdge_magnitudes (data : list Z) (width height : nat) :
  length data = (4 * (width * height))%nat → Forall is_byte data →
  Forall nonneg_finite (sobelEdge data width height) ∧
  (∀ y x,
     (1 ≤ y ∧ y + 1 < height ∧ 1 ≤ x ∧ x + 1 < width)%nat →
     ∃ m, sobelEdge data width height !! (y * width + x)%nat = Some m ∧
          ((0 < F2R m)%R ↔
           ¬ (convolve kernelX data width y x = 0 ∧
              convolve kernelY data width y x = 0))).
Proof.
  intros Hlen Hb. split; [by apply sobelEdge_nonneg_finite|].
  intros y x Hint. eexists. split.
  - rewrite sobelEdge_foldl.
    rewrite (foldl_write_mag_hit width
               (λ y x, sobel_magnitude (sobel_window data width y x).1)).
    + by rewrite (sobel_window_in_range data width height).
    + intros y' x' Hin. apply elem_of_interior in Hin. lia.
    + lia.
    + rewrite length_replicate. apply cell_lt; lia.
    + right. by apply elem_of_interior.
  - simpl. destruct (convolve_bounds data width y x Hb) as [Hx Hy].
    by apply sobel_magnitude_ok.
Qed.

(** * The pipeline and the threshold *)

Lemma grayscale_bytes data : Forall is_byte data → Forall is_byte (grayscale data).
Proof.
  unfold grayscale, for_step4. generalize (seq 0 ((length data + 3) / 4)).
  intros l. revert data. induction l as [|p l IH]; intros data Hb; simpl;
    [done|].
  apply IH. repeat apply Forall_insert; (done || apply gray_value_byte).
Qed.

Lemma length_grayscale data : length (grayscale data) = length data.
Proof.
  unfold grayscale, for_step4. generalize (seq 0 ((length data + 3) / 4)).
  intros l. revert data. induction l as [|p l IH]; intros data; simpl; [done|].
  by rewrite IH, !length_insert.
Qed.

(** The magnitude map the binarizer gets in the pipeline. *)
Lemma pipeline_magnitudes imageData width height blurs :
  length imageData = (4 * (width * height))%nat → Forall is_byte imageData →
  let img := blur_passes blurs (grayscale imageData) width height in
  length img = (4 * (width * height))%nat ∧ Forall is_byte img ∧
  Forall nonneg_finite (sobelEdge img width height).
Proof.
  intros Hlen Hb img.
  assert (length img = (4 * (width * height))%nat) as Hlen'
    by (unfold img; by rewrite length_blur_passes, length_grayscale).
  assert (Forall is_byte img) as Hb'
    by (unfold img; by apply blur_passes_bytes, grayscale_bytes).
  split; [done|]. split; [done|]. by apply sobelEdge_nonneg_finite.
Qed.

(** X18. With the threshold at 255 the conversion of any image is blank: the
    cutoff equals the largest magnitude and the comparison is strict, so the
    pixel stages return an entirely white buffer whatever the canvas holds
    and whatever the numbers of blur and dilation passes. *)
Theorem line_art_pixels_threshold_255 (imageData : list Z)
    (width height : nat) (options : LineArtOptions) :
  length imageData = (4 * (width * height))%nat → Forall is_byte imageData →
  (0 < width)%nat → (0 < height)%nat → threshold options = 255 →
  line_art_pixels imageData width height options
  = Some (replicate (4 * (width * height)) 255).
Proof.
  intros Hlen Hb Hw Hh Ht. unfold line_art_pixels.
  destruct (pipeline_magnitudes imageData width height (blurPasses options)
              Hlen Hb) as (_ & _ & Hnn).
  cbv zeta in Hnn.
  set (magnitude := sobelEdge _ width height) in *.
  pose proof (length_sobelEdge
                (blur_passes (blurPasses options) (grayscale imageData)
                   width height) width height) as Hlm.
  fold magnitude in Hlm.
  rewrite thresholdEdges_eq by done. simpl. f_equal. rewrite Ht.
  destruct (max_magnitude_spec magnitude Hnn) as (Nmax & Hmax & _).
  destruct (normalized_threshold_spec 255 _ ltac:(lia) Nmax) as (Nc & _ & _).
  rewrite bind_render_white.
  - rewrite Hlm. by apply (dilate_passes_white _ _ _ _ (4 * (width * height))).
  - intros m Hm.
    destruct (is_edge (normalized_threshold 255 (max_magnitude magnitude)) m)
      eqn:E; [|done].
    apply is_edge_correct in E;
      [|done|by apply (Forall_nonneg_finite_elem magnitude)].
    rewrite normalized_threshold_255 in E by done.
    pose proof (Hmax m Hm). lra.
Qed.

(** ** Dilation is monotone *)

Lemma dilate_pixel_not_interior data width height p :
  ((p / width)%nat, (p mod width)%nat) ∉ interior width height →
  pixels (dilate data width height) !! p = pixels data !! p.
Proof.
  intros Hnot. apply pixels_lookup_ext. intros c Hc.
  rewrite dilate_pixel_pass. apply pixel_pass_other.
  intros y x c' Hint Hc'.
  by apply (not_interior_cell width height p y x c' c).
Qed.

Lemma dilate_min_zero_witness data width y x :
  dilate_min data width y x = 0 →
  ∃ k, k ∈ neighbourhood y x ∧ data !! px_index width k.1 k.2 = Some 0.
Proof.
  rewrite dilate_min_foldl. intros H0.
  destruct (foldl_min_step_le 255 (chan_at data width 0 <$> neighbourhood y x))
    as (_ & _ & [Heq|Hin]); [lia|].
  rewrite H0 in Hin. apply list_elem_of_fmap in Hin.
  destruct Hin as (k & Hk & Hin). exists k. split; [done|].
  unfold chan_at in Hk. by rewrite Nat.add_0_r in Hk.
Qed.

Lemma dilate_min_zero data width y x k :
  is_bw data → k ∈ neighbourhood y x →
  data !! px_index width k.1 k.2 = Some 0 →
  dilate_min data width y x = 0.
Proof.
  intros Hbw Hk H0.
  destruct (dilate_min_bw data width y x Hbw) as [?|H255]; [done|].
  rewrite dilate_min_foldl in *.
  destruct (foldl_min_step_le 255 (chan_at data width 0 <$> neighbourhood y x))
    as (_ & Hall & _).
  assert (Some 0 ∈ chan_at data width 0 <$> neighbourhood y x) as Hin.
  { apply list_elem_of_fmap. exists k. split; [|done].
    unfold chan_at. by rewrite Nat.add_0_r. }
  apply Hall in Hin. lia.
Qed.

Lemma bw_black_of_red data q :
  is_bw data → data !! (4 * q)%nat = Some 0 → pixels data !! q = Some black.
Proof.
  intros [[n Hlen] Hall] H0.
  destruct (pixel_of_red data n q 0 Hlen H0) as (g & b & a & Hpx).
  pose proof (Forall_lookup_1 _ _ _ _ Hall Hpx) as Hbw.
  apply is_bw_pixel_spec in Hbw.
  destruct Hbw as [Hbw|Hbw]; [by rewrite Hpx, Hbw|]. by inversion Hbw.
Qed.

Lemma bw_alpha data p a :
  is_bw data → data !! (4 * p + 3)%nat = Some a → a = 255.
Proof.
  intros [[n Hlen] Hall] Ha. apply lookup_lt_Some in Ha as Hlt.
  destruct (lookup_lt_is_Some_2 data (4 * p)%nat ltac:(lia)) as [r Hr].
  destruct (pixel_of_red data n p r Hlen Hr) as (g & b & a' & Hpx).
  pose proof Hpx as Hpx'. apply pixels_lookup in Hpx'.
  destruct Hpx' as (_ & _ & _ & Ha'). rewrite Ha in Ha'. injection Ha' as <-.
  apply (Forall_lookup_1 _ _ _ _ Hall) in Hpx. apply is_bw_pixel_spec in Hpx.
  destruct Hpx as [[= _ _ _ ->]|[= _ _ _ ->]]; done.
Qed.

Lemma dilate_mono A B width height p :
  is_bw A → is_bw B → length A = length B →
  (∀ q, pixels A !! q = Some black → pixels B !! q = Some black) →
  pixels (dilate A width height) !! p = Some black →
  pixels (dilate B width height) !! p = Some black.
Proof.
  intros HA HB Hlen Hsub Hp.
  destruct (decide (((p / width)%nat, (p mod width)%nat) ∈ interior width height))
    as [Hin|Hnot].
  2:{ rewrite dilate_pixel_not_interior in * by done. by apply Hsub. }
  assert (0 < width)%nat as Hw by (apply elem_of_interior in Hin; lia).
  pose proof (interior_pixel_number _ _ _ Hw Hin) as Hidx.
  apply elem_of_interior in Hin.
  apply pixels_lookup in Hp. destruct Hp as (Hr & _ & _ & Ha).
  assert (4 * p + 3 < length A)%nat as Hlt.
  { apply lookup_lt_Some in Ha.
    by rewrite dilate_pixel_pass, length_pixel_pass in Ha. }
  rewrite dilate_pixel_pass in Hr.
  replace (4 * p)%nat
    with (px_index width (p / width)%nat (p mod width)%nat + 0)%nat in Hr by lia.
  rewrite pixel_pass_interior in Hr by (done || lia).
  injection Hr as Hmin.
  destruct (dilate_min_zero_witness _ _ _ _ Hmin) as (k & Hk & Hk0).
  assert (px_index width k.1 k.2 = (4 * (k.1 * width + k.2))%nat) as Hkq
    by (unfold px_index; lia).
  rewrite Hkq in Hk0.
  pose proof (Hsub _ (bw_black_of_red A _ HA Hk0)) as HBq.
  apply pixels_lookup in HBq. destruct HBq as (HBr & _).
  rewrite <- Hkq in HBr.
  pose proof (dilate_min_zero B width _ _ k HB Hk HBr) as HminB.
  destruct (lookup_lt_is_Some_2 B (4 * p + 3)%nat ltac:(lia)) as [a HaB].
  pose proof (bw_alpha B p a HB HaB) as ->.
  apply pixels_lookup. rewrite dilate_pixel_pass.
  split; [|split; [|split]].
  - replace (4 * p)%nat
      with (px_index width (p / width)%nat (p mod width)%nat + 0)%nat by lia.
    rewrite pixel_pass_interior by (done || lia). by rewrite HminB.
  - replace (4 * p + 1)%nat
      with (px_index width (p / width)%nat (p mod width)%nat + 1)%nat by lia.
    rewrite pixel_pass_interior by (done || lia). by rewrite HminB.
  - replace (4 * p + 2)%nat
      with (px_index width (p / width)%nat (p mod width)%nat + 2)%nat by lia.
    rewrite pixel_pass_interior by (done || lia). by rewrite HminB.
  - rewrite pixel_pass_other; [done|].
    intros y x c Hint Hc Heq. unfold px_index in Heq. lia.
Qed.

Lemma dilate_passes_mono n A B width height :
  is_bw A → is_bw B → length A = length B →
  (∀ q, pixels A !! q = Some black → pixels B !! q = Some black) →
  ∀ p, pixels (dilate_passes n A width height) !! p = Some black →
       pixels (dilate_passes n B width height) !! p = Some black.
Proof.
  intros HA HB Hlen Hsub. induction n as [|n IH]; [done|].
  intros p. rewrite !dilate_passes_S. apply dilate_mono.
  - by apply dilate_passes_preserves_bw.
  - by apply dilate_passes_preserves_bw.
  - by rewrite !length_dilate_passes.
  - exact IH.
Qed.

(** X19. Raising the threshold never adds a line, dilation included: for two
    option sets that differ only in the threshold, every pixel that is black
    in the conversion with the higher threshold is black in the conversion
    with the lower one, and the number of black pixels does not increase
    with the threshold. *)
Theorem line_art_pixels_threshold_monotone (imageData : list Z)
    (width height : nat) (options1 options2 : LineArtOptions) :
  length imageData = (4 * (width * height))%nat → Forall is_byte imageData →
  (0 < width)%nat → (0 < height)%nat →
  blurPasses options1 = blurPasses options2 →
  thickness options1 = thickness options2 →
  0 ≤ threshold options1 → threshold options1 ≤ threshold options2 →
  threshold options2 ≤ 255 →
  ∃ out1 out2,
    line_art_pixels imageData width height options1 = Some out1 ∧
    line_art_pixels imageData width height options2 = Some out2 ∧
    (∀ p, pixels out2 !! p = Some black → pixels out1 !! p = Some black) ∧
    (count_black out2 ≤ count_black out1)%nat.
Proof.
  intros Hlen Hb Hw Hh Hblur Hthick Ht0 Ht12 Ht2. unfold line_art_pixels.
  rewrite <- Hblur, <- Hthick.
  destruct (pipeline_magnitudes imageData width height (blurPasses options1)
              Hlen Hb) as (_ & _ & Hnn).
  cbv zeta in Hnn.
  set (magnitude := sobelEdge _ width height) in *.
  pose proof (length_sobelEdge
                (blur_passes (blurPasses options1) (grayscale imageData)
                   width height) width height) as Hlm.
  fold magnitude in Hlm.
  rewrite !thresholdEdges_eq by done. simpl.
  destruct (max_magnitude_spec magnitude Hnn) as (Nmax & _ & _).
  set (c1 := normalized_threshold (threshold options1) (max_magnitude magnitude)).
  set (c2 := normalized_threshold (threshold options2) (max_magnitude magnitude)).
  destruct (normalized_threshold_spec (threshold options1) _ ltac:(lia) Nmax)
    as (Nc1 & _ & _).
  destruct (normalized_threshold_spec (threshold options2) _ ltac:(lia) Nmax)
    as (Nc2 & _ & _).
  fold c1 in Nc1. fold c2 in Nc2.
  pose proof (normalized_threshold_mono _ _ _ Ht0 Ht12 Ht2 Nmax) as Hc.
  fold c1 c2 in Hc.
  assert (∀ p, pixels (magnitude ≫= render c2) !! p = Some black →
               pixels (magnitude ≫= render c1) !! p = Some black) as Hsub.
  { intros p. rewrite !pixels_bind_render, !list_lookup_fmap.
    destruct (magnitude !! p) as [m|] eqn:E; [|done]. simpl.
    intros [= Hm]. f_equal. apply render_pixel_black in Hm.
    apply render_pixel_black.
    assert (nonneg_finite m) as Nm.
    { apply (Forall_nonneg_finite_elem magnitude); [done|].
      by apply list_elem_of_lookup_2 in E. }
    apply is_edge_correct in Hm; [|done..].
    apply is_edge_correct; [done..|]. lra. }
  assert (∀ p, pixels (dilate_passes (thickness options1)
                         (magnitude ≫= render c2) width height) !! p
               = Some black →
               pixels (dilate_passes (thickness options1)
                         (magnitude ≫= render c1) width height) !! p
               = Some black) as Hsub'.
  { apply dilate_passes_mono; [apply is_bw_render..| |done].
    by rewrite !length_bind_render. }
  eexists _, _. split; [reflexivity|]. split; [reflexivity|].
  split; [exact Hsub'|].
  unfold count_black. apply count_filter_pointwise.
  - by rewrite !length_pixels, !length_dilate_passes, !length_bind_render.
  - intros i px Hi ->. exists black. split; [|done]. by apply Hsub'.
Qed.

(** X20. With the threshold at 0 and no dilation, the conversion marks
    exactly the pixels with a gradient: an interior pixel is black when one
    of the two Sobel convolutions of the blurred grey image is not zero at
    it, and white when both are zero. *)
Theorem line_art_pixels_threshold_0 (imageData : list Z)
    (width height : nat) (options : LineArtOptions) :
  length imageData = (4 * (width * height))%nat → Forall is_byte imageData →
  threshold options = 0 → thickness options = 0%nat →
  let img := blur_passes (blurPasses options) (grayscale imageData)
               width height in
  ∀ y x,
    (1 ≤ y ∧ y + 1 < height ∧ 1 ≤ x ∧ x + 1 < width)%nat →
    ∃ output,
      line_art_pixels imageData width height options = Some output ∧
      (pixels output !! (y * width + x)%nat = Some black ↔
       ¬ (convolve kernelX img width y x = 0 ∧
          convolve kernelY img width y x = 0)) ∧
      (pixels output !! (y * width + x)%nat = Some white ↔
       convolve kernelX img width y x = 0 ∧
       convolve kernelY img width y x = 0).
Proof.
  intros Hlen Hb Ht Hthick img y x Hint. unfold line_art_pixels.
  destruct (pipeline_magnitudes imageData width height (blurPasses options)
              Hlen Hb) as (Hlen' & Hb' & Hnn).
  cbv zeta in Hlen', Hb', Hnn. fold img in Hlen', Hb', Hnn |- *.
  set (magnitude := sobelEdge img width height) in *.
  pose proof (length_sobelEdge img width height) as Hlm.
  fold magnitude in Hlm.
  rewrite thresholdEdges_eq by (done || lia). simpl.
  rewrite Ht, Hthick, dilate_passes_0.
  eexists. split; [reflexivity|].
  destruct (max_magnitude_spec magnitude Hnn) as (Nmax & _ & _).
  set (c := normalized_threshold 0 (max_magnitude magnitude)).
  destruct (normalized_threshold_spec 0 _ ltac:(lia) Nmax) as (Nc & _ & _).
  fold c in Nc.
  pose proof (normalized_threshold_0 _ Nmax) as Hc0. fold c in Hc0.
  assert (magnitude !! (y * width + x)%nat
          = Some (sobel_magnitude
                    (Some (convolve kernelX img width y x,
                           convolve kernelY img width y x)))) as Hm.
  { unfold magnitude. rewrite sobelEdge_foldl.
    rewrite (foldl_write_mag_hit width
               (λ y x, sobel_magnitude (sobel_window img width y x).1)).
    - by rewrite (sobel_window_in_range img width height).
    - intros y' x' Hin. apply elem_of_interior in Hin. lia.
    - lia.
    - rewrite length_replicate. apply cell_lt; lia.
    - right. by apply elem_of_interior. }
  destruct (convolve_bounds img width y x Hb') as [Bx By].
  destruct (sobel_magnitude_ok _ _ Bx By) as [Nm Hpos].
  set (m := sobel_magnitude _) in *.
  rewrite pixels_bind_render, list_lookup_fmap, Hm. simpl.
  assert (is_edge c m = true ↔
          ¬ (convolve kernelX img width y x = 0 ∧
             convolve kernelY img width y x = 0)) as Hedge.
  { rewrite (is_edge_correct c m Nc Nm), Hc0. exact Hpos. }
  unfold render_pixel. destruct (is_edge c m) eqn:E.
  - split; [split; [intros _; by apply Hedge|done]|].
    split; [done|]. intros Hz. by apply Hedge in Hz.
  - split; [split; [done|]|].
    + intros Hne. apply Hedge in Hne. done.
    + split; [intros _|done].
      destruct (decide (convolve kernelX img width y x = 0 ∧
                        convolve kernelY img width y x = 0)) as [?|Hne];
        [done|]. apply Hedge in Hne. done.
Qed.

(** * The alpha channel of the input is ignored *)

Lemma same_colours_insert data data' i v :
  same_colours data data' →
  same_colours (<[i := v]> data) (<[i := v]> data').
Proof.
  intros [Hlen Hcol]. split; [by rewrite !length_insert|].
  intros p c Hc. destruct (decide (i = (4 * p + c)%nat)) as [->|Hne].
  - destruct (decide (4 * p + c < length data)%nat) as [Hlt|Hge].
    + rewrite !list_lookup_insert_eq by lia. done.
    + rewrite !list_insert_ge by lia. by apply Hcol.
  - rewrite !list_lookup_insert_ne by done. by apply Hcol.
Qed.

Lemma same_colours_px data data' width y x c :
  same_colours data data' → (c < 3)%nat →
  data !! (px_index width y x + c)%nat = data' !! (px_index width y x + c)%nat.
Proof.
  intros [_ Hcol] Hc. unfold px_index.
  replace ((y * width + x) * 4 + c)%nat with (4 * (y * width + x) + c)%nat
    by lia.
  by apply Hcol.
Qed.

Lemma same_colours_grayscale data data' :
  same_colours data data' → same_colours (grayscale data) (grayscale data').
Proof.
  intros H. unfold grayscale, for_step4. rewrite <- (proj1 H).
  generalize (seq 0 ((length data + 3) / 4)). intros l.
  revert data data' H. induction l as [|p l IH]; intros data data' H;
    cbn [foldl]; [done|].
  apply IH. destruct H as [Hlen Hcol].
  pose proof (Hcol p 0%nat ltac:(lia)) as H0. rewrite Nat.add_0_r in H0.
  rewrite <- H0, <- (Hcol p 1%nat ltac:(lia)), <- (Hcol p 2%nat ltac:(lia)).
  by repeat apply same_colours_insert.
Qed.

Lemma same_colours_blur_sum data data' width y x c :
  same_colours data data' → (c < 3)%nat →
  blur_sum data width y x c = blur_sum data' width y x c.
Proof.
  intros H Hc. rewrite !blur_sum_foldl. f_equal.
  apply list_fmap_ext. intros i k _. unfold chan_at.
  by apply same_colours_px.
Qed.

Lemma same_colours_write_rgb data data' width val val' ks :
  same_colours data data' →
  (∀ y x c, (c < 3)%nat → val y x c = val' y x c) →
  same_colours (foldl (write_rgb width val) data ks)
               (foldl (write_rgb width val') data' ks).
Proof.
  intros H Hval. revert data data' H.
  induction ks as [|k ks IH]; intros data data' H; simpl; [done|].
  apply IH. unfold write_rgb.
  rewrite <- !Hval by lia. by repeat apply same_colours_insert.
Qed.

Lemma same_colours_boxBlur data data' width height :
  same_colours data data' →
  same_colours (boxBlur data width height) (boxBlur data' width height).
Proof.
  intros H. rewrite !boxBlur_pixel_pass. unfold pixel_pass.
  apply same_colours_write_rgb; [done|].
  intros y x c Hc. f_equal. by apply same_colours_blur_sum.
Qed.

Lemma same_colours_blur_passes n data data' width height :
  same_colours data data' →
  same_colours (blur_passes n data width height)
               (blur_passes n data' width height).
Proof.
  intros H. induction n as [|n IH]; [done|].
  rewrite !blur_passes_S. by apply same_colours_boxBlur.
Qed.

Lemma same_colours_sobel_window data data' width y x :
  same_colours data data' →
  sobel_window data width y x = sobel_window data' width y x.
Proof.
  intros H.
  assert (∀ a b, data !! px_index width a b = data' !! px_index width a b)
    as Hred.
  { intros a b. pose proof (same_colours_px data data' width a b 0 H
                              ltac:(lia)) as E.
    by rewrite Nat.add_0_r in E. }
  unfold sobel_window, for_up. simpl. by rewrite !Hred.
Qed.

Lemma same_colours_sobelEdge data data' width height :
  same_colours data data' →
  sobelEdge data width height = sobelEdge data' width height.
Proof.
  intros H. rewrite !sobelEdge_foldl. apply foldl_ext_eq.
  intros magnitude [y x]. unfold write_mag. cbn [fst snd].
  by rewrite (same_colours_sobel_window data data').
Qed.

(** X22. The conversion ignores transparency: two canvases of the same size
    whose pixels have the same red, green and blue values give the same line
    art, whatever their alpha values and whatever the options. *)
Theorem line_art_pixels_ignores_alpha (imageData imageData' : list Z)
    (width height : nat) (options : LineArtOptions) :
  length imageData = length imageData' →
  (∀ p c, (c < 3)%nat →
          imageData !! (4 * p + c)%nat = imageData' !! (4 * p + c)%nat) →
  line_art_pixels imageData width height options
  = line_art_pixels imageData' width height options.
Proof.
  intros Hlen Hcol. unfold line_art_pixels.
  assert (same_colours imageData imageData') as H by (by split).
  by rewrite (same_colours_sobelEdge _ _ _ _
                (same_colours_blur_passes (blurPasses options) _ _ width height
                   (same_colours_grayscale _ _ H))).
Qed.

(** * Drawing with the pointer *)

Lemma stroke_end_snoc prev ms m : stroke_end prev (ms ++ [m]) = Some (mark_end m).
Proof. unfold stroke_end. by rewrite last_snoc. Qed.

Lemma connected_from_snoc prev ms m :
  connected_from prev (ms ++ [m]) ↔
  connected_from prev ms ∧
  match m with
  | Dot _ _ _ _ => True
  | Segment from _ _ _ _ => stroke_end prev ms = Some from
  end.
Proof.
  revert prev. induction ms as [|m' ms IH]; intros prev.
  - destruct m; simpl; unfold stroke_end; simpl; tauto.
  - assert (stroke_end prev (m' :: ms) = stroke_end (Some (mark_end m')) ms)
      as Hend.
    { unfold stroke_end. destruct ms as [|m'' ms']; [done|].
      rewrite last_cons_cons.
      destruct (list.last (m'' :: ms')) eqn:E; [done|].
      by apply last_None in E. }
    destruct m'; simpl; rewrite IH, Hend; simpl; tauto.
Qed.

(** What every handler keeps. *)
Lemma handle_pointer_invariant st be :
  (isDrawing st = true ↔ is_Some (lastPos st)) →
  connected_from None (marks st) →
  (∀ p, lastPos st = Some p → stroke_end None (marks st) = Some p) →
  let st' := handle_pointer st be in
  (isDrawing st' = true ↔ is_Some (lastPos st')) ∧
  connected_from None (marks st') ∧
  (∀ p, lastPos st' = Some p → stroke_end None (marks st') = Some p) ∧
  (is_down be = false → marks st = [] → marks st' = []) ∧
  (length (marks st') ≤ S (length (marks st)))%nat.
Proof.
  intros Hflag Hconn Hlast.
  assert ((false = true ↔ is_Some (@None point)) ∧
          connected_from None (marks st) ∧
          (∀ p, @None point = Some p → stroke_end None (marks st) = Some p) ∧
          (is_down be = false → marks st = [] → marks st = []) ∧
          (length (marks st) ≤ S (length (marks st)))%nat) as Hreset.
  { split; [split; [done|intros [? ?]; done]|].
    split; [done|]. split; [done|]. split; [done|lia]. }
  assert ((isDrawing st = true ↔ is_Some (lastPos st)) ∧
          connected_from None (marks st) ∧
          (∀ p, lastPos st = Some p → stroke_end None (marks st) = Some p) ∧
          (is_down be = false → marks st = [] → marks st = []) ∧
          (length (marks st) ≤ S (length (marks st)))%nat) as Hsame.
  { split; [done|]. split; [done|]. split; [done|]. split; [done|lia]. }
  destruct be as [b [coords pressure|coords pressure| |]];
    unfold handle_pointer; cbn [fst snd].
  - unfold handlePointerDown. cbn [isDrawing lastPos marks].
    split; [split; [by eexists|done]|]. split.
    + apply connected_from_snoc. done.
    + split; [intros p [= <-]; by rewrite stroke_end_snoc|].
      split; [done|]. rewrite length_app. simpl. lia.
  - unfold handlePointerMove. destruct (isDrawing st) eqn:Hd; cbn [negb].
    + destruct (lastPos st) as [last|] eqn:Hl.
      * cbn [isDrawing lastPos marks].
        split; [split; [by eexists|done]|]. split.
        -- apply connected_from_snoc. split; [done|]. by apply Hlast.
        -- split; [intros p [= <-]; by rewrite stroke_end_snoc|].
           split.
           ++ intros _ Hnil. rewrite Hnil in Hlast.
              specialize (Hlast last eq_refl). done.
           ++ rewrite length_app. simpl. lia.
      * rewrite Hd, Hl. exact Hsame.
    + rewrite Hd. exact Hsame.
  - exact Hreset.
  - unfold handlePointerLeave. destruct (isDrawing st) eqn:Hd.
    + exact Hreset.
    + rewrite Hd. exact Hsame.
Qed.

(** X21. Strokes are connected: after any sequence of pointer events, handled
    one after the other from the initial state, the drawing flag is set
    exactly when a last position is recorded, every segment painted starts
    where the mark painted before it ended (so no segment joins two strokes,
    and a stroke begins with the dot of its pointer-down), nothing is painted
    before the first pointer-down, and each event paints at most one mark. *)
Theorem pointer_strokes_connected (events : list (brush * pointer_event)) :
  let st := foldl handle_pointer pen_start events in
  (isDrawing st = true ↔ is_Some (lastPos st)) ∧
  connected_from None (marks st) ∧
  (∀ p, lastPos st = Some p → stroke_end None (marks st) = Some p) ∧
  (forallb (λ be, negb (is_down be)) events = true → marks st = []) ∧
  (length (marks st) ≤ length events)%nat.
Proof.
  induction events as [|be events IH] using rev_ind.
  - simpl. split; [split; [done|intros [? ?]; done]|].
    split; [done|]. split; [done|]. split; [done|lia].
  - cbv zeta in *. rewrite foldl_app. simpl.
    destruct IH as (Hflag & Hconn & Hlast & Hnone & Hlen).
    destruct (handle_pointer_invariant _ be Hflag Hconn Hlast)
      as (Hflag' & Hconn' & Hlast' & Hnone' & Hlen').
    split; [done|]. split; [done|]. split; [done|]. split.
    + rewrite forallb_app. simpl. intros H. apply andb_true_iff in H.
      destruct H as [H1 H2]. rewrite andb_true_r in H2.
      apply negb_true_iff in H2. apply Hnone'; [done|]. by apply Hnone.
    + rewrite length_app. simpl. lia.
Qed.

(** * The further theorems on concrete inputs *)

Lemma example_line_art_bw : is_bw example_line_art.
Proof. split; [exists 9%nat; reflexivity|repeat constructor]. Defined.

(** The black pixel of [example_line_art] after two dilation passes. *)
Lemma dilate_only_adds_black_witness :
  pixels (dilate_passes 2 example_line_art 3 3) !! 4%nat = Some black.
Proof.
  destruct (dilate_only_adds_black example_line_art 3 3 example_line_art_bw)
    as (H & _).
  apply H. reflexivity.
Defined.

(** The zero entry of [example_map] at threshold 128. *)
Lemma thresholdEdges_zero_white_witness :
  ∃ output, thresholdEdges example_map 2 2 128 = Some output ∧
            pixels output !! 0%nat = Some white.
Proof.
  destruct (thresholdEdges_zero_white example_map 2 2 128 eq_refl
              ltac:(lia) ltac:(lia) ltac:(lia)) as (output & Hout & Hz).
  exists output. split; [exact Hout|].
  apply (Hz 0%nat 0%float eq_refl). left. exists false. reflexivity.
Defined.

(** The grey levels of [example_image]. *)
Lemma grayscale_contract_witness :
  pixels (grayscale example_image) = gray_pixel <$> pixels example_image.
Proof.
  destruct (grayscale_contract example_image 9 eq_refl) as (H & _). exact H.
Defined.

(** The grey level of the colour (10, 200, 30). *)
Lemma gray_value_weighted_mean_witness :
  Z.abs (1000 * gray_value (Some 10) (Some 200) (Some 30)
         - (299 * 10 + 587 * 200 + 114 * 30)) ≤ 500.
Proof.
  destruct (gray_value_weighted_mean 10 200 30
              ltac:(unfold is_byte; lia) ltac:(unfold is_byte; lia)
              ltac:(unfold is_byte; lia)) as [H _].
  exact H.
Defined.

Lemma example_flat_uniform : uniform 10 20 30 example_flat.
Proof. repeat constructor. Defined.

(** The conversion of [example_flat] with the default options. *)
Lemma line_art_pixels_flat_witness :
  line_art_pixels example_flat 3 3 defaultOptions
  = Some (replicate (4 * (3 * 3)) 255).
Proof.
  apply (line_art_pixels_flat example_flat 3 3 10 20 30 defaultOptions
           eq_refl example_flat_uniform ltac:(lia) ltac:(lia)
           ltac:(simpl; lia)).
Defined.

(** The conversion of a 6x4 image with the default options. *)
Lemma convertToLineArt_result_witness :
  ∃ output,
    convertToLineArt 6 4 example_canvas defaultOptions
    = Some (6%nat, 4%nat, output) ∧ is_bw output.
Proof.
  destruct (convertToLineArt_result 6 4 example_canvas defaultOptions
              ltac:(simpl; lia)) as [_ H].
  destruct (H ltac:(simpl; lia) ltac:(simpl; lia))
    as (output & Hout & _ & Hbw & _).
  exists output. split; [exact Hout|exact Hbw].
Defined.

(** A 5000x3 image with the default options. *)
Lemma convertToLineArt_elongated_witness :
  convertToLineArt 5000 3 example_canvas defaultOptions = None.
Proof.
  destruct (convertToLineArt_elongated 5000 3 example_canvas defaultOptions
              ltac:(lia) ltac:(lia) ltac:(simpl; lia)
              ltac:(right; simpl; lia)) as [_ H].
  exact H.
Defined.

(** A 1109x700 image with [maxDim = 600]. *)
Lemma resize_keeps_orientation_witness :
  (resize 1109 700 600).2 ≤ (resize 1109 700 600).1.
Proof.
  destruct (resize_keeps_orientation 1109 700 600 ltac:(lia) ltac:(lia)
              ltac:(lia)) as (_ & H & _).
  apply H. lia.
Defined.

Lemma resize_idempotent_witness :
  resize (resize 1109 700 600).1 (resize 1109 700 600).2 600
  = resize 1109 700 600.
Proof.
  exact (resize_idempotent 1109 700 600 600 ltac:(lia) ltac:(lia)
           ltac:(lia) ltac:(lia)).
Defined.

(** HQ mode with an unreachable service, the first local conversion
    failing. *)
Lemma handleConvert_hq_offline_witness :
  alerts (handleConvert (Some "photo.jpg"%string) HQ
            (checkAPIHealth <$> Some (Err NetworkError))
            (Err NetworkError) example_local example_editor)
  = [notice_fallback].
Proof.
  destruct (handleConvert_hq_offline "photo.jpg" (Some (Err NetworkError))
              (Err NetworkError) example_local example_editor
              ltac:(intros resp [=])) as [_ H].
  simpl in H. destruct H as (_ & _ & H). exact H.
Defined.

(** The transparent background of [example_line_art]. *)
Lemma makeWhiteTransparent_contract_witness :
  pixels (makeWhiteTransparent example_line_art)
  = transparent_pixel <$> pixels example_line_art.
Proof.
  destruct (makeWhiteTransparent_contract example_line_art 9 eq_refl)
    as (H & _).
  exact H.
Defined.

(** The page of a 1063x1063 image. *)
Lemma pageSize_fits_witness :
  (F2R (pageSize 1063 1063).1 <= 612 + bpow (-43))%R.
Proof.
  destruct (pageSize_fits 1063 1063 ltac:(lia) ltac:(lia))
    as (_ & _ & H & _).
  exact H.
Defined.

(** The aspect ratio of a 1109x700 image resized to 600. *)
Lemma resize_aspect_ratio_witness :
  Z.abs ((resize 1109 700 600).1 * 700 - (resize 1109 700 600).2 * 1109)
  < 2 * Z.max 1109 700.
Proof.
  exact (resize_aspect_ratio 1109 700 600 ltac:(lia) ltac:(lia) ltac:(lia)).
Defined.

(** Two blur passes over [example_image]. *)
Lemma boxBlur_smooths_witness :
  Forall is_byte (blur_passes 2 example_image 3 3).
Proof.
  destruct (boxBlur_smooths example_image 3 3 example_image_bytes) as (H & _).
  destruct (H 2%nat) as [Hb _]. exact Hb.
Defined.

(** The magnitude map of [example_image]. *)
Lemma sobelEdge_magnitudes_witness :
  Forall nonneg_finite (sobelEdge example_image 3 3).
Proof.
  destruct (sobelEdge_magnitudes example_image 3 3 eq_refl example_image_bytes)
    as [H _].
  exact H.
Defined.

(** [example_image] converted with the threshold at 255. *)
Lemma line_art_pixels_threshold_255_witness :
  line_art_pixels example_image 3 3
    {| threshold := 255; blurPasses := 1; thickness := 1; maxDim := 1200 |}
  = Some (replicate (4 * (3 * 3)) 255).
Proof.
  exact (line_art_pixels_threshold_255 example_image 3 3
           {| threshold := 255; blurPasses := 1; thickness := 1;
              maxDim := 1200 |}
           eq_refl example_image_bytes ltac:(lia) ltac:(lia) eq_refl).
Defined.

(** [example_image] converted with the thresholds 50 and 128. *)
Lemma line_art_pixels_threshold_monotone_witness :
  ∃ out1 out2,
    line_art_pixels example_image 3 3 defaultOptions = Some out1 ∧
    line_art_pixels example_image 3 3
      {| threshold := 128; blurPasses := 1; thickness := 1; maxDim := 1200 |}
    = Some out2 ∧
    (count_black out2 ≤ count_black out1)%nat.
Proof.
  destruct (line_art_pixels_threshold_monotone example_image 3 3
              defaultOptions
              {| threshold := 128; blurPasses := 1; thickness := 1;
                 maxDim := 1200 |}
              eq_refl example_image_bytes ltac:(lia) ltac:(lia) eq_refl
              eq_refl ltac:(simpl; lia) ltac:(simpl; lia) ltac:(simpl; lia))
    as (out1 & out2 & H1 & H2 & _ & Hc).
  exists out1, out2. split; [exact H1|]. split; [exact H2|exact Hc].
Defined.

(** The centre pixel of [example_image] with the threshold at 0, no blur and
    no dilation. *)
Lemma line_art_pixels_threshold_0_witness :
  ∃ output,
    line_art_pixels example_image 3 3
      {| threshold := 0; blurPasses := 0; thickness := 0; maxDim := 1200 |}
    = Some output ∧
    (pixels output !! (1 * 3 + 1)%nat = Some black ↔
     ¬ (convolve kernelX (blur_passes 0 (grayscale example_image) 3 3)
          3 1 1 = 0 ∧
        convolve kernelY (blur_passes 0 (grayscale example_image) 3 3)
          3 1 1 = 0)).
Proof.
  destruct (line_art_pixels_threshold_0 example_image 3 3
              {| threshold := 0; blurPasses := 0; thickness := 0;
                 maxDim := 1200 |}
              eq_refl example_image_bytes eq_refl eq_refl 1%nat 1%nat
              ltac:(lia)) as (output & Hout & Hblack & _).
  cbn [blurPasses] in Hblack.
  exists output. split; [exact Hout|exact Hblack].
Defined.

(** An opaque and a transparent pixel of the same colour. *)
Lemma line_art_pixels_ignores_alpha_witness :
  line_art_pixels [10; 20; 30; 255] 1 1 defaultOptions
  = line_art_pixels [10; 20; 30; 0] 1 1 defaultOptions.
Proof.
  apply (line_art_pixels_ignores_alpha [10; 20; 30; 255] [10; 20; 30; 0] 1 1
           defaultOptions eq_refl).
  intros p c Hc. destruct p as [|p].
  - destruct c as [|[|[|c]]]; [reflexivity..|lia].
  - rewrite !lookup_ge_None_2 by (simpl; lia). reflexivity.
Defined.
